(** * Weighted influence maximisation (CELF over Independent Cascade)

    A shallow embedding of the two versions of [weighted_max_influence.cc]
    the repository holds: the current one, in its [src] directory (explicit
    eligibility flag [has_value], epoch tokens, [mc_rounds] parameter,
    warning on an exhausted heap), and, in [Module Legacy], the older one at
    its root (fixed [MC_ROUNDS], activation sets, no [has_value]).

    Conventions of the embedding.
    - [double] is modelled twice.  In the main development it is an exact
      rational [Q]: [+], [-], [/], [==], [<] and [<=] are exact, there is no
      rounding, no infinity and no NaN, and [x / 0] is [0], where the source
      has NaN or an infinity ([main] accepts [mc_rounds = 0], at which every
      estimate of the source is [0.0 / 0.0]).  This model carries the
      statements about the control flow, the output and the structure of the
      graph, which do not depend on the value of a sum or on the outcome of
      a comparison with NaN.  In [Module Binary64] the graph, the rollout,
      the estimator, the heap order and the edge loop of the parser are
      given again with [double] as the kernel's binary64 numbers and with
      [std::stod] left as whatever function the library provides; this model
      carries the statements that rounding, NaN or the conversion decide.
    - [int] node ids, container sizes and iteration stamps are [nat];
      [int k], [int mc_rounds] and the [unsigned int] epoch token are [Z],
      the token with its wrap-around modulo [2^32] written out.
    - [std::vector] is a list read with a default and updated in place with
      stdpp's insert; an out-of-range index is undefined behaviour in the
      source and is excluded by [wf_graph], which every graph built through
      the [Graph] interface satisfies.
    - [std::mt19937] together with [uniform_real_distribution<double>(0,1)]
      is the sequence of draws the engine is going to produce.
    - [std::set<int>] is a strictly increasing list, [std::priority_queue]
      a bag of entries from which the greatest is taken. *)

From Stdlib Require Import ZArith QArith Lqa Lia Ascii String.
From stdpp Require Import base list gmap strings sorting.
From Stdlib Require Import Floats Uint63.

Local Open Scope Q_scope.
Local Open Scope nat_scope.

(** ** Graph model *)

Record Edge := mkEdge { to : nat; probability : Q }.

Record Graph := mkGraph {
  id_map : gmap string nat;
  reverse_id_map : list string;
  adj : list (list Edge);
  node_values : list Q;
  has_value : list bool
}.

Definition empty_graph : Graph :=
  {| id_map := ∅; reverse_id_map := []; adj := [];
     node_values := []; has_value := [] |}.

Definition num_nodes (g : Graph) : nat := length (reverse_id_map g).

(** [Graph::get_internal_id]: returns the id and the (possibly grown) graph. *)
Definition get_internal_id (gexf_id : string) (g : Graph) : nat * Graph :=
  match id_map g !! gexf_id with
  | None =>
      let new_id := length (reverse_id_map g) in
      (new_id,
       {| id_map := <[gexf_id := new_id]> (id_map g);
          reverse_id_map := reverse_id_map g ++ [gexf_id];
          adj := resize (new_id + 1) [] (adj g);
          node_values := resize (new_id + 1) 0%Q (node_values g);
          has_value := resize (new_id + 1) false (has_value g) |})
  | Some i => (i, g)
  end.

(** [Graph::add_edge]: [adj[u].push_back({v, prob})]. *)
Definition add_edge (src target : string) (prob : Q) (g : Graph) : Graph :=
  let '(u, g1) := get_internal_id src g in
  let '(v, g2) := get_internal_id target g1 in
  {| id_map := id_map g2;
     reverse_id_map := reverse_id_map g2;
     adj := alter (λ es, es ++ [mkEdge v prob]) u (adj g2);
     node_values := node_values g2;
     has_value := has_value g2 |}.

(** [Graph::set_node_value]: records the value and raises the flag. *)
Definition set_node_value (gexf_id : string) (val : Q) (g : Graph) : Graph :=
  let '(u, g1) := get_internal_id gexf_id g in
  {| id_map := id_map g1;
     reverse_id_map := reverse_id_map g1;
     adj := adj g1;
     node_values := <[u := val]> (node_values g1);
     has_value := <[u := true]> (has_value g1) |}.

(** Vector reads [g.node_values[v]], [g.adj[u]], [g.has_value[i]] and
    [g.reverse_id_map[i]]. *)
Definition value_of (g : Graph) (v : nat) : Q := default 0%Q (node_values g !! v).
Definition edges_of (g : Graph) (u : nat) : list Edge := default [] (adj g !! u).
Definition eligible (g : Graph) (i : nat) : bool := default false (has_value g !! i).
Definition external_id (g : Graph) (i : nat) : string :=
  default EmptyString (reverse_id_map g !! i).

(** The shape every graph built through the interface has (spec section 3:
    all vectors have length N and every edge target is a valid id). *)
Record wf_graph (g : Graph) : Prop := {
  wf_adj_len : length (adj g) = num_nodes g;
  wf_val_len : length (node_values g) = num_nodes g;
  wf_has_len : length (has_value g) = num_nodes g;
  wf_edges : ∀ u es e, adj g !! u = Some es → e ∈ es → to e < num_nodes g;
  wf_ids : ∀ s i, id_map g !! s = Some i → i < num_nodes g
}.

(** ** Random engine *)

(** The state of a [std::mt19937] seen through
    [uniform_real_distribution<double>(0.0, 1.0)]: the draws still to come. *)
Definition mt19937 : Type := nat → Q.

(** [dist(rng)]: the next draw and the advanced engine. *)
Definition dist (rng : mt19937) : Q * mt19937 := (rng 0, λ n, rng (S n)).

(** Draws lie in [0,1), as the distribution guarantees. *)
Definition unit_draws (r : mt19937) : Prop := ∀ n, (0 <= r n)%Q ∧ (r n < 1)%Q.

(** ** One Monte Carlo rollout: [run_weighted_simulation_token] *)

(** The mutable locals of a rollout: the epoch vector (passed by reference),
    the FIFO queue, the running total and the engine. *)
Record sim_state := mkSim {
  last_seen : list Z;
  queue : list nat;
  total_value : Q;
  rng : mt19937
}.

(** [last_seen[v]]. *)
Definition seen_at (ls : list Z) (v : nat) : Z := default 0%Z (ls !! v).

(** Body of [for (int s : seed_list)]: an unseen seed is stamped, enqueued
    and counted; a repeated seed is skipped. *)
Definition seed_step (g : Graph) (seen_token : Z) (st : sim_state) (s : nat)
  : sim_state :=
  if (seen_at (last_seen st) s =? seen_token)%Z then st
  else {| last_seen := <[s := seen_token]> (last_seen st);
          queue := queue st ++ [s];
          total_value := (total_value st + value_of g s)%Q;
          rng := rng st |}.

(** Body of [for (const auto &edge : g.adj[u])]: one Bernoulli trial per
    edge into a node not yet activated; the test is [r <= edge.probability]. *)
Definition edge_step (g : Graph) (seen_token : Z) (st : sim_state) (edge : Edge)
  : sim_state :=
  let v := to edge in
  if (seen_at (last_seen st) v =? seen_token)%Z then st
  else
    let '(r, rng') := dist (rng st) in
    if Qle_bool r (probability edge) then
      {| last_seen := <[v := seen_token]> (last_seen st);
         queue := queue st ++ [v];
         total_value := (total_value st + value_of g v)%Q;
         rng := rng' |}
    else
      {| last_seen := last_seen st; queue := queue st;
         total_value := total_value st; rng := rng' |}.

(** One turn of [while (!q.empty())]: pop the front, scan its edges. *)
Definition bfs_turn (g : Graph) (seen_token : Z) (u : nat) (rest : list nat)
    (st : sim_state) : sim_state :=
  fold_left (edge_step g seen_token) (edges_of g u)
    {| last_seen := last_seen st; queue := rest;
       total_value := total_value st; rng := rng st |}.

(** The [while] loop, bounded by [fuel] turns.  [bfs_loop_drains] below shows
    that [num_nodes g] turns empty the queue. *)
Fixpoint bfs_loop (fuel : nat) (g : Graph) (seen_token : Z) (st : sim_state)
  : sim_state :=
  match fuel with
  | O => st
  | S fuel' =>
      match queue st with
      | [] => st
      | u :: rest => bfs_loop fuel' g seen_token (bfs_turn g seen_token u rest st)
      end
  end.

(** The state in which the [while] loop is entered. *)
Definition seeded (g : Graph) (seed_list : list nat) (rng0 : mt19937)
    (last_seen0 : list Z) (seen_token : Z) : sim_state :=
  fold_left (seed_step g seen_token) seed_list
    {| last_seen := last_seen0; queue := []; total_value := 0%Q; rng := rng0 |}.

(** The state in which it is left. *)
Definition rollout (g : Graph) (seed_list : list nat) (rng0 : mt19937)
    (last_seen0 : list Z) (seen_token : Z) : sim_state :=
  bfs_loop (num_nodes g) g seen_token
    (seeded g seed_list rng0 last_seen0 seen_token).

(** [run_weighted_simulation_token]: the returned total together with the
    two arguments it mutates. *)
Definition run_weighted_simulation_token (g : Graph) (seed_list : list nat)
    (rng0 : mt19937) (last_seen0 : list Z) (seen_token : Z)
  : Q * mt19937 * list Z :=
  let st := rollout g seed_list rng0 last_seen0 seen_token in
  (total_value st, rng st, last_seen st).

(** ** Spread estimator: [estimate_weighted_spread] *)

(** [++token], an [unsigned int]. *)
Definition next_token (token : Z) : Z := ((token + 1) mod 2 ^ 32)%Z.

(** The [for (int i = 0; i < mc_rounds; ++i)] loop over its locals
    [token], [last_seen], [total_spread] and the engine. *)
Fixpoint mc_loop (rounds : nat) (g : Graph) (seed_list : list nat)
    (token : Z) (ls : list Z) (total_spread : Q) (rng0 : mt19937)
  : Q * mt19937 :=
  match rounds with
  | O => (total_spread, rng0)
  | S rounds' =>
      let t := next_token token in
      let '(token', ls') :=
        if (t =? 0)%Z then (1%Z, replicate (length ls) 0%Z) else (t, ls) in
      let '(spread, rng1, ls1) :=
        run_weighted_simulation_token g seed_list rng0 ls' token' in
      mc_loop rounds' g seed_list token' ls1 (total_spread + spread)%Q rng1
  end.

Definition estimate_weighted_spread (g : Graph) (seed_list : list nat)
    (mc_rounds : Z) (rng0 : mt19937) : Q * mt19937 :=
  let n := num_nodes g in
  let '(total_spread, rng1) :=
    mc_loop (Z.to_nat mc_rounds) g seed_list 1%Z (replicate n 0%Z) 0%Q rng0 in
  ((total_spread / inject_Z mc_rounds)%Q, rng1).

(** ** Heap entries and their order *)

Record NodeGain := mkNodeGain {
  node_id : nat;
  marginal_gain : Q;
  iteration_computed : nat
}.

Definition Qlt_bool (x y : Q) : bool := negb (Qle_bool y x).

(** [NodeGain::operator<]: [a < other] means [other] leaves the heap first. *)
Definition NodeGain_lt (a other : NodeGain) : bool :=
  if Qeq_bool (marginal_gain a) (marginal_gain other)
  then node_id other <? node_id a
  else Qlt_bool (marginal_gain a) (marginal_gain other).

(** [std::priority_queue<NodeGain>]: the entries it holds.  [pq_extract x l]
    takes the greatest entry of [x :: l] for [NodeGain_lt] (the first such in
    the list if several are equivalent) and returns it with the others.  The
    driver never holds two entries for one node ([greedy_loop_distinct]), so
    the greatest entry is unique and does not depend on the layout of the
    heap ([pq_pop_layout_independent]). *)
Abbreviation priority_queue := (list NodeGain).

Definition pq_push (x : NodeGain) (pq : priority_queue) : priority_queue := x :: pq.

Fixpoint pq_extract (x : NodeGain) (l : list NodeGain) : NodeGain * list NodeGain :=
  match l with
  | [] => (x, [])
  | y :: l' =>
      let '(m, rest) := pq_extract y l' in
      if NodeGain_lt x m then (m, x :: rest) else (x, l)
  end.

(** [pq.top()] followed by [pq.pop()]; [None] on an empty queue. *)
Definition pq_pop (pq : priority_queue) : option (NodeGain * priority_queue) :=
  match pq with
  | [] => None
  | x :: l => Some (pq_extract x l)
  end.

(** ** [std::set<int>] *)

Fixpoint set_insert (x : nat) (s : list nat) : list nat :=
  match s with
  | [] => [x]
  | y :: s' =>
      if x <? y then x :: s
      else if x =? y then s
      else y :: set_insert x s'
  end.

(** [seeds.find(x) != seeds.end()]. *)
Definition set_mem (x : nat) (s : list nat) : bool := bool_decide (x ∈ s).

(** ** Output *)

(** The lines the program writes, on either stream. *)
Inductive line :=
| Usage (argv0 : string)
| ParsingGEXF
| FoundAttributeID (title attr_id : string)
| WarnAttributeNotFound (attr_name : string)
| Nodes (n : nat)
| EligibleSeeds (n : nat)
| RunningCELF (mc_rounds : Z)
| InitializingCELF (n : nat)
| SelectedNode (external : string) (val gain reach : Q)
| WarnExhausted (k : Z) (selected : nat)
| Separator
| SelectedSeeds (ids : list string)
| Elapsed
| Error (what : string).

(** ** Engine seeding *)

(** [std::random_device] and the clock: what every
    [std::mt19937 rng(std::seed_seq{rd(), now, ...})] is built from.  The
    environment decides the engine each construction obtains; the further
    words of the seed sequence (thread number and count, or node id) do not
    narrow that choice. *)
Definition entropy : Type := nat → mt19937.

Definition seed_engine (e : entropy) : mt19937 * entropy := (e 0, λ n, e (S n)).

(** ** CELF driver: [celf_weighted_influence] *)

Record celf_state := mkCelf {
  seeds : list nat;
  pq : priority_queue;
  current_val : Q;
  src : entropy;
  cout : list line;
  cerr : list line
}.

(** *** Phase 1 *)

(** Body of the [omp for] loop for index [i], on the thread's private heap
    and engine. *)
Definition phase1_step (g : Graph) (mc_rounds : Z)
    (acc : priority_queue * mt19937) (i : nat) : priority_queue * mt19937 :=
  if eligible g i then
    let '(spread, rng') := estimate_weighted_spread g [i] mc_rounds acc.2 in
    (pq_push (mkNodeGain i spread 0) acc.1, rng')
  else acc.

(** The [omp critical] section: the private heap is drained into the shared
    one, greatest entry first. *)
Fixpoint drain (fuel : nat) (local_pq shared : priority_queue) : priority_queue :=
  match fuel with
  | O => shared
  | S fuel' =>
      match pq_pop local_pq with
      | None => shared
      | Some (top, rest) => drain fuel' rest (pq_push top shared)
      end
  end.

(** One thread of the parallel region: it seeds its engine, runs the loop
    indices [chunk] handed to it, then merges. *)
Definition phase1_thread (g : Graph) (mc_rounds : Z)
    (acc : priority_queue * entropy) (chunk : list nat) : priority_queue * entropy :=
  let '(rng0, e') := seed_engine acc.2 in
  let local_pq := (fold_left (phase1_step g mc_rounds) chunk ([], rng0)).1 in
  (drain (length local_pq) local_pq acc.1, e').

(** The parallel region under a schedule: the chunk of loop indices of each
    thread, the threads taken in the order in which they enter the critical
    section.  The threads share only the read-only graph and the shared
    heap, so their interleaving is not observable beyond that order. *)
Definition phase1 (g : Graph) (mc_rounds : Z) (schedule : list (list nat))
    (e : entropy) : priority_queue * entropy :=
  fold_left (phase1_thread g mc_rounds) schedule ([], e).

(** A schedule hands out every loop index [0 <= i < n] exactly once. *)
Definition valid_schedule (g : Graph) (schedule : list (list nat)) : Prop :=
  concat schedule ≡ₚ seq 0 (num_nodes g).

(** *** Phase 2 *)

(** The body of the inner [while] once [top] has been popped ([st] holds the
    remaining heap); the flag is [found_best]. *)
Definition consider (g : Graph) (mc_rounds : Z) (top : NodeGain)
    (st : celf_state) : celf_state * bool :=
  if set_mem (node_id top) (seeds st) then (st, false)
  else if iteration_computed top =? length (seeds st) then
    let reach := (current_val st + marginal_gain top)%Q in
    ({| seeds := set_insert (node_id top) (seeds st);
        pq := pq st;
        current_val := reach;
        src := src st;
        cout := cout st ++
          [SelectedNode (external_id g (node_id top)) (value_of g (node_id top))
             (marginal_gain top) reach];
        cerr := cerr st |}, true)
  else
    let temp_seeds := seeds st ++ [node_id top] in
    let '(rng0, e') := seed_engine (src st) in
    let new_val := (estimate_weighted_spread g temp_seeds mc_rounds rng0).1 in
    let gain := (new_val - current_val st)%Q in
    ({| seeds := seeds st;
        pq := pq_push (mkNodeGain (node_id top) gain (length (seeds st))) (pq st);
        current_val := current_val st;
        src := e';
        cout := cout st;
        cerr := cerr st |}, false).

Definition with_pq (rest : priority_queue) (st : celf_state) : celf_state :=
  {| seeds := seeds st; pq := rest; current_val := current_val st;
     src := src st; cout := cout st; cerr := cerr st |}.

(** [while (!found_best && !pq.empty())], bounded by [fuel] pops.
    [select_loop_exit] shows that [select_fuel] pops always reach the exit
    condition of the loop. *)
Fixpoint select_loop (fuel : nat) (g : Graph) (mc_rounds : Z) (st : celf_state)
  : celf_state * bool :=
  match fuel with
  | O => (st, false)
  | S fuel' =>
      match pq_pop (pq st) with
      | None => (st, false)
      | Some (top, rest) =>
          let '(st', found_best) := consider g mc_rounds top (with_pq rest st) in
          if found_best then (st', true)
          else select_loop fuel' g mc_rounds st'
      end
  end.

Definition select_fuel (st : celf_state) : nat := S (2 * length (pq st)).

Definition warn_exhausted (k : Z) (st : celf_state) : celf_state :=
  {| seeds := seeds st; pq := pq st; current_val := current_val st;
     src := src st; cout := cout st;
     cerr := cerr st ++ [WarnExhausted k (length (seeds st))] |}.

(** [for (int iteration = 0; iteration < k; ++iteration)] with its [break]. *)
Fixpoint greedy_loop (iterations : nat) (g : Graph) (k mc_rounds : Z)
    (st : celf_state) : celf_state :=
  match iterations with
  | O => st
  | S iterations' =>
      let '(st', found_best) := select_loop (select_fuel st) g mc_rounds st in
      if found_best then greedy_loop iterations' g k mc_rounds st'
      else warn_exhausted k st'
  end.

(** The state in which the second phase starts. *)
Definition celf_init (g : Graph) (mc_rounds : Z) (schedule : list (list nat))
    (e : entropy) (out err : list line) : celf_state :=
  let '(heap, e1) := phase1 g mc_rounds schedule e in
  {| seeds := []; pq := heap; current_val := 0%Q; src := e1;
     cout := out ++ [InitializingCELF (num_nodes g)]; cerr := err |}.

(** [celf_weighted_influence]: the state at [return seeds]. *)
Definition celf_weighted_influence (g : Graph) (k mc_rounds : Z)
    (schedule : list (list nat)) (e : entropy) (out err : list line)
  : celf_state :=
  greedy_loop (Z.to_nat k) g k mc_rounds
    (celf_init g mc_rounds schedule e out err).

(** ** Library conversions: [std::stoi] and [std::stod] *)

(** The exceptions that reach [main]. *)
Inductive exn :=
| invalid_argument
| out_of_range
| runtime_error (what : string).

Inductive result (A : Type) :=
| Ok (a : A)
| Throw (e : exn).
Arguments Ok {A} a.
Arguments Throw {A} e.

(** [isspace] in the C locale. *)
Definition is_space (c : ascii) : bool :=
  let n := nat_of_ascii c in (n =? 32) || ((9 <=? n) && (n <=? 13)).

Definition digit_of (c : ascii) : option Z :=
  let n := nat_of_ascii c in
  if (48 <=? n) && (n <=? 57) then Some (Z.of_nat (n - 48)) else None.

Fixpoint skip_spaces (s : string) : string :=
  match s with
  | String c s' => if is_space c then skip_spaces s' else s
  | EmptyString => s
  end.

(** Reads the longest run of decimal digits: its value continuing [acc], how
    many digits were read, and the rest of the input. *)
Fixpoint read_digits (acc : Z) (count : nat) (s : string) : Z * nat * string :=
  match s with
  | String c s' =>
      match digit_of c with
      | Some d => read_digits (10 * acc + d) (S count) s'
      | None => (acc, count, s)
      end
  | EmptyString => (acc, count, s)
  end.

(** An optional sign: [true] for a minus. *)
Definition read_sign (s : string) : bool * string :=
  match s with
  | String "-" s' => (true, s')
  | String "+" s' => (false, s')
  | _ => (false, s)
  end.

(** [std::stoi(str)], base 10: leading white space, an optional sign, digits;
    what follows the digits is ignored. *)
Definition stoi (str : string) : result Z :=
  let '(neg, s1) := read_sign (skip_spaces str) in
  let '(v, count, _) := read_digits 0 0 s1 in
  if count =? 0 then Throw invalid_argument
  else
    let n := (if neg then - v else v)%Z in
    if ((- 2 ^ 31 <=? n) && (n <=? 2 ^ 31 - 1))%Z then Ok n
    else Throw out_of_range.

(** The largest finite [double]. *)
Definition DBL_MAX : Q := inject_Z ((2 ^ 53 - 1) * 2 ^ 971).

(** [std::stod(str)] on decimal literals: leading white space, an optional
    sign, digits with an optional fraction, an optional exponent; what
    follows is ignored.  The value is the exact rational the literal
    denotes, not the nearest binary64 number.  Hexadecimal, infinity and
    NaN literals, which the library reads and [Q] cannot hold, are not
    recognised, and a literal too small for a normal [double], on which the
    library throws [out_of_range], is read as its value.  The statements
    that depend on the number read are made in [Module Binary64], where
    [std::stod] is whatever the library provides. *)
Definition stod (str : string) : result Q :=
  let '(neg, s1) := read_sign (skip_spaces str) in
  let '(ip, icount, s2) := read_digits 0 0 s1 in
  let '(mant, fcount, s3) :=
    match s2 with
    | String "." s2' => read_digits ip 0 s2'
    | _ => (ip, 0, s2)
    end in
  if icount + fcount =? 0 then Throw invalid_argument
  else
    let exponent :=
      match s3 with
      | String c s3' =>
          if (Ascii.eqb c "e" || Ascii.eqb c "E")%bool then
            let '(eneg, s4) := read_sign s3' in
            let '(ev, ecount, _) := read_digits 0 0 s4 in
            if ecount =? 0 then 0%Z else if eneg then (- ev)%Z else ev
          else 0%Z
      | EmptyString => 0%Z
      end in
    let magnitude :=
      (inject_Z mant * Qpower 10 (exponent - Z.of_nat fcount))%Q in
    if Qlt_bool DBL_MAX magnitude then Throw out_of_range
    else Ok (if neg then (- magnitude)%Q else magnitude).

(** ** The GEXF scraper: [GEXFParser::parse] *)

Definition dquote : string := String "034"%char EmptyString.

(** [std::string::find(needle, pos)] and [substr(pos, len)]. *)
Definition find (needle : string) (pos : nat) (s : string) : option nat :=
  String.index pos needle s.
Definition substr (pos len : nat) (s : string) : string :=
  String.substring pos len s.

(** The lambda [get_xml_attr]: the text between [attr=] with its opening
    quote and the next quote. *)
Definition get_xml_attr (tag attr : string) : string :=
  let needle := (attr +:+ "=" +:+ dquote)%string in
  match find needle 0 tag with
  | None => EmptyString
  | Some start =>
      let start' := start + String.length needle in
      match find dquote start' tag with
      | None => EmptyString
      | Some e => substr start' (e - start') tag
      end
  end.

Definition is_empty (s : string) : bool := String.eqb s EmptyString.

(** First loop: the [id] of the [<attribute] whose [title] is the requested
    name, with what is written to the error stream. *)
Fixpoint find_attribute (fuel : nat) (content target_attr_name : string)
    (pos : nat) : string * list line :=
  match fuel with
  | O => (EmptyString, [])
  | S fuel' =>
      match find "<attribute" pos content with
      | None => (EmptyString, [])
      | Some attr_pos =>
          match find ">" attr_pos content with
          | None => (EmptyString, [])
          | Some end_pos =>
              let tag := substr attr_pos (end_pos - attr_pos + 1) content in
              let title := get_xml_attr tag "title" in
              if String.eqb title target_attr_name then
                let target_attr_id := get_xml_attr tag "id" in
                (target_attr_id, [FoundAttributeID title target_attr_id])
              else find_attribute fuel' content target_attr_name (end_pos + 1)
          end
      end
  end.

(** The loop over the [<attvalue] tags of one node block. *)
Fixpoint scan_attvalues (fuel : nat) (node_block node_id target_attr_id : string)
    (p : nat) (g : Graph) : Graph :=
  match fuel with
  | O => g
  | S fuel' =>
      match find "<attvalue" p node_block with
      | None => g
      | Some av =>
          match find ">" av node_block with
          | None => g
          | Some av_end =>
              let av_tag := substr av (av_end - av + 1) node_block in
              let for_id := get_xml_attr av_tag "for" in
              let g' :=
                if negb (is_empty target_attr_id) && String.eqb for_id target_attr_id
                then
                  let val_str := get_xml_attr av_tag "value" in
                  if negb (is_empty val_str) then
                    match stod val_str with
                    | Ok val => set_node_value node_id val g
                    | Throw _ => g
                    end
                  else g
                else g in
              scan_attvalues fuel' node_block node_id target_attr_id (av_end + 1) g'
          end
      end
  end.

(** Second loop: the [<node] blocks. *)
Fixpoint scan_nodes (fuel : nat) (content target_attr_id : string) (pos : nat)
    (g : Graph) : Graph :=
  match fuel with
  | O => g
  | S fuel' =>
      match find "<node" pos content with
      | None => g
      | Some node_pos =>
          match find ">" node_pos content with
          | None => g
          | Some node_tag_end =>
              let self_closing :=
                match String.get (node_tag_end - 1) content with
                | Some c => Ascii.eqb c "/"
                | None => false
                end in
              let block_end :=
                if self_closing then Some node_tag_end
                else match find "</node>" (node_tag_end + 1) content with
                     | None => None
                     | Some close_pos => Some (close_pos + 7)
                     end in
              match block_end with
              | None => g
              | Some node_block_end =>
                  let node_block :=
                    substr node_pos (node_block_end - node_pos) content in
                  let node_id :=
                    get_xml_attr
                      (substr 0 (node_tag_end - node_pos + 1) node_block) "id" in
                  let g' :=
                    if negb (is_empty node_id) then
                      let '(_, g1) := get_internal_id node_id g in
                      scan_attvalues (S (String.length node_block)) node_block
                        node_id target_attr_id 0 g1
                    else g in
                  scan_nodes fuel' content target_attr_id node_block_end g'
              end
          end
      end
  end.

(** Third loop: the [<edge] tags; the weight defaults to [0.1]. *)
Fixpoint scan_edges (fuel : nat) (content : string) (pos : nat) (g : Graph)
  : Graph :=
  match fuel with
  | O => g
  | S fuel' =>
      match find "<edge" pos content with
      | None => g
      | Some edge_pos =>
          match find ">" edge_pos content with
          | None => g
          | Some edge_end =>
              let tag := substr edge_pos (edge_end - edge_pos + 1) content in
              let s := get_xml_attr tag "source" in
              let t := get_xml_attr tag "target" in
              let w_str := get_xml_attr tag "weight" in
              let prob :=
                if negb (is_empty w_str) then
                  match stod w_str with
                  | Ok w => w
                  | Throw _ => (1 # 10)%Q
                  end
                else (1 # 10)%Q in
              let g' :=
                if negb (is_empty s) && negb (is_empty t)
                then add_edge s t prob g else g in
              scan_edges fuel' content (edge_end + 1) g'
          end
      end
  end.

(** The three scans over the text of the file.  Every turn of every loop
    moves its position forward, so one more turn than the text has
    characters is never needed. *)
Definition parse_content (content target_attr_name : string) : Graph * list line :=
  let fuel := S (String.length content) in
  let '(target_attr_id, found) := find_attribute fuel content target_attr_name 0 in
  let err :=
    if is_empty target_attr_id
    then found ++ [WarnAttributeNotFound target_attr_name] else found in
  let g1 := scan_nodes fuel content target_attr_id 0 empty_graph in
  (scan_edges fuel content 0 g1, err).

(** [GEXFParser::parse]: [fs] maps a path to the text of the file, when the
    file can be opened. *)
Definition parse (fs : string → option string) (filename target_attr_name : string)
  : result (Graph * list line) :=
  match fs filename with
  | None => Throw (runtime_error "Cannot open file")
  | Some content => Ok (parse_content content target_attr_name)
  end.

(** ** The program: [main] *)

Definition DEFAULT_MC_ROUNDS : Z := 1000.

(** What a run depends on besides its command line: the file system, the
    entropy source, and the OpenMP schedule chosen for a loop of [n] turns. *)
Record environment := mkEnv {
  files : string → option string;
  device : entropy;
  omp_schedule : nat → list (list nat)
}.

(** How the process ends: [return code] from [main], or an exception that
    leaves [main] and reaches [std::terminate]. *)
Inductive exit_status :=
| Exit (code : Z)
| Terminated (e : exn).

Record run := mkRun {
  status : exit_status;
  stdout : list line;
  stderr : list line
}.

Definition arg (argv : list string) (i : nat) : string :=
  default EmptyString (argv !! i).

Definition what (e : exn) : string :=
  match e with
  | invalid_argument => "stoi"
  | out_of_range => "stoi"
  | runtime_error w => w
  end.

Definition count_eligible (g : Graph) : nat :=
  length (filter (λ i, eligible g i) (seq 0 (num_nodes g))).

(** What [main] has written to [cout] when it calls the driver. *)
Definition banner (g : Graph) (mc_rounds : Z) : list line :=
  [ParsingGEXF; Nodes (num_nodes g); EligibleSeeds (count_eligible g);
   RunningCELF mc_rounds].

(** The [try] block of [main] once the graph is parsed. *)
Definition report (g : Graph) (k mc_rounds : Z) (parse_err : list line)
    (env : environment) : run :=
  let st :=
    celf_weighted_influence g k mc_rounds (omp_schedule env (num_nodes g))
      (device env) (banner g mc_rounds) parse_err in
  {| status := Exit 0;
     stdout := cout st ++
       [Separator; SelectedSeeds (map (external_id g) (seeds st)); Elapsed];
     stderr := cerr st |}.

Definition main (argv : list string) (env : environment) : run :=
  let argc := length argv in
  if (argc <? 4) || (5 <? argc) then
    {| status := Exit 1; stdout := []; stderr := [Usage (arg argv 0)] |}
  else
    let filename := arg argv 1 in
    match stoi (arg argv 2) with
    | Throw e => {| status := Terminated e; stdout := []; stderr := [] |}
    | Ok k =>
        let attr_name := arg argv 3 in
        match (if argc =? 5 then stoi (arg argv 4) else Ok DEFAULT_MC_ROUNDS) with
        | Throw e => {| status := Terminated e; stdout := []; stderr := [] |}
        | Ok mc_rounds =>
            match parse (files env) filename attr_name with
            | Throw e =>
                {| status := Exit 1; stdout := [ParsingGEXF];
                   stderr := [Error (what e)] |}
            | Ok (g, parse_err) => report g k mc_rounds parse_err env
            end
        end
    end.

(** ** Reachability and the value it bounds *)

(** Nodes reachable from a seed along edges, whatever their probability. *)
Inductive reachable (g : Graph) (seed_list : list nat) : nat → Prop :=
| reach_seed s : s ∈ seed_list → reachable g seed_list s
| reach_edge u e :
    reachable g seed_list u → e ∈ edges_of g u → reachable g seed_list (to e).

Definition successors (g : Graph) (nodes : list nat) : list nat :=
  flat_map (λ u, map to (edges_of g u)) nodes.

(** The successors of [nodes] that are not among them, each once. *)
Definition fresh_successors (g : Graph) (nodes : list nat) : list nat :=
  list_difference (remove_dups (successors g nodes)) nodes.

(** Grows [nodes] by its successors until nothing new appears. *)
Fixpoint closure (fuel : nat) (g : Graph) (nodes : list nat) : list nat :=
  match fuel with
  | O => nodes
  | S fuel' =>
      match fresh_successors g nodes with
      | [] => nodes
      | fresh => closure fuel' g (nodes ++ fresh)
      end
  end.

(** The nodes reachable from the seeds, each listed once
    ([reachable_nodes_spec]). *)
Definition reachable_nodes (g : Graph) (seed_list : list nat) : list nat :=
  closure (num_nodes g) g (remove_dups seed_list).

(** [total_value] after adding the values of [nodes] in order. *)
Definition add_values (g : Graph) (total : Q) (nodes : list nat) : Q :=
  fold_left (λ acc v, (acc + value_of g v)%Q) nodes total.

(** The sum of [value] over the nodes reachable from the seeds. *)
Definition reach_value (g : Graph) (seed_list : list nat) : Q :=
  add_values g 0%Q (reachable_nodes g seed_list).

(** ** The older variant at the repository root *)

(** The [weighted_max_influence.cc] at the root of the repository precedes
    the implementation above.  Its [Graph] has no [has_value] vector (nothing
    below reads it); the parts in which the two differ are embedded here. *)
Module Legacy.

Definition MC_ROUNDS : Z := 1000.

(** [NodeGain::operator<]: the gain alone. *)
Definition NodeGain_lt (a other : NodeGain) : bool :=
  Qlt_bool (marginal_gain a) (marginal_gain other).

(** The rollout keeps the activated nodes in a [std::set<int>]. *)
Record sim_state := mkSim {
  active_set : list nat;
  queue : list nat;
  total_value : Q;
  rng : mt19937
}.

Definition edge_step (g : Graph) (st : sim_state) (edge : Edge) : sim_state :=
  let v := to edge in
  if set_mem v (active_set st) then st
  else
    let '(r, rng') := dist (rng st) in
    if Qle_bool r (probability edge) then
      {| active_set := set_insert v (active_set st);
         queue := queue st ++ [v];
         total_value := (total_value st + value_of g v)%Q;
         rng := rng' |}
    else
      {| active_set := active_set st; queue := queue st;
         total_value := total_value st; rng := rng' |}.

Fixpoint bfs_loop (fuel : nat) (g : Graph) (st : sim_state) : sim_state :=
  match fuel with
  | O => st
  | S fuel' =>
      match queue st with
      | [] => st
      | u :: rest =>
          bfs_loop fuel' g
            (fold_left (edge_step g) (edges_of g u)
               {| active_set := active_set st; queue := rest;
                  total_value := total_value st; rng := rng st |})
      end
  end.

(** [run_weighted_simulation]: [seeds] is a [std::set<int>]. *)
Definition run_weighted_simulation (g : Graph) (seeds : list nat)
    (rng0 : mt19937) : Q * mt19937 :=
  let st :=
    bfs_loop (num_nodes g) g
      {| active_set := seeds; queue := seeds;
         total_value := add_values g 0%Q seeds; rng := rng0 |} in
  (total_value st, rng st).

(** One thread of the parallel region of [estimate_weighted_spread]: its
    own engine, seeded from the random device, and its share of the
    rounds. *)
Fixpoint local_rounds (rounds : nat) (g : Graph) (seeds : list nat)
    (local_sum : Q) (rng0 : mt19937) : Q :=
  match rounds with
  | O => local_sum
  | S rounds' =>
      let '(spread, rng1) := run_weighted_simulation g seeds rng0 in
      local_rounds rounds' g seeds (local_sum + spread)%Q rng1
  end.

(** [estimate_weighted_spread(g, seeds)]: [team] gives the number of
    rounds each thread runs; the engines come from the environment. *)
Definition estimate_weighted_spread (g : Graph) (seeds : list nat)
    (team : list nat) (e : entropy) : Q * entropy :=
  let '(total_spread, e') :=
    fold_left
      (λ (acc : Q * entropy) rounds,
         let '(rng0, e1) := seed_engine acc.2 in
         ((acc.1 + local_rounds rounds g seeds 0%Q rng0)%Q, e1))
      team (0%Q, e) in
  ((total_spread / inject_Z MC_ROUNDS)%Q, e').

(** The gate of the first pass: a node is skipped when its value is zero
    and it has no outgoing edge. *)
Definition skipped (g : Graph) (i : nat) : bool :=
  Qeq_bool (value_of g i) 0 && bool_decide (edges_of g i = []).

Definition phase1_step (g : Graph) (team : list nat)
    (acc : priority_queue * entropy) (i : nat) : priority_queue * entropy :=
  if skipped g i then acc
  else
    let '(spread, e') := estimate_weighted_spread g [i] team acc.2 in
    (pq_push (mkNodeGain i spread 0) acc.1, e').

(** The heap under this order; among entries of equal gain the one taken
    is left to the layout of the heap, here the first in the list. *)
Fixpoint pq_extract (x : NodeGain) (l : list NodeGain) : NodeGain * list NodeGain :=
  match l with
  | [] => (x, [])
  | y :: l' =>
      let '(m, rest) := pq_extract y l' in
      if NodeGain_lt x m then (m, x :: rest) else (x, l)
  end.

Definition pq_pop (pq : priority_queue) : option (NodeGain * priority_queue) :=
  match pq with
  | [] => None
  | x :: l => Some (pq_extract x l)
  end.

Fixpoint drain (fuel : nat) (local_pq shared : priority_queue) : priority_queue :=
  match fuel with
  | O => shared
  | S fuel' =>
      match pq_pop local_pq with
      | None => shared
      | Some (top, rest) => drain fuel' rest (pq_push top shared)
      end
  end.

(** One thread of the first pass; the estimator seeds its own engines, so
    the threads only share the random device. *)
Definition phase1_thread (g : Graph) (team : list nat)
    (acc : priority_queue * entropy) (chunk : list nat) : priority_queue * entropy :=
  let '(local_pq, e') := fold_left (phase1_step g team) chunk ([], acc.2) in
  (drain (length local_pq) local_pq acc.1, e').

(** The driver writes to [cout] only. *)
Record celf_state := mkCelf {
  seeds : list nat;
  pq : priority_queue;
  current_val : Q;
  src : entropy;
  cout : list line
  }.

Definition consider (g : Graph) (team : list nat) (top : NodeGain)
    (st : celf_state) : celf_state * bool :=
  if set_mem (node_id top) (seeds st) then (st, false)
  else if iteration_computed top =? length (seeds st) then
    let reach := (current_val st + marginal_gain top)%Q in
    ({| seeds := set_insert (node_id top) (seeds st);
        pq := pq st;
        current_val := reach;
        src := src st;
        cout := cout st ++
          [SelectedNode (external_id g (node_id top)) (value_of g (node_id top))
             (marginal_gain top) reach] |}, true)
  else
    let temp_seeds := set_insert (node_id top) (seeds st) in
    let '(new_val, e') := estimate_weighted_spread g temp_seeds team (src st) in
    ({| seeds := seeds st;
        pq := pq_push
                (mkNodeGain (node_id top) (new_val - current_val st)%Q
                   (length (seeds st))) (pq st);
        current_val := current_val st;
        src := e';
        cout := cout st |}, false).

Fixpoint select_loop (fuel : nat) (g : Graph) (team : list nat) (st : celf_state)
  : celf_state * bool :=
  match fuel with
  | O => (st, false)
  | S fuel' =>
      match pq_pop (pq st) with
      | None => (st, false)
      | Some (top, rest) =>
          let '(st', found_best) :=
            consider g team top
              {| seeds := seeds st; pq := rest; current_val := current_val st;
                 src := src st; cout := cout st |} in
          if found_best then (st', true)
          else select_loop fuel' g team st'
      end
  end.

(** The outer loop has no [break]: once the heap is empty the remaining
    iterations do nothing, and nothing is reported. *)
Fixpoint greedy_loop (iterations : nat) (g : Graph) (team : list nat)
    (st : celf_state) : celf_state :=
  match iterations with
  | O => st
  | S iterations' =>
      greedy_loop iterations' g team
        (select_loop (S (2 * length (pq st))) g team st).1
  end.

(** [celf_weighted_influence(g, k)]. *)
Definition celf_weighted_influence (g : Graph) (k : Z)
    (schedule : list (list nat)) (team : list nat) (e : entropy) (out : list line)
  : celf_state :=
  let '(heap, e1) := fold_left (phase1_thread g team) schedule ([], e) in
  greedy_loop (Z.to_nat k) g team
    {| seeds := []; pq := heap; current_val := 0%Q; src := e1;
       cout := out ++ [InitializingCELF (num_nodes g)] |}.

(** The exit status of [main]: the arity test, the conversion of [k]
    ahead of the [try] block, and a [catch] that reports the error and
    falls through to [return 0]. *)
Definition main_status (argv : list string) (env : environment) : exit_status :=
  if negb (length argv =? 4) then Exit 1
  else
    match stoi (arg argv 2) with
    | Throw e => Terminated e
    | Ok _ => Exit 0
    end.

End Legacy.

(** ** Auxiliary notions used in the statements and proofs *)

(** Entries of the heap whose stamp differs from the current seed count. *)
Definition stale (n : nat) (pq : priority_queue) : nat :=
  length (filter (λ x, iteration_computed x ≠ n) pq).

(** Every seed and every heap entry is a node whose [has_value] flag is set. *)
Definition only_eligible (g : Graph) (st : celf_state) : Prop :=
  (∀ s, s ∈ seeds st → eligible g s = true) ∧
  (∀ x, x ∈ pq st → eligible g (node_id x) = true).

(** The external ids in the [Selected Node] records of an output, in the
    order in which they were written: the order of selection. *)
Definition selection_order (out : list line) : list string :=
  omap (λ l, match l with SelectedNode ext _ _ _ => Some ext | _ => None end) out.

(** The ids listed on the [Selected Seeds:] line of an output. *)
Definition printed_seeds (out : list line) : list (list string) :=
  omap (λ l, match l with SelectedSeeds ids => Some ids | _ => None end) out.

(** The facts about a pop that the loops preserve: [cerr] is untouched, the
    seeds stay strictly increasing, the [Selected Node] records list the
    seeds, and a commit adds exactly one seed. *)
Record step_facts (g : Graph) (st st' : celf_state) (found : bool) : Prop := {
  sf_cerr : cerr st' = cerr st;
  sf_len : length (seeds st') = (if found then S (length (seeds st)) else length (seeds st));
  sf_sorted : StronglySorted lt (seeds st) → StronglySorted lt (seeds st');
  sf_log :
    selection_order (cout st) ≡ₚ map (external_id g) (seeds st) →
    selection_order (cout st') ≡ₚ map (external_id g) (seeds st')
}.


(** ** Sample inputs *)

Definition quoted (s : string) : string := (dquote +:+ s +:+ dquote)%string.

(** A [<node>] element carrying one [attvalue] for attribute [0]. *)
Definition node_xml (id value : string) : string :=
  ("<node id=" +:+ quoted id +:+ "><attvalues><attvalue for=" +:+ quoted "0"
   +:+ " value=" +:+ quoted value +:+ "/></attvalues></node>")%string.

Definition edge_xml (source target weight : string) : string :=
  ("<edge source=" +:+ quoted source +:+ " target=" +:+ quoted target
   +:+ " weight=" +:+ quoted weight +:+ "/>")%string.

Definition attributes_xml : string :=
  ("<attributes class=" +:+ quoted "node" +:+ "><attribute id=" +:+ quoted "0"
   +:+ " title=" +:+ quoted "value" +:+ "/></attributes>")%string.

(** Two isolated nodes: [a] with value 1, then [b] with value 5. *)
Definition two_nodes_doc : string :=
  ("<gexf>" +:+ attributes_xml +:+ node_xml "a" "1" +:+ node_xml "b" "5"
   +:+ "</gexf>")%string.

(** One edge whose weight is 5. *)
Definition heavy_edge_doc : string :=
  ("<gexf>" +:+ attributes_xml +:+ node_xml "a" "1" +:+ node_xml "b" "1"
   +:+ edge_xml "a" "b" "5" +:+ "</gexf>")%string.

(** An engine whose every draw is [x], and the source that hands it out. *)
Definition constant_engine (x : Q) : mt19937 := λ _, x.
Definition constant_entropy (x : Q) : entropy := λ _, constant_engine x.

(** One thread running the whole loop. *)
Definition single_thread (n : nat) : list (list nat) := [seq 0 n].

Definition sample_env (doc : string) : environment :=
  {| files := λ path, if String.eqb path "graph.gexf" then Some doc else None;
     device := constant_entropy (1 # 2);
     omp_schedule := single_thread |}.

(** Every edge of the graph. *)
Definition all_edges (g : Graph) : list Edge := concat (adj g).

(** Node [A] with value [a], node [B] with value [b], one edge from [A] to
    [B] of probability [p]. *)
Definition two_node_graph (a b p : Q) : Graph :=
  add_edge "A" "B" p (set_node_value "B" b (set_node_value "A" a empty_graph)).

(** The invariant of a rollout.  [finished] are the nodes already taken from
    the queue; all nodes activated so far, in the order of activation, are
    [finished ++ queue st]: they are distinct, valid, stamped with the token
    and reachable from the seeds, and [total_value] is the sum of their
    values. *)
Record rollout_inv (g : Graph) (seed_list : list nat) (token : Z)
    (finished : list nat) (st : sim_state) : Prop := {
  ri_nodup : NoDup (finished ++ queue st);
  ri_nodes : ∀ v, v ∈ finished ++ queue st →
    v < num_nodes g ∧ seen_at (last_seen st) v = token ∧ reachable g seed_list v;
  ri_total : total_value st = add_values g 0%Q (finished ++ queue st);
  ri_len : length (last_seen st) = num_nodes g
}.

(** Heap entries for nodes 0 and 1 with the same gain, and with distinct
    gains. *)
Definition tie0 : NodeGain := mkNodeGain 0 2 0.
Definition tie1 : NodeGain := mkNodeGain 1 2 0.

(** The driver state after the first pass over the two isolated nodes. *)
Definition two_nodes_graph : Graph := (parse_content two_nodes_doc "value").1.
Definition two_nodes_start : celf_state :=
  celf_init two_nodes_graph 1 (single_thread 2) (constant_entropy (1 # 2)) [] [].

(** A node that appears only as the source of an edge. *)
Definition source_only_graph : Graph := add_edge "A" "B" 1 empty_graph.

(** No node has two entries on the heap, and no seed has one. *)
Definition distinct_ids (st : celf_state) : Prop :=
  NoDup (map node_id (pq st) ++ seeds st).

(** The calls the parser makes on the graph under construction. *)
Inductive build_op :=
| Intern (gexf_id : string)
| SetValue (gexf_id : string) (val : Q)
| AddEdge (src target : string) (prob : Q).

Definition apply_op (g : Graph) (o : build_op) : Graph :=
  match o with
  | Intern s => (get_internal_id s g).2
  | SetValue s x => set_node_value s x g
  | AddEdge s t p => add_edge s t p g
  end.

Definition build (ops : list build_op) : Graph := fold_left apply_op ops empty_graph.

(** One valued node [A] (value 7) and two bare nodes, no edges. *)
Definition isolated_node_doc : string :=
  ("<gexf>" +:+ attributes_xml +:+ node_xml "A" "7"
   +:+ "<node id=" +:+ quoted "B" +:+ "/>"
   +:+ "<node id=" +:+ quoted "C" +:+ "/>" +:+ "</gexf>")%string.

(** ** Further notions for the properties of the remaining code *)

(** The two id tables mirror each other. *)
Definition ids_consistent (g : Graph) : Prop :=
  ∀ s i, id_map g !! s = Some i ↔ reverse_id_map g !! i = Some s.

(** The marginal gains and the totals of the [Selected Node] records of an
    output, in the order written. *)
Definition logged_gains (out : list line) : list Q :=
  omap (λ l, match l with SelectedNode _ _ gain _ => Some gain | _ => None end) out.
Definition logged_reach (out : list line) : list Q :=
  omap (λ l, match l with SelectedNode _ _ _ reach => Some reach | _ => None end) out.

(** The partial sums of [l], started from [acc], each formed as
    [current_val += gain] forms it. *)
Fixpoint running_sums (acc : Q) (l : list Q) : list Q :=
  match l with
  | [] => []
  | x :: l' => (acc + x)%Q :: running_sums (acc + x)%Q l'
  end.

(** What the driver has logged since it started from the output [out0]:
    the gains [gs] of its records, one per seed, whose partial sums are the
    totals of the records and whose sum is [current_val]. *)
Definition accounted (out0 : list line) (gs : list Q) (st : celf_state) : Prop :=
  logged_gains (cout st) = logged_gains out0 ++ gs ∧
  logged_reach (cout st) = logged_reach out0 ++ running_sums 0 gs ∧
  current_val st = fold_left Qplus gs 0%Q ∧
  length gs = length (seeds st).

(** No stamp on the heap is ahead of the seed count. *)
Definition stamps_bounded (st : celf_state) : Prop :=
  Forall (λ x, iteration_computed x ≤ length (seeds st)) (pq st).

(** The states the second phase can pass through when the heap may hand out
    any one of its entries at each pop: nothing is assumed of the order in
    which [std::priority_queue] yields them, nor of the gains it compares. *)
Inductive any_pop_order (g : Graph) (mc_rounds : Z) (st0 : celf_state)
  : celf_state → Prop :=
| apo_start : any_pop_order g mc_rounds st0 st0
| apo_pop st top rest :
    any_pop_order g mc_rounds st0 st →
    pq st ≡ₚ top :: rest →
    any_pop_order g mc_rounds st0 (consider g mc_rounds top (with_pq rest st)).1.

(** Two epoch vectors that mark the same nodes, each with its own token. *)
Definition same_marks (ls1 : list Z) (t1 : Z) (ls2 : list Z) (t2 : Z) : Prop :=
  length ls1 = length ls2 ∧ ∀ v, seen_at ls1 v = t1 ↔ seen_at ls2 v = t2.

(** [rounds] rollouts, each on a vector of its own in which nothing is
    marked: what the estimator would do if it allocated a fresh activation
    record per round. *)
Fixpoint fresh_rounds (rounds : nat) (g : Graph) (seed_list : list nat)
    (total_spread : Q) (rng0 : mt19937) : Q * mt19937 :=
  match rounds with
  | O => (total_spread, rng0)
  | S rounds' =>
      let '(spread, rng1, _) :=
        run_weighted_simulation_token g seed_list rng0
          (replicate (num_nodes g) 0%Z) 1 in
      fresh_rounds rounds' g seed_list (total_spread + spread)%Q rng1
  end.

(** Two rollout states that agree on everything but the way their epoch
    vectors encode the marked nodes. *)
Definition sim_same (t1 t2 : Z) (st1 st2 : sim_state) : Prop :=
  same_marks (last_seen st1) t1 (last_seen st2) t2 ∧
  queue st1 = queue st2 ∧ total_value st1 = total_value st2 ∧
  rng st1 = rng st2.

(** What a rollout started on [ls0] with token [t] does to the epoch vector:
    it keeps its length, and every entry is either as it was or the token. *)
Definition marks_inv (ls0 : list Z) (t : Z) (st : sim_state) : Prop :=
  length (last_seen st) = length ls0 ∧
  ∀ v, seen_at (last_seen st) v = seen_at ls0 v ∨ seen_at (last_seen st) v = t.

(** A state of the rollout over an epoch vector and a state of the older
    rollout over a [std::set] that stand for the same point of the run: the
    nodes marked with the token are the elements of the set. *)
Definition sim_refines (g : Graph) (t : Z) (st : sim_state)
    (lst : Legacy.sim_state) : Prop :=
  length (last_seen st) = num_nodes g ∧
  (∀ v, seen_at (last_seen st) v = t ↔ v ∈ Legacy.active_set lst) ∧
  queue st = Legacy.queue lst ∧ total_value st = Legacy.total_value lst ∧
  rng st = Legacy.rng lst.

(** The [Selected Node] records among the lines of an output. *)
Definition is_selected_record (l : line) : Prop :=
  match l with SelectedNode _ _ _ _ => True | _ => False end.

(** Since [out0] was written, the driver has written one [Selected Node]
    record per seed and nothing else. *)
Definition records_only (out0 : list line) (st : celf_state) : Prop :=
  ∃ records, cout st = out0 ++ records ∧
    Forall is_selected_record records ∧ length records = length (seeds st).

(** ** The code with [double] as binary64 *)

(** The embedding above computes with exact rationals.  Where rounding, an
    infinity or NaN decides what the program does, the same code is embedded
    here with [double] as the binary64 numbers of the kernel ([PrimFloat]):
    the graph and its three methods, the parser, the rollout, the estimator
    and the order of the heap.  [+], [/], [<=], [<] and [==] are the IEEE
    operations, [double(i)] is the conversion of an [int].  Everything else
    follows the conventions above ([nat] ids, lists for vectors, the engine
    as the sequence of its draws).

    [std::stod] belongs to the C++ library, not to this program: what it
    returns for a text, or the exception it throws, is a parameter [stod] of
    the parser. *)
Module Binary64.

Abbreviation double := float.

(** [double(i)] for an [int i]. *)
Definition double_of_int (i : Z) : double :=
  if (i <? 0)%Z then (- of_uint63 (Uint63.of_Z (- i)))%float
  else of_uint63 (Uint63.of_Z i).

(** The literal [0.1]. *)
Definition tenth : double := 0x1.999999999999ap-4%float.

(** *** Graph *)

Record Edge := mkEdge { to : nat; probability : double }.

Record Graph := mkGraph {
  id_map : gmap string nat;
  reverse_id_map : list string;
  adj : list (list Edge);
  node_values : list double;
  has_value : list bool
}.

Definition empty_graph : Graph :=
  {| id_map := ∅; reverse_id_map := []; adj := [];
     node_values := []; has_value := [] |}.

Definition num_nodes (g : Graph) : nat := length (reverse_id_map g).

(** [Graph::get_internal_id]. *)
Definition get_internal_id (gexf_id : string) (g : Graph) : nat * Graph :=
  match id_map g !! gexf_id with
  | None =>
      let new_id := length (reverse_id_map g) in
      (new_id,
       {| id_map := <[gexf_id := new_id]> (id_map g);
          reverse_id_map := reverse_id_map g ++ [gexf_id];
          adj := resize (new_id + 1) [] (adj g);
          node_values := resize (new_id + 1) 0%float (node_values g);
          has_value := resize (new_id + 1) false (has_value g) |})
  | Some i => (i, g)
  end.

(** [Graph::add_edge]. *)
Definition add_edge (src target : string) (prob : double) (g : Graph) : Graph :=
  let '(u, g1) := get_internal_id src g in
  let '(v, g2) := get_internal_id target g1 in
  {| id_map := id_map g2;
     reverse_id_map := reverse_id_map g2;
     adj := alter (λ es, es ++ [mkEdge v prob]) u (adj g2);
     node_values := node_values g2;
     has_value := has_value g2 |}.

(** [Graph::set_node_value]. *)
Definition set_node_value (gexf_id : string) (val : double) (g : Graph) : Graph :=
  let '(u, g1) := get_internal_id gexf_id g in
  {| id_map := id_map g1;
     reverse_id_map := reverse_id_map g1;
     adj := adj g1;
     node_values := <[u := val]> (node_values g1);
     has_value := <[u := true]> (has_value g1) |}.

Definition value_of (g : Graph) (v : nat) : double :=
  default 0%float (node_values g !! v).
Definition edges_of (g : Graph) (u : nat) : list Edge := default [] (adj g !! u).
Definition eligible (g : Graph) (i : nat) : bool := default false (has_value g !! i).
Definition external_id (g : Graph) (i : nat) : string :=
  default EmptyString (reverse_id_map g !! i).

(** The shape of every graph built through the three methods. *)
Record wf_graph (g : Graph) : Prop := {
  wf_adj_len : length (adj g) = num_nodes g;
  wf_val_len : length (node_values g) = num_nodes g;
  wf_has_len : length (has_value g) = num_nodes g;
  wf_edges : ∀ u es e, adj g !! u = Some es → e ∈ es → to e < num_nodes g;
  wf_ids : ∀ s i, id_map g !! s = Some i → i < num_nodes g
}.

(** The two id tables mirror each other. *)
Definition ids_consistent (g : Graph) : Prop :=
  ∀ s i, id_map g !! s = Some i ↔ reverse_id_map g !! i = Some s.

(** Every edge of the graph, and every edge with the external ids of its
    endpoints, source first. *)
Definition all_edges (g : Graph) : list Edge := concat (adj g).

Definition named_edges_of (g : Graph) (u : nat) : list (string * string * double) :=
  map (λ e, (external_id g u, external_id g (to e), probability e)) (edges_of g u).

Definition named_edges (g : Graph) : list (string * string * double) :=
  flat_map (named_edges_of g) (seq 0 (num_nodes g)).

(** *** Engine *)

(** A [std::mt19937] seen through [uniform_real_distribution<double>(0.0, 1.0)]:
    the draws still to come. *)
Definition mt19937 : Type := nat → double.

Definition dist (rng : mt19937) : double * mt19937 := (rng 0, λ n, rng (S n)).

(** *** Rollout: [run_weighted_simulation_token] *)

Record sim_state := mkSim {
  last_seen : list Z;
  queue : list nat;
  total_value : double;
  rng : mt19937
}.

(** Body of [for (int s : seed_list)]. *)
Definition seed_step (g : Graph) (seen_token : Z) (st : sim_state) (s : nat)
  : sim_state :=
  if (seen_at (last_seen st) s =? seen_token)%Z then st
  else {| last_seen := <[s := seen_token]> (last_seen st);
          queue := queue st ++ [s];
          total_value := (total_value st + value_of g s)%float;
          rng := rng st |}.

(** Body of [for (const auto &edge : g.adj[u])]: [r <= edge.probability] is
    the IEEE comparison, false when either side is NaN. *)
Definition edge_step (g : Graph) (seen_token : Z) (st : sim_state) (edge : Edge)
  : sim_state :=
  let v := to edge in
  if (seen_at (last_seen st) v =? seen_token)%Z then st
  else
    let '(r, rng') := dist (rng st) in
    if (r <=? probability edge)%float then
      {| last_seen := <[v := seen_token]> (last_seen st);
         queue := queue st ++ [v];
         total_value := (total_value st + value_of g v)%float;
         rng := rng' |}
    else
      {| last_seen := last_seen st; queue := queue st;
         total_value := total_value st; rng := rng' |}.

(** One turn of the [while] loop, for the node [u] taken from the front. *)
Definition bfs_turn (g : Graph) (seen_token : Z) (u : nat) (rest : list nat)
    (st : sim_state) : sim_state :=
  fold_left (edge_step g seen_token) (edges_of g u)
    {| last_seen := last_seen st; queue := rest;
       total_value := total_value st; rng := rng st |}.

(** The [while] loop, bounded by [fuel] turns; [num_nodes g] turns empty the
    queue ([d_bfs_loop_drains]). *)
Fixpoint bfs_loop (fuel : nat) (g : Graph) (seen_token : Z) (st : sim_state)
  : sim_state :=
  match fuel with
  | O => st
  | S fuel' =>
      match queue st with
      | [] => st
      | u :: rest => bfs_loop fuel' g seen_token (bfs_turn g seen_token u rest st)
      end
  end.

Definition seeded (g : Graph) (seed_list : list nat) (rng0 : mt19937)
    (last_seen0 : list Z) (seen_token : Z) : sim_state :=
  fold_left (seed_step g seen_token) seed_list
    {| last_seen := last_seen0; queue := []; total_value := 0%float; rng := rng0 |}.

Definition rollout (g : Graph) (seed_list : list nat) (rng0 : mt19937)
    (last_seen0 : list Z) (seen_token : Z) : sim_state :=
  bfs_loop (num_nodes g) g seen_token
    (seeded g seed_list rng0 last_seen0 seen_token).

Definition run_weighted_simulation_token (g : Graph) (seed_list : list nat)
    (rng0 : mt19937) (last_seen0 : list Z) (seen_token : Z)
  : double * mt19937 * list Z :=
  let st := rollout g seed_list rng0 last_seen0 seen_token in
  (total_value st, rng st, last_seen st).

(** *** Estimator: [estimate_weighted_spread] *)

Fixpoint mc_loop (rounds : nat) (g : Graph) (seed_list : list nat)
    (token : Z) (ls : list Z) (total_spread : double) (rng0 : mt19937)
  : double * mt19937 :=
  match rounds with
  | O => (total_spread, rng0)
  | S rounds' =>
      let t := next_token token in
      let '(token', ls') :=
        if (t =? 0)%Z then (1%Z, replicate (length ls) 0%Z) else (t, ls) in
      let '(spread, rng1, ls1) :=
        run_weighted_simulation_token g seed_list rng0 ls' token' in
      mc_loop rounds' g seed_list token' ls1 (total_spread + spread)%float rng1
  end.

(** [total_spread / double(mc_rounds)]: NaN for [mc_rounds = 0]. *)
Definition estimate_weighted_spread (g : Graph) (seed_list : list nat)
    (mc_rounds : Z) (rng0 : mt19937) : double * mt19937 :=
  let n := num_nodes g in
  let '(total_spread, rng1) :=
    mc_loop (Z.to_nat mc_rounds) g seed_list 1%Z (replicate n 0%Z) 0%float rng0 in
  ((total_spread / double_of_int mc_rounds)%float, rng1).

(** *** Heap entries: [NodeGain::operator<] *)

Record NodeGain := mkNodeGain {
  node_id : nat;
  marginal_gain : double;
  iteration_computed : nat
}.

(** [==] and [<] on [double]: both false when a gain is NaN. *)
Definition NodeGain_lt (a other : NodeGain) : bool :=
  if (marginal_gain a =? marginal_gain other)%float
  then node_id other <? node_id a
  else (marginal_gain a <? marginal_gain other)%float.

(** *** Reachability and sums of values *)

Inductive reachable (g : Graph) (seed_list : list nat) : nat → Prop :=
| reach_seed s : s ∈ seed_list → reachable g seed_list s
| reach_edge u e :
    reachable g seed_list u → e ∈ edges_of g u → reachable g seed_list (to e).

Definition successors (g : Graph) (nodes : list nat) : list nat :=
  flat_map (λ u, map to (edges_of g u)) nodes.

Definition fresh_successors (g : Graph) (nodes : list nat) : list nat :=
  list_difference (remove_dups (successors g nodes)) nodes.

Fixpoint closure (fuel : nat) (g : Graph) (nodes : list nat) : list nat :=
  match fuel with
  | O => nodes
  | S fuel' =>
      match fresh_successors g nodes with
      | [] => nodes
      | fresh => closure fuel' g (nodes ++ fresh)
      end
  end.

(** The nodes reachable from the seeds, each listed once. *)
Definition reachable_nodes (g : Graph) (seed_list : list nat) : list nat :=
  closure (num_nodes g) g (remove_dups seed_list).

(** [total_value] after [total_value += g.node_values[v]] for the [nodes]
    in order: a sum rounded at every step. *)
Definition add_values (g : Graph) (total : double) (nodes : list nat) : double :=
  fold_left (λ acc v, (acc + value_of g v)%float) nodes total.

(** [total_spread] after [total_spread += t] for the [totals] in order. *)
Definition add_totals (total_spread : double) (totals : list double) : double :=
  fold_left (λ acc t, (acc + t)%float) totals total_spread.

(** What a rollout can return: the rounded sum, in the order of activation,
    of the values of distinct nodes reachable from the seeds. *)
Definition rollout_total (g : Graph) (seed_list : list nat) (t : double) : Prop :=
  ∃ activated, NoDup activated ∧
    (∀ v, v ∈ activated → v < num_nodes g ∧ reachable g seed_list v) ∧
    t = add_values g 0%float activated.

(** The invariant of a rollout: [finished] are the nodes already taken from
    the queue, [finished ++ queue st] the nodes activated so far, in the
    order of activation. *)
Record rollout_inv (g : Graph) (seed_list : list nat) (token : Z)
    (finished : list nat) (st : sim_state) : Prop := {
  ri_nodup : NoDup (finished ++ queue st);
  ri_nodes : ∀ v, v ∈ finished ++ queue st →
    v < num_nodes g ∧ seen_at (last_seen st) v = token ∧ reachable g seed_list v;
  ri_total : total_value st = add_values g 0%float (finished ++ queue st);
  ri_len : length (last_seen st) = num_nodes g
}.

(** What a rollout started on [ls0] with token [t] does to the epoch vector:
    it keeps its length, and every entry is either as it was or the token. *)
Definition marks_inv (ls0 : list Z) (t : Z) (st : sim_state) : Prop :=
  length (last_seen st) = length ls0 ∧
  ∀ v, seen_at (last_seen st) v = seen_at ls0 v ∨ seen_at (last_seen st) v = t.

(** Engines under which the fate of every edge is known in advance: the
    test [r <= edge.probability] succeeds, or fails, for every draw still to
    come and every edge of the graph. *)
Definition all_fire (g : Graph) (r : mt19937) : Prop :=
  ∀ e n, e ∈ all_edges g → (r n <=? probability e)%float = true.

(** The rollout invariant when the epoch vector had no node marked at the
    start: the marked nodes are exactly the activated ones. *)
Definition tracked (g : Graph) (seed_list : list nat) (t : Z)
    (finished : list nat) (st : sim_state) : Prop :=
  rollout_inv g seed_list t finished st ∧
  ∀ v, seen_at (last_seen st) v = t → v ∈ finished ++ queue st.

(** Every edge out of a finished node leads to an activated node. *)
Definition closed (g : Graph) (finished : list nat) (st : sim_state) : Prop :=
  ∀ u e, u ∈ finished → e ∈ edges_of g u → to e ∈ finished ++ queue st.

(** Two rollout states in which the same nodes are marked, each vector with
    its own token, and which agree on the queue and the total. *)
Definition sim_same (t1 t2 : Z) (st1 st2 : sim_state) : Prop :=
  same_marks (last_seen st1) t1 (last_seen st2) t2 ∧
  queue st1 = queue st2 ∧ total_value st1 = total_value st2.


(** *** The parser: [GEXFParser::parse] *)

Section parser.
Variable stod : string → result double.

(** The loop over the [<attvalue] tags of one node block. *)
Fixpoint scan_attvalues (fuel : nat) (node_block node_id target_attr_id : string)
    (p : nat) (g : Graph) : Graph :=
  match fuel with
  | O => g
  | S fuel' =>
      match find "<attvalue" p node_block with
      | None => g
      | Some av =>
          match find ">" av node_block with
          | None => g
          | Some av_end =>
              let av_tag := substr av (av_end - av + 1) node_block in
              let for_id := get_xml_attr av_tag "for" in
              let g' :=
                if negb (is_empty target_attr_id) && String.eqb for_id target_attr_id
                then
                  let val_str := get_xml_attr av_tag "value" in
                  if negb (is_empty val_str) then
                    match stod val_str with
                    | Ok val => set_node_value node_id val g
                    | Throw _ => g
                    end
                  else g
                else g in
              scan_attvalues fuel' node_block node_id target_attr_id (av_end + 1) g'
          end
      end
  end.

(** The loop over the [<node] blocks. *)
Fixpoint scan_nodes (fuel : nat) (content target_attr_id : string) (pos : nat)
    (g : Graph) : Graph :=
  match fuel with
  | O => g
  | S fuel' =>
      match find "<node" pos content with
      | None => g
      | Some node_pos =>
          match find ">" node_pos content with
          | None => g
          | Some node_tag_end =>
              let self_closing :=
                match String.get (node_tag_end - 1) content with
                | Some c => Ascii.eqb c "/"
                | None => false
                end in
              let block_end :=
                if self_closing then Some node_tag_end
                else match find "</node>" (node_tag_end + 1) content with
                     | None => None
                     | Some close_pos => Some (close_pos + 7)
                     end in
              match block_end with
              | None => g
              | Some node_block_end =>
                  let node_block :=
                    substr node_pos (node_block_end - node_pos) content in
                  let node_id :=
                    get_xml_attr
                      (substr 0 (node_tag_end - node_pos + 1) node_block) "id" in
                  let g' :=
                    if negb (is_empty node_id) then
                      let '(_, g1) := get_internal_id node_id g in
                      scan_attvalues (S (String.length node_block)) node_block
                        node_id target_attr_id 0 g1
                    else g in
                  scan_nodes fuel' content target_attr_id node_block_end g'
              end
          end
      end
  end.

(** The body of the loop over the [<edge] tags, for one tag. *)
Definition edge_turn (g : Graph) (tag : string) : Graph :=
  let s := get_xml_attr tag "source" in
  let t := get_xml_attr tag "target" in
  let w_str := get_xml_attr tag "weight" in
  let prob :=
    if negb (is_empty w_str) then
      match stod w_str with
      | Ok w => w
      | Throw _ => tenth
      end
    else tenth in
  if negb (is_empty s) && negb (is_empty t) then add_edge s t prob g else g.

(** The loop over the [<edge] tags. *)
Fixpoint scan_edges (fuel : nat) (content : string) (pos : nat) (g : Graph)
  : Graph :=
  match fuel with
  | O => g
  | S fuel' =>
      match find "<edge" pos content with
      | None => g
      | Some edge_pos =>
          match find ">" edge_pos content with
          | None => g
          | Some edge_end =>
              let tag := substr edge_pos (edge_end - edge_pos + 1) content in
              scan_edges fuel' content (edge_end + 1) (edge_turn g tag)
          end
      end
  end.

Definition parse_content (content target_attr_name : string) : Graph * list line :=
  let fuel := S (String.length content) in
  let '(target_attr_id, found) := find_attribute fuel content target_attr_name 0 in
  let err :=
    if is_empty target_attr_id
    then found ++ [WarnAttributeNotFound target_attr_name] else found in
  let g1 := scan_nodes fuel content target_attr_id 0 empty_graph in
  (scan_edges fuel content 0 g1, err).
End parser.

(** The [<edge] tags of the text from [pos] on, in the order of the text, as
    the loop cuts them out. *)
Fixpoint edge_tags (fuel : nat) (content : string) (pos : nat) : list string :=
  match fuel with
  | O => []
  | S fuel' =>
      match find "<edge" pos content with
      | None => []
      | Some edge_pos =>
          match find ">" edge_pos content with
          | None => []
          | Some edge_end =>
              substr edge_pos (edge_end - edge_pos + 1) content ::
              edge_tags fuel' content (edge_end + 1)
          end
      end
  end.

(** A tag that names both endpoints. *)
Definition complete (tag : string) : bool :=
  negb (is_empty (get_xml_attr tag "source")) &&
  negb (is_empty (get_xml_attr tag "target")).

(** The number the [weight] of a tag stands for: what [std::stod] returns
    for its text, and [0.1] when the tag has no weight, an empty one, or one
    on which [std::stod] throws. *)
Definition weight_of (stod : string → result double) (tag : string) : double :=
  match get_xml_attr tag "weight" with
  | EmptyString => tenth
  | w_str => match stod w_str with Ok w => w | Throw _ => tenth end
  end.

(** The edge a tag stands for, by the external ids of its endpoints. *)
Definition edge_of_tag (stod : string → result double) (tag : string)
  : string * string * double :=
  (get_xml_attr tag "source", get_xml_attr tag "target", weight_of stod tag).

(** *** Sample inputs *)

(** One node [a] of value [0.1], no edge. *)
Definition one_node_graph : Graph := set_node_value "a" tenth empty_graph.

(** Node [A] with value [a], node [B] with value [b], one edge from [A] to
    [B] of probability [p]. *)
Definition two_node_graph (a b p : double) : Graph :=
  add_edge "A" "B" p (set_node_value "B" b (set_node_value "A" a empty_graph)).

Definition constant_engine (x : double) : mt19937 := λ _, x.

(** A conversion that reads the text [5] and throws on everything else. *)
Definition reads_five (w : string) : result double :=
  if String.eqb w "5" then Ok 5%float else Throw invalid_argument.

End Binary64.

(** ** Binary64 values that are not below zero *)

(** The values [x] with [0.0 <= x]: the zeros, the positive finite numbers
    and the positive infinity; never NaN. *)
Definition SFnonneg (x : spec_float) : bool :=
  match x with
  | S754_zero _ | S754_infinity false | S754_finite false _ _ => true
  | _ => false
  end.

(** ** Proof steps for the comparison of two binary64 values *)

(** Case analysis on every comparison of exponents and mantissas. *)
Ltac compare_cases :=
  repeat match goal with
  | H : context [Pos.compare_cont Eq ?m ?n] |- _ =>
      change (Pos.compare_cont Eq m n) with (Pos.compare m n) in H;
      destruct (Pos.compare_spec m n); cbn in H
  | H : context [Z.compare ?m ?n] |- _ =>
      destruct (Z.compare_spec m n); cbn in H
  | |- context [Pos.compare_cont Eq ?m ?n] =>
      change (Pos.compare_cont Eq m n) with (Pos.compare m n);
      destruct (Pos.compare_spec m n); cbn
  | |- context [Z.compare ?m ?n] =>
      destruct (Z.compare_spec m n); cbn
  end;
  try reflexivity; try congruence; try lia.

(** The shapes of a binary64 value: zeros, infinities, NaN, finite. *)
Ltac float_cases x :=
  destruct x as [[]|[]| |[] ? ?].


(** * Properties *)

(** ** Graphs built through the interface are well formed *)

Lemma resize_grow {A} (x : A) (l : list A) n :
  length l = n → resize (n + 1) x l = l ++ [x].
Proof.
  intros <-. rewrite resize_ge by lia.
  replace (length l + 1 - length l) with 1 by lia. done.
Qed.

Lemma wf_empty_graph : wf_graph empty_graph.
Proof. split; cbn; try done; intros *; by rewrite ?lookup_nil, ?lookup_empty. Qed.

Lemma get_internal_id_fresh g s :
  id_map g !! s = None → wf_graph g →
  get_internal_id s g =
    (num_nodes g,
     {| id_map := <[s := num_nodes g]> (id_map g);
        reverse_id_map := reverse_id_map g ++ [s];
        adj := adj g ++ [[]];
        node_values := node_values g ++ [0%Q];
        has_value := has_value g ++ [false] |}).
Proof.
  intros Hs [Ha Hv Hh _ _]. unfold get_internal_id. rewrite Hs.
  unfold num_nodes in *. by rewrite !resize_grow.
Qed.

Lemma get_internal_id_wf g s :
  wf_graph g →
  wf_graph (get_internal_id s g).2 ∧ (get_internal_id s g).1 < num_nodes (get_internal_id s g).2.
Proof.
  intros Hwf. destruct (id_map g !! s) as [i|] eqn:Hs.
  - unfold get_internal_id. rewrite Hs. cbn. split; [done|]. by eapply wf_ids.
  - rewrite get_internal_id_fresh by done. cbn. destruct Hwf as [Ha Hv Hh He Hi].
    unfold num_nodes in *. cbn. rewrite length_app. cbn. split; [|lia].
    split; cbn; rewrite ?length_app; cbn; try lia.
    + intros u es e Hu He'. apply lookup_app_Some in Hu as [Hu|[_ Hu]].
      * specialize (He _ _ _ Hu He'). lia.
      * apply list_lookup_singleton_Some in Hu as [_ <-]. by apply elem_of_nil in He'.
    + intros s' i Hl. apply lookup_insert_Some in Hl as [[_ <-]|[_ Hl]]; [lia|].
      apply Hi in Hl. lia.
Qed.
Lemma add_edge_wf g s t p : wf_graph g → wf_graph (add_edge s t p g).
Proof.
  intros Hwf. unfold add_edge.
  destruct (get_internal_id s g) as [u g1] eqn:E1.
  destruct (get_internal_id t g1) as [v g2] eqn:E2.
  pose proof (get_internal_id_wf g s Hwf) as [Hwf1 _]. rewrite E1 in Hwf1. cbn in Hwf1.
  pose proof (get_internal_id_wf g1 t Hwf1) as [Hwf2 Hv]. rewrite E2 in Hwf2, Hv. cbn in Hwf2, Hv.
  destruct Hwf2 as [Ha Hvl Hh He Hi].
  split; cbn; unfold num_nodes in *; cbn; rewrite ?length_alter; try done.
  intros w es e Hw He'.
  destruct (decide (u = w)) as [->|Hne].
  - rewrite list_lookup_alter_eq in Hw.
    destruct (adj g2 !! w) as [es0|] eqn:Hes0; simplify_eq/=.
    apply elem_of_app in He' as [He'|He'].
    + by eapply He.
    + apply list_elem_of_singleton in He' as ->. done.
  - rewrite list_lookup_alter_ne in Hw by done. by eapply He.
Qed.

Lemma set_node_value_wf g s x : wf_graph g → wf_graph (set_node_value s x g).
Proof.
  intros Hwf. unfold set_node_value.
  destruct (get_internal_id s g) as [u g1] eqn:E1.
  pose proof (get_internal_id_wf g s Hwf) as [Hwf1 _]. rewrite E1 in Hwf1. cbn in Hwf1.
  destruct Hwf1 as [Ha Hvl Hh He Hi].
  split; cbn; unfold num_nodes in *; cbn; rewrite ?length_insert; done.
Qed.

(** An invariant of the three calls is an invariant of the parser. *)
Section scan_invariants.
Context (P : Graph → Prop) (W : Q → Prop).
Hypothesis P_intern : ∀ s g, P g → P (get_internal_id s g).2.
Hypothesis P_value : ∀ s x g, P g → P (set_node_value s x g).
Hypothesis P_edge : ∀ s t p g, W p → P g → P (add_edge s t p g).
Hypothesis W_default : W (1 # 10)%Q.
Hypothesis W_stod : ∀ w p, stod w = Ok p → W p.

Lemma scan_attvalues_inv fuel block nid tid p g :
  P g → P (scan_attvalues fuel block nid tid p g).
Proof.
  revert p g. induction fuel as [|fuel IH]; intros p g Hg;
    cbn [scan_attvalues]; [done|].
  repeat case_match; auto.
Qed.

Lemma scan_nodes_inv fuel content tid pos g :
  P g → P (scan_nodes fuel content tid pos g).
Proof.
  revert pos g. induction fuel as [|fuel IH]; intros pos g Hg;
    cbn [scan_nodes]; [done|].
  repeat case_match; auto; apply IH; auto.
  all: apply scan_attvalues_inv;
    match goal with
    | H : get_internal_id ?s ?g = (_, ?g1) |- P ?g1 =>
        replace g1 with (get_internal_id s g).2 by (by rewrite H)
    end; auto.
Qed.

Lemma scan_edges_inv fuel content pos g :
  P g → P (scan_edges fuel content pos g).
Proof.
  revert pos g. induction fuel as [|fuel IH]; intros pos g Hg;
    cbn [scan_edges]; [done|].
  repeat case_match; auto; apply IH; apply P_edge; eauto.
Qed.

Lemma parse_content_inv content attr :
  P empty_graph → P (parse_content content attr).1.
Proof.
  intros H0. unfold parse_content.
  destruct (find_attribute _ _ _ _) as [tid found].
  cbn [fst]. by apply scan_edges_inv, scan_nodes_inv.
Qed.
End scan_invariants.

Lemma parse_content_wf content attr : wf_graph (parse_content content attr).1.
Proof.
  apply (parse_content_inv wf_graph (λ _, True)); auto using wf_empty_graph,
    add_edge_wf, set_node_value_wf.
  intros s g Hg. by apply get_internal_id_wf.
Qed.
(** ** The heap order *)

Lemma Qlt_bool_iff x y : Qlt_bool x y = true ↔ (x < y)%Q.
Proof.
  unfold Qlt_bool. rewrite negb_true_iff. split.
  - intros H. apply Qnot_le_lt. intros Hle. apply Qle_bool_iff in Hle. congruence.
  - intros H. destruct (Qle_bool y x) eqn:E; [|done].
    apply Qle_bool_iff in E. lra.
Qed.

Lemma NodeGain_lt_iff a b :
  NodeGain_lt a b = true ↔
  (marginal_gain a < marginal_gain b)%Q ∨
  ((marginal_gain a == marginal_gain b)%Q ∧ node_id b < node_id a).
Proof.
  unfold NodeGain_lt.
  destruct (Qeq_bool (marginal_gain a) (marginal_gain b)) eqn:E.
  - apply Qeq_bool_iff in E. rewrite Nat.ltb_lt. split; [by right|].
    intros [H|[_ H]]; [lra|done].
  - apply Qeq_bool_neq in E. rewrite Qlt_bool_iff. split; [by left|].
    intros [H|[H _]]; [done|by destruct E].
Qed.

Lemma NodeGain_lt_false_iff a b :
  NodeGain_lt a b = false ↔
  (marginal_gain b < marginal_gain a)%Q ∨
  ((marginal_gain a == marginal_gain b)%Q ∧ node_id a ≤ node_id b).
Proof.
  rewrite <- not_true_iff_false, NodeGain_lt_iff. split.
  - intros H. destruct (Qlt_le_dec (marginal_gain b) (marginal_gain a)) as [Hlt|Hle];
      [by left|right].
    destruct (Qlt_le_dec (marginal_gain a) (marginal_gain b)) as [Hlt'|Hle'].
    + destruct H. by left.
    + assert (marginal_gain a == marginal_gain b)%Q as Heq by lra.
      split; [done|]. destruct (decide (node_id a ≤ node_id b)); [done|].
      destruct H. right. split; [done|lia].
  - intros [H|[H1 H2]] [H'|[H1' H2']]; try lra; lia.
Qed.

(** Negative transitivity: [operator<] is a strict weak order. *)
Lemma NodeGain_lt_negtrans a b c :
  NodeGain_lt a b = false → NodeGain_lt b c = false → NodeGain_lt a c = false.
Proof.
  rewrite !NodeGain_lt_false_iff.
  intros [H1|[H1 H1']] [H2|[H2 H2']]; try (left; lra).
  right. split; [lra|lia].
Qed.

Lemma NodeGain_lt_asym a b : NodeGain_lt a b = true → NodeGain_lt b a = false.
Proof.
  rewrite NodeGain_lt_iff, NodeGain_lt_false_iff.
  intros [H|[H1 H2]]; [by left|]. right. split; [lra|lia].
Qed.

Lemma pq_extract_perm x l : (pq_extract x l).1 :: (pq_extract x l).2 ≡ₚ x :: l.
Proof.
  revert x. induction l as [|y l IH]; intros x; cbn; [done|].
  specialize (IH y). destruct (pq_extract y l) as [m rest]. cbn in IH.
  destruct (NodeGain_lt x m); cbn; [|done].
  rewrite <- IH. apply Permutation_swap.
Qed.

Lemma pq_extract_greatest x l y :
  y ∈ x :: l → NodeGain_lt (pq_extract x l).1 y = false.
Proof.
  revert x y. induction l as [|z l IH]; intros x y Hy; cbn.
  - apply list_elem_of_singleton in Hy as ->.
    apply NodeGain_lt_false_iff. right. split; [lra|lia].
  - pose proof (IH z) as IHz. destruct (pq_extract z l) as [m rest]. cbn in IHz.
    destruct (NodeGain_lt x m) eqn:E; cbn.
    + apply elem_of_cons in Hy as [->|Hy]; [by apply NodeGain_lt_asym|by apply IHz].
    + apply elem_of_cons in Hy as [->|Hy].
      * apply NodeGain_lt_false_iff. right. split; [lra|lia].
      * eapply NodeGain_lt_negtrans; [exact E|by apply IHz].
Qed.

Lemma pq_pop_perm pq top rest : pq_pop pq = Some (top, rest) → pq ≡ₚ top :: rest.
Proof.
  destruct pq as [|x l]; [done|]. cbn. intros [= H].
  pose proof (pq_extract_perm x l) as Hp. rewrite H in Hp. by symmetry.
Qed.

Lemma pq_pop_length pq top rest :
  pq_pop pq = Some (top, rest) → length pq = S (length rest).
Proof. intros H. by rewrite (pq_pop_perm _ _ _ H). Qed.

Lemma pq_pop_None pq : pq_pop pq = None ↔ pq = [].
Proof. by destruct pq. Qed.


(** ** [std::set<int>] *)

Lemma elem_of_set_insert x u s : x ∈ set_insert u s ↔ x = u ∨ x ∈ s.
Proof.
  induction s as [|y s IH]; cbn [set_insert].
  - rewrite list_elem_of_singleton, elem_of_nil. tauto.
  - destruct (u <? y) eqn:E1; [apply elem_of_cons|].
    destruct (u =? y) eqn:E2.
    + apply Nat.eqb_eq in E2 as ->. rewrite elem_of_cons. tauto.
    + rewrite !elem_of_cons, IH. tauto.
Qed.

Lemma set_insert_length u s : u ∉ s → length (set_insert u s) = S (length s).
Proof.
  induction s as [|y s IH]; cbn [set_insert]; [done|]. intros Hu.
  destruct (u <? y) eqn:E1; [done|].
  destruct (u =? y) eqn:E2.
  - apply Nat.eqb_eq in E2 as ->. destruct Hu. by left.
  - cbn. rewrite IH; [done|]. intros H. apply Hu. by right.
Qed.

Lemma set_insert_sorted u s :
  StronglySorted lt s → StronglySorted lt (set_insert u s).
Proof.
  induction 1 as [|y s Hs IH Hy]; cbn [set_insert].
  - repeat constructor.
  - destruct (u <? y) eqn:E1.
    + apply Nat.ltb_lt in E1. constructor; [by constructor|].
      constructor; [done|]. eapply Forall_impl; [exact Hy|]. cbn. lia.
    + destruct (u =? y) eqn:E2; [by constructor|].
      apply Nat.ltb_ge in E1. apply Nat.eqb_neq in E2.
      constructor; [done|]. apply Forall_forall. intros x Hx.
      apply elem_of_set_insert in Hx as [->|Hx]; [lia|].
      by eapply Forall_forall in Hy.
Qed.

Lemma set_mem_true x s : set_mem x s = true ↔ x ∈ s.
Proof. unfold set_mem. apply bool_decide_eq_true. Qed.

Lemma set_mem_false x s : set_mem x s = false ↔ x ∉ s.
Proof. unfold set_mem. apply bool_decide_eq_false. Qed.

(** ** The inner loop of the second phase reaches its exit condition *)

Lemma stale_le n pq : stale n pq ≤ length pq.
Proof. apply length_filter. Qed.

Lemma stale_perm n pq pq' : pq ≡ₚ pq' → stale n pq = stale n pq'.
Proof. intros H. unfold stale. by rewrite H. Qed.

Lemma consider_cases g mc top st :
  ((node_id top ∈ seeds st) ∧ consider g mc top st = (st, false)) ∨
  ((node_id top ∉ seeds st) ∧ iteration_computed top = length (seeds st) ∧
   (consider g mc top st).2 = true) ∨
  ((node_id top ∉ seeds st) ∧ iteration_computed top ≠ length (seeds st) ∧
   ∃ gain e',
     consider g mc top st =
       ({| seeds := seeds st;
           pq := pq_push (mkNodeGain (node_id top) gain (length (seeds st))) (pq st);
           current_val := current_val st; src := e';
           cout := cout st; cerr := cerr st |}, false)).
Proof.
  unfold consider. destruct (set_mem _ _) eqn:Hm.
  - left. by apply set_mem_true in Hm.
  - right. apply set_mem_false in Hm.
    destruct (iteration_computed top =? length (seeds st)) eqn:Hf.
    + left. apply Nat.eqb_eq in Hf. done.
    + right. apply Nat.eqb_neq in Hf. split; [done|]. split; [done|].
      destruct (seed_engine (src st)) as [rng0 e']. eauto.
Qed.

Lemma select_loop_exit_gen g mc fuel st :
  length (pq st) + stale (length (seeds st)) (pq st) < fuel →
  (select_loop fuel g mc st).2 = true ∨ pq (select_loop fuel g mc st).1 = [].
Proof.
  revert st. induction fuel as [|fuel IH]; intros st Hlt; [lia|]. cbn.
  destruct (pq_pop (pq st)) as [[top rest]|] eqn:Hpop.
  2: { right. cbn. by apply pq_pop_None. }
  pose proof (pq_pop_perm _ _ _ Hpop) as Hperm.
  rewrite (stale_perm _ _ _ Hperm) in Hlt. rewrite Hperm in Hlt.
  unfold stale in Hlt. rewrite filter_cons in Hlt. cbn in Hlt.
  destruct (consider_cases g mc top (with_pq rest st))
    as [[_ Hc]|[(_ & _ & Hc)|(_ & Hst & gain & e' & Hc)]].
  - rewrite Hc. apply IH. cbn. unfold stale.
    destruct (decide _); cbn in Hlt; lia.
  - destruct (consider _ _ _ _) as [st' found]. cbn in Hc. subst. by left.
  - rewrite Hc. apply IH. cbn [pq seeds with_pq] in *.
    unfold stale, pq_push. rewrite filter_cons. cbn [iteration_computed length].
    destruct (decide (length (seeds st) ≠ length (seeds st))) as [|_]; [done|].
    destruct (decide _); [|done]. cbn in Hlt. lia.
Qed.

(** On leaving [while (!found_best && !pq.empty())] the guard is false:
    a seed was committed or the heap is empty. *)
Lemma select_loop_exit g mc st :
  (select_loop (select_fuel st) g mc st).2 = true ∨
  pq (select_loop (select_fuel st) g mc st).1 = [].
Proof.
  apply select_loop_exit_gen. unfold select_fuel.
  pose proof (stale_le (length (seeds st)) (pq st)). lia.
Qed.
(** ** The second phase, pop by pop *)

(** C1. One pop of the second phase.  With [top] the entry taken from the
    heap and [rest] the entries left: an entry whose node is already a seed
    is dropped; otherwise, if its stamp equals the number of seeds, the node
    is committed (it joins the seed set, its stored gain is added to
    [current_val], one [Selected Node] record is written, the inner loop ends
    with [found_best] set, and the outer loop goes on to its next iteration);
    otherwise the gain is recomputed as the estimate for the seeds followed
    by the node, minus [current_val], and the entry is pushed back with the
    current seed count as its stamp, nothing being committed. *)
Theorem phase2_pop_commits_or_refreshes (g : Graph) (k mc_rounds : Z)
    (st : celf_state) (top : NodeGain) (rest : priority_queue) (fuel : nat) :
  pq_pop (pq st) = Some (top, rest) →
  let u := node_id top in
  let n := length (seeds st) in
  (u ∈ seeds st →
     select_loop (S fuel) g mc_rounds st =
     select_loop fuel g mc_rounds (with_pq rest st)) ∧
  (u ∉ seeds st → iteration_computed top = n →
     ∃ st',
       select_loop (S fuel) g mc_rounds st = (st', true) ∧
       (∀ x, x ∈ seeds st' ↔ x = u ∨ x ∈ seeds st) ∧
       length (seeds st') = S n ∧
       current_val st' = (current_val st + marginal_gain top)%Q ∧
       cout st' = cout st ++
         [SelectedNode (external_id g u) (value_of g u) (marginal_gain top)
            (current_val st + marginal_gain top)%Q] ∧
       pq st' = rest ∧ cerr st' = cerr st ∧
       (∀ iterations, fuel = 2 * length (pq st) →
          greedy_loop (S iterations) g k mc_rounds st =
          greedy_loop iterations g k mc_rounds st')) ∧
  (u ∉ seeds st → iteration_computed top ≠ n →
     let rng0 := (seed_engine (src st)).1 in
     let gain :=
       ((estimate_weighted_spread g (seeds st ++ [u]) mc_rounds rng0).1
        - current_val st)%Q in
     select_loop (S fuel) g mc_rounds st =
     select_loop fuel g mc_rounds
       {| seeds := seeds st;
          pq := pq_push (mkNodeGain u gain n) rest;
          current_val := current_val st;
          src := (seed_engine (src st)).2;
          cout := cout st; cerr := cerr st |}).
Proof.
  intros Hpop u n. subst u n. cbn [select_loop]. rewrite Hpop.
  unfold consider. cbn [with_pq seeds pq current_val src cout cerr].
  split; [|split].
  - intros Hin. apply set_mem_true in Hin. by rewrite Hin.
  - intros Hnin Hfresh. pose proof Hnin as Hm. apply set_mem_false in Hm.
    rewrite Hm. apply Nat.eqb_eq in Hfresh as Hf. rewrite Hf.
    eexists. split; [done|]. cbn [seeds pq current_val src cout cerr].
    split; [intros x; apply elem_of_set_insert|].
    split; [by apply set_insert_length|].
    do 4 (split; [done|]).
    intros iterations ->. cbn [greedy_loop]. unfold select_fuel.
    cbn [select_loop]. rewrite Hpop. unfold consider.
    cbn [with_pq seeds pq current_val src cout cerr]. by rewrite Hm, Hf.
  - intros Hnin Hstale. apply set_mem_false in Hnin. rewrite Hnin.
    apply Nat.eqb_neq in Hstale. rewrite Hstale.
    by destruct (seed_engine (src st)).
Qed.
(** ** Only nodes with an assigned value reach the heap or the seed set *)

Lemma phase1_step_eligible g mc acc i :
  Forall (λ x, eligible g (node_id x) = true ∧ iteration_computed x = 0) acc.1 →
  Forall (λ x, eligible g (node_id x) = true ∧ iteration_computed x = 0)
    (phase1_step g mc acc i).1.
Proof.
  intros H. unfold phase1_step. destruct (eligible g i) eqn:E; [|done].
  destruct (estimate_weighted_spread _ _ _ _) as [spread rng']. cbn.
  by constructor.
Qed.

Lemma phase1_local_eligible g mc chunk acc :
  Forall (λ x, eligible g (node_id x) = true ∧ iteration_computed x = 0) acc.1 →
  Forall (λ x, eligible g (node_id x) = true ∧ iteration_computed x = 0)
    (fold_left (phase1_step g mc) chunk acc).1.
Proof.
  revert acc. induction chunk as [|i chunk IH]; intros acc H; cbn; [done|].
  by apply IH, phase1_step_eligible.
Qed.

Lemma drain_perm fuel local shared :
  length local ≤ fuel → drain fuel local shared ≡ₚ local ++ shared.
Proof.
  revert local shared. induction fuel as [|fuel IH]; intros local shared Hlen.
  - destruct local; [done|cbn in Hlen; lia].
  - cbn [drain]. destruct (pq_pop local) as [[top rest]|] eqn:Hpop.
    + pose proof (pq_pop_perm _ _ _ Hpop) as Hp.
      pose proof (pq_pop_length _ _ _ Hpop) as Hl.
      rewrite IH by lia. unfold pq_push. rewrite Hp.
      by rewrite <- Permutation_middle.
    + apply pq_pop_None in Hpop as ->. done.
Qed.

Lemma phase1_thread_eligible g mc acc chunk :
  Forall (λ x, eligible g (node_id x) = true ∧ iteration_computed x = 0) acc.1 →
  Forall (λ x, eligible g (node_id x) = true ∧ iteration_computed x = 0)
    (phase1_thread g mc acc chunk).1.
Proof.
  intros H. unfold phase1_thread. destruct (seed_engine acc.2) as [rng0 e']. cbn.
  rewrite drain_perm by done. apply Forall_app. split; [|done].
  by apply phase1_local_eligible.
Qed.

Lemma phase1_threads_eligible g mc schedule (acc : priority_queue * entropy) :
  Forall (λ x, eligible g (node_id x) = true ∧ iteration_computed x = 0) acc.1 →
  Forall (λ x, eligible g (node_id x) = true ∧ iteration_computed x = 0)
    (fold_left (phase1_thread g mc) schedule acc).1.
Proof.
  revert acc. induction schedule as [|chunk schedule IH]; intros acc H; cbn; [done|].
  by apply IH, phase1_thread_eligible.
Qed.

Lemma phase1_eligible g mc schedule e :
  Forall (λ x, eligible g (node_id x) = true ∧ iteration_computed x = 0)
    (phase1 g mc schedule e).1.
Proof. by apply phase1_threads_eligible. Qed.

Lemma celf_init_eligible g mc schedule e out err :
  only_eligible g (celf_init g mc schedule e out err).
Proof.
  unfold celf_init. pose proof (phase1_eligible g mc schedule e) as H.
  destruct (phase1 g mc schedule e) as [heap e1]. cbn in H.
  split; cbn; [intros s Hs; by apply elem_of_nil in Hs|].
  intros x Hx. eapply Forall_forall in H; [|done]. tauto.
Qed.

Lemma consider_eligible g mc top st :
  eligible g (node_id top) = true → only_eligible g st →
  only_eligible g (consider g mc top st).1.
Proof.
  intros Htop [Hs Hq]. unfold consider.
  destruct (set_mem _ _); [done|].
  destruct (_ =? _).
  - split; cbn; [|done]. intros s [->|H]%elem_of_set_insert; auto.
  - destruct (seed_engine (src st)) as [rng0 e']. split; cbn; [done|].
    unfold pq_push. intros x [->|H]%elem_of_cons; auto.
Qed.

Lemma select_loop_eligible g mc fuel st :
  only_eligible g st → only_eligible g (select_loop fuel g mc st).1.
Proof.
  revert st. induction fuel as [|fuel IH]; intros st Hst; cbn; [done|].
  destruct (pq_pop (pq st)) as [[top rest]|] eqn:Hpop; [|done].
  pose proof (pq_pop_perm _ _ _ Hpop) as Hp. destruct Hst as [Hs Hq].
  assert (only_eligible g (consider g mc top (with_pq rest st)).1) as Hc.
  { apply consider_eligible.
    - apply Hq. rewrite Hp. by left.
    - split; cbn; [done|]. intros x Hx. apply Hq. rewrite Hp. by right. }
  destruct (consider g mc top (with_pq rest st)) as [st' [|]]; cbn in *; auto.
Qed.

Lemma greedy_loop_eligible g k mc iterations st :
  only_eligible g st → only_eligible g (greedy_loop iterations g k mc st).
Proof.
  revert st. induction iterations as [|it IH]; intros st Hst;
    cbn [greedy_loop]; [done|].
  pose proof (select_loop_eligible g mc (select_fuel st) st Hst) as H.
  destruct (select_loop (select_fuel st) g mc st) as [st' [|]]; cbn in H;
    [by apply IH|exact H].
Qed.

(** C2. Whatever the graph, [k], the schedule of the first pass and the
    engines, every entry the first pass puts on the heap is a node whose
    [has_value] flag is set (the flag only [set_node_value] raises); so are
    all seeds and all heap entries in every state the second phase passes
    through (after any number of outer iterations and any number of pops of
    the next one) and in the state the driver returns; every id that [main]
    then prints on the [Selected Seeds:] line names such a node. *)
Theorem seeds_and_heap_only_eligible (g : Graph) (k mc_rounds : Z)
    (schedule : list (list nat)) (e : entropy) (out err : list line)
    (iterations fuel : nat) :
  let st0 := celf_init g mc_rounds schedule e out err in
  let final := celf_weighted_influence g k mc_rounds schedule e out err in
  (∀ x, x ∈ (phase1 g mc_rounds schedule e).1 → eligible g (node_id x) = true) ∧
  only_eligible g
    (select_loop fuel g mc_rounds (greedy_loop iterations g k mc_rounds st0)).1 ∧
  only_eligible g final ∧
  (∀ ext, ext ∈ map (external_id g) (seeds final) →
     ∃ i, eligible g i = true ∧ ext = external_id g i).
Proof.
  intros st0 final.
  pose proof (celf_init_eligible g mc_rounds schedule e out err) as H0.
  assert (only_eligible g final) as Hfinal by by apply greedy_loop_eligible.
  split; [|split; [|split]].
  - intros x Hx. pose proof (phase1_eligible g mc_rounds schedule e) as H.
    eapply Forall_forall in H; [|done]. tauto.
  - by apply select_loop_eligible, greedy_loop_eligible.
  - done.
  - intros ext (i & -> & Hi)%list_elem_of_fmap. exists i. split; [|done].
    by apply Hfinal.
Qed.

(** The flag is raised by [set_node_value] and by nothing else. *)
Lemma get_internal_id_eligible g s i :
  wf_graph g → eligible (get_internal_id s g).2 i = eligible g i.
Proof.
  intros Hwf. destruct (id_map g !! s) as [j|] eqn:Hs.
  - unfold get_internal_id. by rewrite Hs.
  - rewrite get_internal_id_fresh by done. unfold eligible. cbn.
    destruct (decide (i < length (has_value g))) as [Hlt|Hge].
    + by rewrite lookup_app_l.
    + rewrite lookup_app_r by lia. rewrite (lookup_ge_None_2 (has_value g)) by lia.
      by destruct (i - length (has_value g)).
Qed.

Lemma add_edge_eligible g s t p i :
  wf_graph g → eligible (add_edge s t p g) i = eligible g i.
Proof.
  intros Hwf. unfold add_edge.
  destruct (get_internal_id s g) as [u g1] eqn:E1.
  destruct (get_internal_id t g1) as [v g2] eqn:E2.
  pose proof (get_internal_id_wf g s Hwf) as [Hwf1 _]. rewrite E1 in Hwf1.
  transitivity (eligible g1 i).
  - change (eligible g2 i = eligible g1 i).
    replace g2 with (get_internal_id t g1).2 by (by rewrite E2).
    by apply get_internal_id_eligible.
  - replace g1 with (get_internal_id s g).2 by (by rewrite E1).
    by apply get_internal_id_eligible.
Qed.

Lemma set_node_value_eligible g s x i :
  wf_graph g →
  eligible (set_node_value s x g) i =
  (if decide (i = (get_internal_id s g).1) then true else eligible g i).
Proof.
  intros Hwf. unfold set_node_value.
  pose proof (get_internal_id_wf g s Hwf) as [Hwf1 Hlt].
  pose proof (get_internal_id_eligible g s i Hwf) as He.
  destruct (get_internal_id s g) as [u g1]. cbn in *.
  unfold eligible in *. cbn. destruct (decide (i = u)) as [->|Hne].
  - rewrite list_lookup_insert_eq; [done|]. by rewrite (wf_has_len _ Hwf1).
  - by rewrite list_lookup_insert_ne.
Qed.
(** ** What the second phase does to the seed set and to the streams *)

Lemma selection_order_app out1 out2 :
  selection_order (out1 ++ out2) = selection_order out1 ++ selection_order out2.
Proof. unfold selection_order. apply omap_app. Qed.

Lemma set_insert_perm u s : u ∉ s → set_insert u s ≡ₚ u :: s.
Proof.
  induction s as [|y s IH]; cbn [set_insert]; [done|]. intros Hu.
  destruct (u <? y); [done|].
  destruct (u =? y) eqn:E.
  - apply Nat.eqb_eq in E as ->. destruct Hu. by left.
  - rewrite IH; [apply Permutation_swap|]. intros H. apply Hu. by right.
Qed.

Lemma consider_facts g mc top st :
  step_facts g st (consider g mc top st).1 (consider g mc top st).2.
Proof.
  unfold consider. destruct (set_mem _ _) eqn:Hm; [by split|].
  apply set_mem_false in Hm.
  destruct (_ =? _).
  - split; cbn [fst snd seeds cout cerr]; [done| |by apply set_insert_sorted|].
    + by apply set_insert_length.
    + intros H. rewrite selection_order_app, H. cbn.
      rewrite (set_insert_perm _ _ Hm). cbn.
      by rewrite <- Permutation_cons_append.
  - destruct (seed_engine (src st)) as [rng0 e']. by split.
Qed.

Lemma select_loop_facts g mc fuel st :
  step_facts g st (select_loop fuel g mc st).1 (select_loop fuel g mc st).2.
Proof.
  revert st. induction fuel as [|fuel IH]; intros st; cbn [select_loop];
    [by split|].
  destruct (pq_pop (pq st)) as [[top rest]|]; [|by split].
  pose proof (consider_facts g mc top (with_pq rest st)) as Hc.
  destruct (consider g mc top (with_pq rest st)) as [st1 [|]];
    cbn [fst snd] in *; [destruct Hc; by split|].
  specialize (IH st1). destruct Hc as [Hc1 Hc2 Hc3 Hc4], IH as [H1 H2 H3 H4].
  cbn [with_pq seeds cout cerr] in *.
  split; [congruence| |auto|auto].
  rewrite H2. by destruct (select_loop fuel g mc st1).2; rewrite Hc2.
Qed.

(** The outer loop either commits one seed per iteration, or stops early on
    an empty heap after writing the warning; it keeps the seeds increasing
    and the records in step with them. *)
Lemma greedy_loop_facts g k mc iterations st :
  let st' := greedy_loop iterations g k mc st in
  (StronglySorted lt (seeds st) → StronglySorted lt (seeds st')) ∧
  (selection_order (cout st) ≡ₚ map (external_id g) (seeds st) →
   selection_order (cout st') ≡ₚ map (external_id g) (seeds st')) ∧
  ((length (seeds st') = length (seeds st) + iterations ∧ cerr st' = cerr st) ∨
   (length (seeds st') < length (seeds st) + iterations ∧ pq st' = [] ∧
    cerr st' = cerr st ++ [WarnExhausted k (length (seeds st'))])).
Proof.
  revert st. induction iterations as [|it IH]; intros st; cbn [greedy_loop].
  { split; [done|]. split; [done|]. left. split; [lia|done]. }
  pose proof (select_loop_facts g mc (select_fuel st) st) as [H1 H2 H3 H4].
  pose proof (select_loop_exit g mc st) as Hexit.
  destruct (select_loop (select_fuel st) g mc st) as [st1 [|]]; cbn [fst snd] in *.
  - specialize (IH st1). cbn zeta in IH. destruct IH as (I1 & I2 & I3).
    split; [auto|]. split; [auto|]. rewrite H1, H2 in I3.
    destruct I3 as [[I3 I4]|(I3 & I4 & I5)]; [left|right].
    + split; [lia|done].
    + split; [lia|done].
  - destruct Hexit as [|Hempty]; [done|].
    split; [auto|]. split; [auto|]. right.
    cbn [warn_exhausted seeds pq cerr]. split; [lia|]. split; [done|].
    by rewrite H1.
Qed.
(** ** Heap exhaustion *)

(** An iteration of the inner loop that commits nothing leaves the seed
    set and both streams as they were. *)
Lemma consider_no_commit g mc top st :
  (consider g mc top st).2 = false →
  seeds (consider g mc top st).1 = seeds st ∧
  cout (consider g mc top st).1 = cout st ∧
  cerr (consider g mc top st).1 = cerr st.
Proof.
  unfold consider. destruct (set_mem _ _); [done|].
  destruct (_ =? _); [done|]. by destruct (seed_engine (src st)).
Qed.

Lemma select_loop_no_commit g mc fuel st :
  (select_loop fuel g mc st).2 = false →
  seeds (select_loop fuel g mc st).1 = seeds st ∧
  cout (select_loop fuel g mc st).1 = cout st ∧
  cerr (select_loop fuel g mc st).1 = cerr st.
Proof.
  revert st. induction fuel as [|fuel IH]; intros st; cbn [select_loop];
    [done|].
  destruct (pq_pop (pq st)) as [[top rest]|]; [|done].
  pose proof (consider_no_commit g mc top (with_pq rest st)) as Hc.
  destruct (consider g mc top (with_pq rest st)) as [st1 [|]];
    cbn [fst snd] in *; [done|].
  intros Hf. destruct (IH st1 Hf) as (H1 & H2 & H3).
  destruct (Hc eq_refl) as (C1 & C2 & C3). cbn [with_pq seeds cout cerr] in *.
  split; [congruence|]. split; congruence.
Qed.

(** When each of the first [i] iterations of the outer loop has committed a
    seed, the loop has not been left, and the iterations that follow start
    from the state reached. *)
Lemma greedy_loop_split g k mc i j st :
  length (seeds (greedy_loop i g k mc st)) = length (seeds st) + i →
  greedy_loop (i + j) g k mc st = greedy_loop j g k mc (greedy_loop i g k mc st).
Proof.
  revert st. induction i as [|i IH]; intros st Hlen; [done|].
  cbn [Nat.add greedy_loop] in *.
  pose proof (select_loop_facts g mc (select_fuel st) st) as [_ H2 _ _].
  destruct (select_loop (select_fuel st) g mc st) as [st1 [|]];
    cbn [fst snd] in *.
  - apply IH. lia.
  - cbn [warn_exhausted seeds] in Hlen. lia.
Qed.

(** C5. A run of [main] whose command line and input are accepted.  Let
    each of the first [i] iterations of the outer loop, [i < k], have
    selected a seed, and let the inner loop of the next iteration end without
    selecting one.  Then the heap is empty; the driver stops there and returns
    exactly the [i] seeds selected so far, the ones its [Selected Node]
    records name; it writes the warning naming [k] and [i] to the error
    stream, after what the parser wrote there; and [main] prints those seeds
    and returns 0. *)
Theorem exhausted_heap_warns_and_exits_0 (argv : list string)
    (env : environment) (k mc_rounds : Z) (g : Graph) (parse_err : list line)
    (i : nat) :
  length argv = 4 ∨ length argv = 5 →
  stoi (arg argv 2) = Ok k →
  (if length argv =? 5 then stoi (arg argv 4) else Ok DEFAULT_MC_ROUNDS)
    = Ok mc_rounds →
  parse (files env) (arg argv 1) (arg argv 3) = Ok (g, parse_err) →
  let init :=
    celf_init g mc_rounds (omp_schedule env (num_nodes g)) (device env)
      (banner g mc_rounds) parse_err in
  let st_i := greedy_loop i g k mc_rounds init in
  let inner := select_loop (select_fuel st_i) g mc_rounds st_i in
  let st :=
    celf_weighted_influence g k mc_rounds (omp_schedule env (num_nodes g))
      (device env) (banner g mc_rounds) parse_err in
  (Z.of_nat i < k)%Z →
  length (seeds st_i) = i →
  inner.2 = false →
  pq inner.1 = [] ∧
  st = warn_exhausted k inner.1 ∧
  seeds st = seeds st_i ∧
  cout st = cout st_i ∧
  selection_order (cout st) ≡ₚ map (external_id g) (seeds st) ∧
  cerr st = parse_err ++ [WarnExhausted k i] ∧
  status (main argv env) = Exit 0 ∧
  stderr (main argv env) = parse_err ++ [WarnExhausted k i] ∧
  stdout (main argv env) =
    cout st_i ++
    [Separator; SelectedSeeds (map (external_id g) (seeds st_i)); Elapsed].
Proof.
  intros Hargc Hk Hmc Hparse init st_i inner st Hi Hlen Hinner.
  assert (main argv env = report g k mc_rounds parse_err env) as Hmain.
  { unfold main. replace ((length argv <? 4) || (5 <? length argv)) with false
      by (destruct Hargc as [-> | ->]; done).
    by rewrite Hk, Hmc, Hparse. }
  assert (seeds init = [] ∧ cerr init = parse_err ∧ selection_order (cout init) = [])
    as (Hs0 & He0 & Ho0).
  { subst init. unfold celf_init. by destruct (phase1 _ _ _ _). }
  assert (st = warn_exhausted k inner.1) as Hst.
  { subst st. unfold celf_weighted_influence. fold init.
    replace (Z.to_nat k) with (i + S (Z.to_nat k - S i)) by lia.
    rewrite greedy_loop_split by (fold st_i; rewrite Hs0; cbn; lia).
    fold st_i. cbn [greedy_loop]. fold inner.
    destruct inner as [st' found]. cbn [fst snd] in *. by subst found. }
  pose proof (select_loop_exit g mc_rounds st_i) as Hexit. fold inner in Hexit.
  destruct Hexit as [Hexit|Hpq]; [congruence|].
  destruct (select_loop_no_commit g mc_rounds (select_fuel st_i) st_i Hinner)
    as (Hseeds & Hcout & Hcerr). fold inner in Hseeds, Hcout, Hcerr.
  assert (cerr st_i = parse_err) as Hcerr_i.
  { pose proof (greedy_loop_facts g k mc_rounds i init) as (_ & _ & Hf).
    cbn zeta in Hf. fold st_i in Hf. rewrite Hs0, He0 in Hf. cbn in Hf.
    destruct Hf as [[_ Hf]|[Hf _]]; [done|lia]. }
  assert (selection_order (cout st_i) ≡ₚ map (external_id g) (seeds st_i)) as Hrec.
  { pose proof (greedy_loop_facts g k mc_rounds i init) as (_ & Hf & _).
    cbn zeta in Hf. fold st_i in Hf. apply Hf. by rewrite Hs0, Ho0. }
  assert (seeds st = seeds st_i ∧ cout st = cout st_i ∧
          cerr st = parse_err ++ [WarnExhausted k i]) as (Es & Eo & Ee).
  { rewrite Hst. cbn [warn_exhausted seeds cout cerr].
    by rewrite Hseeds, Hcout, Hcerr, Hcerr_i, Hlen. }
  split; [done|]. split; [done|]. split; [done|]. split; [done|].
  split; [by rewrite Es, Eo|]. split; [done|].
  rewrite Hmain. unfold report. fold st. cbn [status stderr stdout].
  by rewrite Es, Eo, Ee.
Qed.

(** ** The [Selected Seeds:] line *)

(** C3, as the code has it.  The seeds are kept in a [std::set<int>], so
    the [Selected Seeds:] line lists them in increasing order of internal id;
    the [Selected Node] records, written as the seeds are committed, name the
    same nodes in the order of selection. *)
Theorem selected_seeds_line_is_in_id_order (g : Graph) (k mc_rounds : Z)
    (parse_err : list line) (env : environment) :
  let st :=
    celf_weighted_influence g k mc_rounds (omp_schedule env (num_nodes g))
      (device env) (banner g mc_rounds) parse_err in
  let r := report g k mc_rounds parse_err env in
  StronglySorted lt (seeds st) ∧
  stdout r =
    cout st ++ [Separator; SelectedSeeds (map (external_id g) (seeds st)); Elapsed] ∧
  selection_order (stdout r) ≡ₚ map (external_id g) (seeds st).
Proof.
  intros st r.
  pose proof (greedy_loop_facts g k mc_rounds (Z.to_nat k)
    (celf_init g mc_rounds (omp_schedule env (num_nodes g)) (device env)
       (banner g mc_rounds) parse_err)) as (Hsorted & Hlog & _).
  cbn zeta in Hsorted, Hlog.
  fold (celf_weighted_influence g k mc_rounds
    (omp_schedule env (num_nodes g)) (device env) (banner g mc_rounds) parse_err)
    in Hsorted, Hlog. fold st in Hsorted, Hlog.
  unfold celf_init in Hsorted, Hlog.
  destruct (phase1 g mc_rounds _ _) as [heap e1].
  cbn [seeds cout] in Hsorted, Hlog.
  split; [apply Hsorted; constructor|]. split; [done|].
  subst r. unfold report. fold st. cbn [stdout].
  rewrite selection_order_app. cbn. rewrite app_nil_r. by apply Hlog.
Qed.

(** C3 as stated fails: on the two isolated nodes [a] (value 1, id 0) and
    [b] (value 5, id 1) with [k = 2], [b] is selected first and [a] second,
    and the last line reads [a b]. *)
Lemma selected_seeds_line_not_in_selection_order :
  let r := main ["prog"; "graph.gexf"; "2"; "value"; "1"]%string
             (sample_env two_nodes_doc) in
  status r = Exit 0 ∧
  selection_order (stdout r) = ["b"; "a"]%string ∧
  printed_seeds (stdout r) = [["a"; "b"]%string] ∧
  printed_seeds (stdout r) ≠ [selection_order (stdout r)].
Proof. vm_compute. repeat split; congruence. Qed.
(** ** Edge probabilities *)

Lemma get_internal_id_all_edges g s :
  wf_graph g → all_edges (get_internal_id s g).2 = all_edges g.
Proof.
  intros Hwf. destruct (id_map g !! s) as [j|] eqn:Hs.
  - unfold get_internal_id. by rewrite Hs.
  - rewrite get_internal_id_fresh by done. unfold all_edges. cbn.
    rewrite concat_app. cbn. by rewrite app_nil_r.
Qed.

Lemma elem_of_concat_alter_snoc (e x : Edge) u (l : list (list Edge)) :
  x ∈ concat (alter (λ es, es ++ [e]) u l) → x ∈ concat l ∨ x = e.
Proof.
  revert u. induction l as [|es l IH]; intros u; [by left|].
  destruct u as [|u]; cbn.
  - rewrite !elem_of_app, list_elem_of_singleton. tauto.
  - rewrite !elem_of_app. intros [H|H]; [tauto|]. apply IH in H. tauto.
Qed.

Lemma add_edge_all_edges g s t p x :
  wf_graph g → x ∈ all_edges (add_edge s t p g) →
  x ∈ all_edges g ∨ probability x = p.
Proof.
  intros Hwf. unfold add_edge.
  destruct (get_internal_id s g) as [u g1] eqn:E1.
  destruct (get_internal_id t g1) as [v g2] eqn:E2.
  pose proof (get_internal_id_wf g s Hwf) as [Hwf1 _]. rewrite E1 in Hwf1.
  pose proof (get_internal_id_all_edges g s Hwf) as H1. rewrite E1 in H1.
  pose proof (get_internal_id_all_edges g1 t Hwf1) as H2. rewrite E2 in H2.
  cbn in H1, H2. unfold all_edges at 1. cbn.
  intros [H| ->]%elem_of_concat_alter_snoc; [left|by right].
  fold (all_edges g2) in H. by rewrite H2, H1 in H.
Qed.

Lemma add_edge_stores_probability g s t p :
  wf_graph g →
  ∃ v, mkEdge v p ∈ edges_of (add_edge s t p g) (get_internal_id s g).1.
Proof.
  intros Hwf. unfold add_edge.
  pose proof (get_internal_id_wf g s Hwf) as [Hwf1 Hu].
  destruct (get_internal_id s g) as [u g1] eqn:E1. cbn in Hwf1, Hu.
  pose proof (get_internal_id_wf g1 t Hwf1) as [Hwf2 Hv].
  assert (u < num_nodes (get_internal_id t g1).2) as Hu2.
  { destruct (id_map g1 !! t) eqn:Ht; unfold get_internal_id; rewrite Ht; cbn;
      [done|]. unfold num_nodes in *. cbn. rewrite length_app. lia. }
  destruct (get_internal_id t g1) as [v g2] eqn:E2. cbn in *.
  exists v. unfold edges_of. cbn. rewrite list_lookup_alter_eq.
  destruct (adj g2 !! u) as [es|] eqn:Hes.
  - cbn. apply elem_of_app. right. by apply list_elem_of_singleton.
  - apply lookup_ge_None in Hes. rewrite (wf_adj_len _ Hwf2) in Hes. lia.
Qed.

(** C9 as stated fails: the weight 5 of the input is the probability of the
    edge of the parsed graph. *)
Lemma parsed_probability_above_one :
  parse (files (sample_env heavy_edge_doc)) "graph.gexf" "value"
    = Ok (parse_content heavy_edge_doc "value") ∧
  all_edges (parse_content heavy_edge_doc "value").1 = [mkEdge 1 5] ∧
  ¬ (∀ e, e ∈ all_edges (parse_content heavy_edge_doc "value").1 →
       (0 <= probability e)%Q ∧ (probability e <= 1)%Q).
Proof.
  assert (all_edges (parse_content heavy_edge_doc "value").1 = [mkEdge 1 5]) as H
    by (vm_compute; reflexivity).
  split; [vm_compute; reflexivity|]. split; [done|].
  intros Hall. destruct (Hall (mkEdge 1 5)) as [_ Hle].
  - rewrite H. by left.
  - cbn in Hle. lra.
Qed.

(** ** Exit status *)

Lemma main_status_cases argv env :
  status (main argv env) =
  if (length argv <? 4) || (5 <? length argv) then Exit 1
  else match stoi (arg argv 2) with
       | Throw e => Terminated e
       | Ok _ =>
           match (if length argv =? 5 then stoi (arg argv 4)
                  else Ok DEFAULT_MC_ROUNDS) with
           | Throw e => Terminated e
           | Ok _ =>
               match files env (arg argv 1) with
               | None => Exit 1
               | Some _ => Exit 0
               end
           end
       end.
Proof.
  unfold main, parse. repeat case_match; simplify_eq; done.
Qed.

(** C6 at the failing input.  A command line of the right arity whose [k]
    is not a number: [std::stoi] throws ahead of the [try] block, nothing
    catches the exception, no usage line is written and the process does
    not return 1. *)
Theorem unparseable_k_terminates_without_usage :
  let r := main ["prog"; "graph.gexf"; "abc"; "value"]%string
             (sample_env two_nodes_doc) in
  status r = Terminated invalid_argument ∧ stderr r = [] ∧ status r ≠ Exit 1.
Proof. vm_compute. repeat split; congruence. Qed.

(** The cases in which [main] does return 1, and the one in which it
    returns 0. *)
Lemma main_exit_codes argv env :
  ((length argv < 4 ∨ 5 < length argv) →
     status (main argv env) = Exit 1 ∧ stderr (main argv env) = [Usage (arg argv 0)]) ∧
  (length argv = 4 ∨ length argv = 5 →
   (∃ k, stoi (arg argv 2) = Ok k) →
   (∃ mc, (if length argv =? 5 then stoi (arg argv 4) else Ok DEFAULT_MC_ROUNDS) = Ok mc) →
   (files env (arg argv 1) = None →
      status (main argv env) = Exit 1 ∧
      stderr (main argv env) = [Error "Cannot open file"]) ∧
   (is_Some (files env (arg argv 1)) → status (main argv env) = Exit 0)).
Proof.
  split.
  - intros H. unfold main.
    replace ((length argv <? 4) || (5 <? length argv)) with true; [done|].
    symmetry. apply orb_true_iff. rewrite !Nat.ltb_lt. lia.
  - intros H [k Hk] [mc Hmc]. rewrite main_status_cases. unfold main, parse.
    replace ((length argv <? 4) || (5 <? length argv)) with false
      by (destruct H as [-> | ->]; done).
    rewrite Hk, Hmc. split.
    + intros ->. done.
    + intros [c ->]. done.
Qed.
(** ** A zero-probability edge *)

(** C10. On the graph with one edge from [A] to [B] of probability 0, there
    is an engine state, within the range of the distribution, whose next
    draw is 0; the test [r <= edge.probability] then succeeds, [B] is stamped
    as activated, and the rollout from [A] returns [value[A] + value[B]]. *)
Theorem zero_probability_edge_can_fire (a b : Q) :
  let g := two_node_graph a b 0 in
  edges_of g 0 = [mkEdge 1 0] ∧
  ∃ rng0 : mt19937,
    unit_draws rng0 ∧ (dist rng0).1 = 0%Q ∧
    let '(total, _, seen) :=
      run_weighted_simulation_token g [0] rng0 (replicate (num_nodes g) 0%Z) 1 in
    seen_at seen 1 = 1%Z ∧ (total == a + b)%Q ∧
    (total == value_of g 0 + value_of g 1)%Q.
Proof.
  intros g. split; [vm_compute; reflexivity|].
  exists (constant_engine 0). split; [|split].
  - intros n. unfold constant_engine. split; lra.
  - reflexivity.
  - assert (run_weighted_simulation_token g [0] (constant_engine 0)
              (replicate (num_nodes g) 0%Z) 1
            = ((0 + a + b)%Q, constant_engine 0, [1%Z; 1%Z])) as ->.
    { vm_compute. reflexivity. }
    split; [reflexivity|]. split; [ring|].
    assert (value_of g 0 = a ∧ value_of g 1 = b) as [-> ->]
      by (split; vm_compute; reflexivity).
    ring.
Qed.

(** The older rollout has the same test and the same behaviour. *)
Lemma legacy_rollout_fires_at_probability_zero (a b : Q) :
  (Legacy.run_weighted_simulation (two_node_graph a b 0) [0] (constant_engine 0)).1
  = (0 + a + b)%Q.
Proof. vm_compute. reflexivity. Qed.
(** ** Reachable nodes *)

Lemma elem_of_successors g nodes v :
  v ∈ successors g nodes ↔ ∃ u e, u ∈ nodes ∧ e ∈ edges_of g u ∧ v = to e.
Proof.
  unfold successors. rewrite list_elem_of_In, in_flat_map. split.
  - intros (u & Hu & Hv). apply list_elem_of_In in Hu, Hv.
    apply list_elem_of_fmap in Hv as (e & -> & He). eauto.
  - intros (u & e & Hu & He & ->). exists u. rewrite <- !list_elem_of_In.
    split; [done|]. apply list_elem_of_fmap. eauto.
Qed.

Lemma edges_of_in_range g u e :
  wf_graph g → e ∈ edges_of g u → to e < num_nodes g.
Proof.
  intros Hwf He. unfold edges_of in He.
  destruct (adj g !! u) as [es|] eqn:Hu; cbn in He.
  - by eapply wf_edges.
  - by apply elem_of_nil in He.
Qed.

Lemma reachable_in_range g seed_list v :
  wf_graph g → (∀ s, s ∈ seed_list → s < num_nodes g) →
  reachable g seed_list v → v < num_nodes g.
Proof.
  intros Hwf Hs. induction 1 as [s H|u e _ _ He]; [auto|].
  by eapply edges_of_in_range.
Qed.

(** A duplicate-free list of numbers below [n] has at most [n] elements, and
    holds every number below [n] once it has [n]. *)
Lemma NoDup_below_length (l : list nat) n :
  NoDup l → (∀ x, x ∈ l → x < n) → length l ≤ n.
Proof.
  intros Hnd Hlt. rewrite <- (length_seq n 0). apply submseteq_length.
  apply NoDup_submseteq; [done|]. intros x Hx. apply elem_of_seq.
  specialize (Hlt x Hx). lia.
Qed.

Lemma NoDup_below_full (l : list nat) n v :
  NoDup l → (∀ x, x ∈ l → x < n) → n ≤ length l → v < n → v ∈ l.
Proof.
  intros Hnd Hlt Hlen Hv.
  assert (l ⊆+ seq 0 n) as Hsub.
  { apply NoDup_submseteq; [done|]. intros x Hx. apply elem_of_seq.
    specialize (Hlt x Hx). lia. }
  apply submseteq_length_Permutation in Hsub; [|by rewrite length_seq].
  rewrite Hsub. apply elem_of_seq. lia.
Qed.

Section closure_facts.
Context (g : Graph) (seed_list : list nat).
Hypothesis Hwf : wf_graph g.

Lemma closure_step_NoDup nodes : NoDup nodes → NoDup (nodes ++ fresh_successors g nodes).
Proof.
  intros Hnd. apply NoDup_app. split; [done|]. split.
  - intros x Hx [_ Hn]%list_elem_of_difference. done.
  - apply NoDup_list_difference, NoDup_remove_dups.
Qed.

Lemma closure_NoDup fuel nodes : NoDup nodes → NoDup (closure fuel g nodes).
Proof.
  revert nodes. induction fuel as [|fuel IH]; intros nodes Hnd; cbn [closure];
    [done|].
  destruct (fresh_successors g nodes) eqn:E; [done|].
  apply IH. rewrite <- E. by apply closure_step_NoDup.
Qed.

Lemma closure_extends fuel nodes v : v ∈ nodes → v ∈ closure fuel g nodes.
Proof.
  revert nodes. induction fuel as [|fuel IH]; intros nodes Hv; cbn [closure];
    [done|].
  destruct (fresh_successors g nodes); [done|]. apply IH, elem_of_app. by left.
Qed.

Lemma closure_sound fuel nodes :
  (∀ v, v ∈ nodes → reachable g seed_list v) →
  ∀ v, v ∈ closure fuel g nodes → reachable g seed_list v.
Proof.
  revert nodes. induction fuel as [|fuel IH]; intros nodes Hn; cbn [closure];
    [done|].
  destruct (fresh_successors g nodes) eqn:E; [done|].
  apply IH. rewrite <- E. intros v [Hv|Hv]%elem_of_app; [auto|].
  apply list_elem_of_difference in Hv as [Hv _].
  apply elem_of_remove_dups, elem_of_successors in Hv as (u & e & Hu & He & ->).
  eapply reach_edge; eauto.
Qed.

Lemma closure_closed fuel nodes :
  NoDup nodes → (∀ v, v ∈ nodes → v < num_nodes g) →
  num_nodes g ≤ fuel + length nodes →
  ∀ u e, u ∈ closure fuel g nodes → e ∈ edges_of g u →
         to e ∈ closure fuel g nodes.
Proof.
  revert nodes. induction fuel as [|fuel IH]; intros nodes Hnd Hlt Hlen u e Hu He;
    cbn [closure] in *.
  - eapply NoDup_below_full; eauto using edges_of_in_range.
  - destruct (fresh_successors g nodes) as [|x new] eqn:E.
    + destruct (decide (to e ∈ nodes)) as [|Hn]; [done|].
      assert (to e ∈ fresh_successors g nodes) as Hf.
      { apply list_elem_of_difference. split; [|done].
        apply elem_of_remove_dups, elem_of_successors. eauto. }
      rewrite E in Hf. by apply elem_of_nil in Hf.
    + rewrite <- E in *. eapply IH; eauto.
      * by apply closure_step_NoDup.
      * intros v [Hv|Hv]%elem_of_app; [auto|].
        apply list_elem_of_difference in Hv as [Hv _].
        apply elem_of_remove_dups, elem_of_successors in Hv
          as (u' & e' & _ & He' & ->).
        by eapply edges_of_in_range.
      * rewrite length_app, E. cbn. lia.
Qed.

Hypothesis Hseeds : ∀ s, s ∈ seed_list → s < num_nodes g.

(** [reachable_nodes] lists exactly the reachable nodes, each once. *)
Lemma reachable_nodes_spec :
  NoDup (reachable_nodes g seed_list) ∧
  ∀ v, v ∈ reachable_nodes g seed_list ↔ reachable g seed_list v.
Proof.
  unfold reachable_nodes. split; [apply closure_NoDup, NoDup_remove_dups|].
  intros v. split.
  - apply closure_sound. intros s Hs. rewrite elem_of_remove_dups in Hs.
    by constructor.
  - induction 1 as [s Hs|u e _ IH He].
    + by apply closure_extends, elem_of_remove_dups.
    + eapply closure_closed; eauto using NoDup_remove_dups.
      * intros s Hs. rewrite elem_of_remove_dups in Hs. auto.
      * lia.
Qed.
End closure_facts.
(** ** Sums of values *)

Lemma add_values_shift g t nodes :
  (add_values g t nodes == t + add_values g 0 nodes)%Q.
Proof.
  revert t. induction nodes as [|v nodes IH]; intros t; cbn.
  - ring.
  - rewrite (IH (t + value_of g v)%Q), (IH (0 + value_of g v)%Q). ring.
Qed.

Lemma add_values_snoc g t nodes v :
  add_values g t (nodes ++ [v]) = (add_values g t nodes + value_of g v)%Q.
Proof. unfold add_values. by rewrite fold_left_app. Qed.

Section value_sums.
Context (g : Graph).
Hypothesis Hnonneg : ∀ v, (0 <= value_of g v)%Q.

Lemma add_values_nonneg t nodes : (0 <= t)%Q → (0 <= add_values g t nodes)%Q.
Proof.
  revert t. induction nodes as [|v nodes IH]; intros t Ht; cbn; [done|].
  apply IH. specialize (Hnonneg v). lra.
Qed.

Lemma add_values_submseteq l1 l2 :
  l1 ⊆+ l2 → (add_values g 0 l1 <= add_values g 0 l2)%Q.
Proof.
  induction 1 as [|x l1 l2 _ IH|x y l|x l1 l2 _ IH|l1 l2 l3 _ IH1 _ IH2]; cbn.
  - lra.
  - rewrite (add_values_shift g (0 + value_of g x) l1),
      (add_values_shift g (0 + value_of g x) l2). lra.
  - rewrite (add_values_shift g (0 + value_of g y + value_of g x) l),
      (add_values_shift g (0 + value_of g x + value_of g y) l). lra.
  - rewrite (add_values_shift g (0 + value_of g x) l2).
    specialize (Hnonneg x). lra.
  - lra.
Qed.
End value_sums.

(** ** The rollout stays within the reachable nodes

    The bounds of this section and of the next are bounds of sums formed
    without rounding; what remains of them on binary64 sums is stated with
    the binary64 model, further down. *)

Lemma seen_at_insert ls v w t :
  v < length ls →
  seen_at (<[v := t]> ls) w = if decide (w = v) then t else seen_at ls w.
Proof.
  intros Hv. unfold seen_at. destruct (decide (w = v)) as [->|Hne].
  - by rewrite list_lookup_insert_eq.
  - by rewrite list_lookup_insert_ne.
Qed.

Section rollout_facts.
Context (g : Graph) (seed_list : list nat) (token : Z).
Hypothesis Hwf : wf_graph g.

Lemma activate_inv finished st v rng' :
  rollout_inv g seed_list token finished st →
  v < num_nodes g → reachable g seed_list v →
  seen_at (last_seen st) v ≠ token →
  rollout_inv g seed_list token finished
    {| last_seen := <[v := token]> (last_seen st);
       queue := queue st ++ [v];
       total_value := (total_value st + value_of g v)%Q;
       rng := rng' |}.
Proof.
  intros [Hnd Hn Ht Hl] Hv Hr Hs. split; cbn.
  - rewrite app_assoc. apply NoDup_app. split; [done|]. split.
    + intros x Hx ->%list_elem_of_singleton. by destruct (Hn _ Hx) as (_ & ? & _).
    + apply NoDup_singleton.
  - intros w Hw. rewrite seen_at_insert by lia.
    rewrite app_assoc in Hw. apply elem_of_app in Hw as [Hw|Hw].
    + destruct (Hn _ Hw) as (? & ? & ?). by destruct (decide (w = v)).
    + apply list_elem_of_singleton in Hw as ->. by rewrite decide_True.
  - by rewrite app_assoc, add_values_snoc, Ht.
  - by rewrite length_insert.
Qed.

Lemma rollout_inv_rng finished st rng' :
  rollout_inv g seed_list token finished st →
  rollout_inv g seed_list token finished
    {| last_seen := last_seen st; queue := queue st;
       total_value := total_value st; rng := rng' |}.
Proof. intros [? ? ? ?]. by split. Qed.

Lemma seed_step_inv finished st s :
  s ∈ seed_list → s < num_nodes g →
  rollout_inv g seed_list token finished st →
  rollout_inv g seed_list token finished (seed_step g token st s).
Proof.
  intros Hs Hlt Hinv. unfold seed_step.
  destruct (seen_at (last_seen st) s =? token)%Z eqn:E; [done|].
  apply Z.eqb_neq in E. apply activate_inv; auto. by constructor.
Qed.

Lemma edge_step_inv finished st u e :
  reachable g seed_list u → e ∈ edges_of g u →
  rollout_inv g seed_list token finished st →
  rollout_inv g seed_list token finished (edge_step g token st e).
Proof.
  intros Hu He Hinv. unfold edge_step.
  destruct (seen_at (last_seen st) (to e) =? token)%Z eqn:E; [done|].
  apply Z.eqb_neq in E. unfold dist. destruct (Qle_bool _ _).
  - apply activate_inv; eauto using edges_of_in_range, reach_edge.
  - by apply rollout_inv_rng.
Qed.

Lemma edges_fold_inv finished u es st :
  reachable g seed_list u → (∀ e, e ∈ es → e ∈ edges_of g u) →
  rollout_inv g seed_list token finished st →
  rollout_inv g seed_list token finished (fold_left (edge_step g token) es st).
Proof.
  intros Hu. revert st. induction es as [|e es IH]; intros st Hes Hinv; cbn;
    [done|].
  apply IH; [intros e' He'; apply Hes; by right|].
  eapply edge_step_inv; eauto. apply Hes. by left.
Qed.

Lemma bfs_turn_inv finished st u rest :
  queue st = u :: rest →
  rollout_inv g seed_list token finished st →
  rollout_inv g seed_list token (finished ++ [u]) (bfs_turn g token u rest st).
Proof.
  intros Hq [Hnd Hn Ht Hl]. rewrite Hq in *. unfold bfs_turn.
  assert (reachable g seed_list u) as Hu.
  { apply (Hn u). apply elem_of_app. right. by left. }
  apply (edges_fold_inv _ u); [done|done|].
  split; cbn; rewrite <- ?app_assoc; done.
Qed.

(** [num_nodes g] turns empty the queue: the [while] loop is left because
    its guard is false. *)
Lemma bfs_loop_drains fuel finished st :
  rollout_inv g seed_list token finished st →
  num_nodes g ≤ fuel + length finished →
  queue (bfs_loop fuel g token st) = [] ∧
  ∃ finished', rollout_inv g seed_list token finished' (bfs_loop fuel g token st).
Proof.
  revert finished st. induction fuel as [|fuel IH]; intros finished st Hinv Hlen;
    cbn [bfs_loop].
  - split; [|eauto]. destruct Hinv as [Hnd Hn _ _].
    assert (length (finished ++ queue st) ≤ num_nodes g) as Hle.
    { apply NoDup_below_length; [done|]. intros x Hx. by destruct (Hn x Hx). }
    rewrite length_app in Hle. destruct (queue st); [done|]. cbn in Hle. lia.
  - destruct (queue st) as [|u rest] eqn:Hq; [eauto|].
    apply (IH (finished ++ [u])); [by apply bfs_turn_inv|].
    rewrite length_app. cbn. lia.
Qed.

Hypothesis Hseeds : ∀ s, s ∈ seed_list → s < num_nodes g.

Lemma seeded_inv rng0 ls :
  length ls = num_nodes g →
  rollout_inv g seed_list token [] (seeded g seed_list rng0 ls token).
Proof.
  intros Hls. unfold seeded.
  assert (∀ l st, (∀ s, s ∈ l → s ∈ seed_list) →
    rollout_inv g seed_list token [] st →
    rollout_inv g seed_list token [] (fold_left (seed_step g token) l st)) as H.
  { induction l as [|s l IH]; intros st Hl Hinv; cbn; [done|].
    apply IH; [intros s' Hs'; apply Hl; by right|].
    apply seed_step_inv; auto; [apply Hl; by left|apply Hseeds, Hl; by left]. }
  apply H; [done|]. split; cbn; [constructor| |done|done].
  intros v Hv. by apply elem_of_nil in Hv.
Qed.

Hypothesis Hnonneg : ∀ v, (0 <= value_of g v)%Q.

Lemma rollout_bounds rng0 ls :
  length ls = num_nodes g →
  let st := rollout g seed_list rng0 ls token in
  queue st = [] ∧ length (last_seen st) = num_nodes g ∧
  (0 <= total_value st)%Q ∧ (total_value st <= reach_value g seed_list)%Q.
Proof.
  intros Hls st.
  destruct (bfs_loop_drains (num_nodes g) [] (seeded g seed_list rng0 ls token))
    as (Hq & finished & [Hnd Hn Ht Hl]); [by apply seeded_inv|cbn; lia|].
  fold (rollout g seed_list rng0 ls token) in *. fold st in Hq, Hnd, Hn, Ht, Hl.
  split; [done|]. split; [done|]. rewrite Ht, Hq, app_nil_r in *.
  split; [by apply add_values_nonneg|].
  destruct (reachable_nodes_spec g seed_list Hwf Hseeds) as [_ Hspec].
  apply add_values_submseteq; [done|]. apply NoDup_submseteq; [done|].
  intros v Hv. apply Hspec. by destruct (Hn v Hv) as (_ & _ & ?).
Qed.
End rollout_facts.

(** ** The estimate stays within the same bounds, over exact arithmetic *)

Lemma mc_loop_bounds g seed_list rounds token ls total rng0 :
  wf_graph g → (∀ s, s ∈ seed_list → s < num_nodes g) →
  (∀ v, (0 <= value_of g v)%Q) →
  length ls = num_nodes g →
  let r := (mc_loop rounds g seed_list token ls total rng0).1 in
  (total <= r)%Q ∧
  (r <= total + inject_Z (Z.of_nat rounds) * reach_value g seed_list)%Q.
Proof.
  intros Hwf Hseeds Hnonneg. revert token ls total rng0.
  induction rounds as [|rounds IH]; intros token ls total rng0 Hls;
    cbn [mc_loop].
  - cbn. split; [lra|]. ring_simplify. lra.
  - set (tl := if (next_token token =? 0)%Z then _ else _).
    assert (length tl.2 = num_nodes g) as Hls'.
    { subst tl. destruct (_ =? _)%Z; cbn; [by rewrite length_replicate|done]. }
    destruct tl as [token' ls']. cbn in Hls'.
    unfold run_weighted_simulation_token.
    destruct (rollout_bounds g seed_list token' Hwf Hseeds Hnonneg rng0 ls' Hls')
      as (_ & Hl & H0 & HB).
    specialize (IH token' _ (total + total_value (rollout g seed_list rng0 ls' token'))%Q
      (rng (rollout g seed_list rng0 ls' token')) Hl).
    cbn zeta in IH. destruct IH as [IH1 IH2].
    rewrite Nat2Z.inj_succ, <- Z.add_1_r, inject_Z_plus. cbn zeta.
    split; [lra|]. change (inject_Z 1) with 1%Q.
    set (B := reach_value g seed_list) in *.
    set (m := inject_Z (Z.of_nat rounds)) in *.
    lra.
Qed.

(** ** The statements at concrete inputs *)

Lemma phase2_pop_at_two_nodes :
  pq_pop (pq two_nodes_start) = Some (mkNodeGain 1 (5 / 1) 0, [mkNodeGain 0 (1 / 1) 0]) ∧
  ∃ st', select_loop 1 two_nodes_graph 1 two_nodes_start = (st', true) ∧
         length (seeds st') = 1 ∧ pq st' = [mkNodeGain 0 (1 / 1) 0].
Proof.
  assert (pq_pop (pq two_nodes_start)
          = Some (mkNodeGain 1 (5 / 1) 0, [mkNodeGain 0 (1 / 1) 0])) as Hpop
    by (vm_compute; reflexivity).
  split; [exact Hpop|].
  destruct (phase2_pop_commits_or_refreshes two_nodes_graph 2 1 two_nodes_start
              _ _ 0 Hpop) as (_ & Hcommit & _).
  destruct Hcommit as (st' & Hsel & _ & Hlen & _ & _ & Hpq & _).
  - vm_compute. intros H. by apply elem_of_nil in H.
  - reflexivity.
  - exists st'. split; [exact Hsel|]. split; [exact Hlen|exact Hpq].
Defined.

Lemma exhausted_heap_at_two_nodes :
  let argv := ["prog"; "graph.gexf"; "3"; "value"; "1"]%string in
  let env := sample_env two_nodes_doc in
  let warnings := (parse_content two_nodes_doc "value").2 in
  let st_2 :=
    greedy_loop 2 two_nodes_graph 3 1
      (celf_init two_nodes_graph 1 (single_thread 2) (constant_entropy (1 # 2))
         (banner two_nodes_graph 1) warnings) in
  seeds st_2 = [0; 1] ∧
  (select_loop (select_fuel st_2) two_nodes_graph 1 st_2).2 = false ∧
  status (main argv env) = Exit 0 ∧
  stderr (main argv env) = warnings ++ [WarnExhausted 3 2] ∧
  stdout (main argv env) =
    cout st_2 ++ [Separator; SelectedSeeds ["a"; "b"]%string; Elapsed].
Proof.
  intros argv env warnings st_2.
  assert (seeds st_2 = [0; 1]) as Hseeds by (vm_compute; reflexivity).
  assert ((select_loop (select_fuel st_2) two_nodes_graph 1 st_2).2 = false)
    as Hinner by (vm_compute; reflexivity).
  split; [exact Hseeds|]. split; [exact Hinner|].
  destruct (exhausted_heap_warns_and_exits_0 argv env 3 1 two_nodes_graph
              warnings 2)
    as (_ & _ & _ & _ & _ & _ & Hstatus & Herr & Hout).
  - right. reflexivity.
  - vm_compute. reflexivity.
  - vm_compute. reflexivity.
  - vm_compute. reflexivity.
  - reflexivity.
  - vm_compute. reflexivity.
  - exact Hinner.
  - split; [exact Hstatus|]. split; [exact Herr|].
    etransitivity; [exact Hout|]. vm_compute. reflexivity.
Defined.


Lemma two_node_graph_wf a b p : wf_graph (two_node_graph a b p).
Proof.
  unfold two_node_graph.
  auto using add_edge_wf, set_node_value_wf, wf_empty_graph.
Qed.

(** ** Where the older variant differs *)

(** Its order does not break ties: of two entries with the same gain neither
    is below the other, so which one leaves the heap first is left to the
    heap. *)
Lemma legacy_order_has_no_tie_break :
  Legacy.NodeGain_lt tie0 tie1 = false ∧ Legacy.NodeGain_lt tie1 tie0 = false.
Proof. split; reflexivity. Qed.

(** Its first pass takes a node that has an outgoing edge even when no value
    was assigned to it. *)
Lemma legacy_first_pass_takes_unvalued_node :
  eligible source_only_graph 0 = false ∧
  Legacy.skipped source_only_graph 0 = false ∧
  map node_id
    (Legacy.phase1_step source_only_graph [1] ([], constant_entropy (1 # 2)) 0).1
  = [0].
Proof. vm_compute. repeat split; reflexivity. Qed.

(** Its driver then selects that node, and stops short of [k] without a
    word on either stream: its state has no error stream to write to. *)
Lemma legacy_driver_selects_unvalued_node :
  let st :=
    Legacy.celf_weighted_influence source_only_graph 3 (single_thread 2) [1%nat]
      (constant_entropy (1 # 2)) [] in
  Legacy.seeds st = [0%nat] ∧ eligible source_only_graph 0 = false ∧
  Legacy.pq st = [] ∧
  selection_order (Legacy.cout st) = ["A"%string].
Proof. vm_compute. repeat split; reflexivity. Qed.

(** Its [main] returns 0 when the input file cannot be opened. *)
Lemma legacy_main_returns_0_on_unreadable_file :
  files (sample_env two_nodes_doc) "missing.gexf" = None ∧
  Legacy.main_status ["prog"; "missing.gexf"; "2"; "value"]%string
    (sample_env two_nodes_doc) = Exit 0.
Proof. split; reflexivity. Qed.

(** Its estimator draws its engines from the random device: the same graph
    and seeds give different estimates under different devices. *)
Lemma legacy_estimate_depends_on_the_device :
  ((Legacy.estimate_weighted_spread (two_node_graph 1 1 (1 # 2)) [0%nat] [1000%nat]
      (constant_entropy 0)).1 == 2)%Q ∧
  ((Legacy.estimate_weighted_spread (two_node_graph 1 1 (1 # 2)) [0%nat] [1000%nat]
      (constant_entropy (3 # 4))).1 == 1)%Q.
Proof. split; vm_compute; reflexivity. Qed.
(** ** The fuel of the scans is enough *)

Lemma prefix_length s1 s2 :
  String.prefix s1 s2 = true → String.length s1 ≤ String.length s2.
Proof.
  revert s2. induction s1 as [|c s1 IH]; intros s2 H; cbn; [lia|].
  destruct s2 as [|c' s2]; [done|]. cbn in H.
  destruct (ascii_dec c c'); [|done]. apply IH in H. cbn. lia.
Qed.

Lemma find_bounds needle pos s i :
  find needle pos s = Some i →
  pos ≤ i ∧ i + String.length needle ≤ String.length s.
Proof.
  unfold find. revert pos i. induction s as [|c s IH]; intros pos i H.
  - cbn in H. destruct pos; [|done]. destruct needle; [|done].
    injection H as <-. cbn. lia.
  - cbn [String.index] in H. destruct pos as [|pos].
    + destruct (String.prefix needle (String c s)) eqn:E.
      * injection H as <-. apply prefix_length in E. lia.
      * destruct (String.index 0 needle s) as [j|] eqn:Ej; [|done].
        injection H as <-. apply IH in Ej. cbn. lia.
    + destruct (String.index pos needle s) as [j|] eqn:Ej; [|done].
      injection H as <-. apply IH in Ej. cbn. lia.
Qed.

Lemma find_past_end needle pos s :
  needle ≠ EmptyString → String.length s < pos + String.length needle →
  find needle pos s = None.
Proof.
  intros Hne Hlen. destruct (find needle pos s) as [i|] eqn:E; [|done].
  apply find_bounds in E. lia.
Qed.

Lemma find_char needle pos s i c rest :
  needle = String c rest → find needle pos s = Some i →
  String.get i s = Some c.
Proof.
  intros -> H. apply index_correct1 in H.
  pose proof (substring_correct1 s i (String.length (String c rest)) 0) as Hg.
  rewrite H in Hg. cbn in Hg. symmetry. apply Hg. lia.
Qed.

Lemma find_attribute_fuel content attr fuel fuel' pos :
  String.length content < fuel + pos → String.length content < fuel' + pos →
  find_attribute fuel content attr pos = find_attribute fuel' content attr pos.
Proof.
  revert fuel' pos. induction fuel as [|fuel IH]; intros fuel' pos H H';
    destruct fuel' as [|fuel']; cbn [find_attribute]; try done.
  1,2: rewrite find_past_end; [done|done|cbn; lia].
  destruct (find "<attribute" pos content) as [attr_pos|] eqn:E1; [|done].
  destruct (find ">" attr_pos content) as [end_pos|] eqn:E2; [|done].
  apply find_bounds in E1, E2. destruct (String.eqb _ _); [done|].
  apply IH; lia.
Qed.

Lemma scan_attvalues_fuel block nid tid fuel fuel' p g :
  String.length block < fuel + p → String.length block < fuel' + p →
  scan_attvalues fuel block nid tid p g = scan_attvalues fuel' block nid tid p g.
Proof.
  revert fuel' p g. induction fuel as [|fuel IH]; intros fuel' p g H H';
    destruct fuel' as [|fuel']; cbn [scan_attvalues]; try done.
  1,2: rewrite find_past_end; [done|done|cbn; lia].
  destruct (find "<attvalue" p block) as [av|] eqn:E1; [|done].
  destruct (find ">" av block) as [av_end|] eqn:E2; [|done].
  apply find_bounds in E1, E2. apply IH; lia.
Qed.

Lemma scan_nodes_fuel content tid fuel fuel' pos g :
  String.length content < fuel + pos → String.length content < fuel' + pos →
  scan_nodes fuel content tid pos g = scan_nodes fuel' content tid pos g.
Proof.
  revert fuel' pos g. induction fuel as [|fuel IH]; intros fuel' pos g H H';
    destruct fuel' as [|fuel']; cbn [scan_nodes]; try done.
  1,2: rewrite find_past_end; [done|done|cbn; lia].
  destruct (find "<node" pos content) as [node_pos|] eqn:E1; [|done].
  destruct (find ">" node_pos content) as [node_tag_end|] eqn:E2; [|done].
  assert (node_pos < node_tag_end) as Hlt.
  { pose proof (find_char _ _ _ _ _ _ eq_refl E1) as H1.
    pose proof (find_char _ _ _ _ _ _ eq_refl E2) as H2.
    apply find_bounds in E2. destruct (decide (node_pos = node_tag_end)) as [->|];
      [congruence|lia]. }
  apply find_bounds in E1.
  destruct (match String.get (node_tag_end - 1) content with
            | Some c => Ascii.eqb c "/" | None => false end).
  - apply IH; lia.
  - destruct (find "</node>" (node_tag_end + 1) content) as [close_pos|] eqn:E3;
      [|done].
    apply find_bounds in E3. apply IH; lia.
Qed.

Lemma scan_edges_fuel content fuel fuel' pos g :
  String.length content < fuel + pos → String.length content < fuel' + pos →
  scan_edges fuel content pos g = scan_edges fuel' content pos g.
Proof.
  revert fuel' pos g. induction fuel as [|fuel IH]; intros fuel' pos g H H';
    destruct fuel' as [|fuel']; cbn [scan_edges]; try done.
  1,2: rewrite find_past_end; [done|done|cbn; lia].
  destruct (find "<edge" pos content) as [edge_pos|] eqn:E1; [|done].
  destruct (find ">" edge_pos content) as [edge_end|] eqn:E2; [|done].
  apply find_bounds in E1, E2. apply IH; lia.
Qed.

(** ** The fuel of the loops of the core is enough *)

Lemma bfs_loop_more_fuel fuel fuel' g token st :
  queue (bfs_loop fuel g token st) = [] → fuel ≤ fuel' →
  bfs_loop fuel' g token st = bfs_loop fuel g token st.
Proof.
  revert fuel' st. induction fuel as [|fuel IH]; intros fuel' st Hq Hle.
  - cbn in *. destruct fuel'; cbn; [done|]. by rewrite Hq.
  - destruct fuel' as [|fuel']; [lia|]. cbn [bfs_loop] in *.
    destruct (queue st); [done|]. apply IH; [done|lia].
Qed.

Lemma select_loop_more_fuel fuel fuel' g mc st :
  (select_loop fuel g mc st).2 = true ∨ pq (select_loop fuel g mc st).1 = [] →
  fuel ≤ fuel' →
  select_loop fuel' g mc st = select_loop fuel g mc st.
Proof.
  revert fuel' st. induction fuel as [|fuel IH]; intros fuel' st Hexit Hle.
  - cbn in *. destruct Hexit as [|Hq]; [done|].
    destruct fuel'; cbn; [done|]. by rewrite Hq.
  - destruct fuel' as [|fuel']; [lia|]. cbn [select_loop] in *.
    destruct (pq_pop (pq st)) as [[top rest]|]; [|done].
    destruct (consider g mc top (with_pq rest st)) as [st1 [|]]; [done|].
    apply IH; [done|lia].
Qed.
(** ** The heap holds one entry per candidate *)

Lemma phase1_local_ids g mc chunk (acc : priority_queue * mt19937) :
  map node_id (fold_left (phase1_step g mc) chunk acc).1
  ≡ₚ filter (λ i, eligible g i) chunk ++ map node_id acc.1.
Proof.
  revert acc. induction chunk as [|i chunk IH]; intros acc; cbn [fold_left];
    [done|].
  rewrite IH, filter_cons. unfold phase1_step.
  destruct (eligible g i) eqn:E.
  - destruct (estimate_weighted_spread _ _ _ _) as [spread rng']. cbn.
    rewrite decide_True by done. by rewrite <- Permutation_middle.
  - rewrite decide_False; [done|]. cbn. tauto.
Qed.

Lemma phase1_thread_ids g mc (acc : priority_queue * entropy) chunk :
  map node_id (phase1_thread g mc acc chunk).1
  ≡ₚ filter (λ i, eligible g i) chunk ++ map node_id acc.1.
Proof.
  unfold phase1_thread. destruct (seed_engine acc.2) as [rng0 e']. cbn [fst].
  rewrite drain_perm by done. rewrite map_app, phase1_local_ids. cbn.
  by rewrite app_nil_r.
Qed.

Lemma phase1_threads_ids g mc schedule (acc : priority_queue * entropy) :
  map node_id (fold_left (phase1_thread g mc) schedule acc).1
  ≡ₚ filter (λ i, eligible g i) (concat schedule) ++ map node_id acc.1.
Proof.
  revert acc. induction schedule as [|chunk schedule IH]; intros acc;
    cbn [fold_left concat]; [done|].
  rewrite IH, phase1_thread_ids, filter_app.
  rewrite (Permutation_app_comm (filter _ chunk) (filter _ (concat schedule))).
  by rewrite <- app_assoc.
Qed.

(** Under a schedule that hands out every index once, the first pass leaves
    on the heap exactly one entry for every node whose flag is set. *)
Lemma phase1_one_entry_per_eligible_node g mc schedule e :
  valid_schedule g schedule →
  map node_id (phase1 g mc schedule e).1
  ≡ₚ filter (λ i, eligible g i) (seq 0 (num_nodes g)).
Proof.
  intros Hs. unfold phase1. rewrite phase1_threads_ids. cbn.
  rewrite app_nil_r. by rewrite Hs.
Qed.

Lemma celf_init_distinct g mc schedule e out err :
  valid_schedule g schedule → distinct_ids (celf_init g mc schedule e out err).
Proof.
  intros Hs. unfold distinct_ids, celf_init.
  pose proof (phase1_one_entry_per_eligible_node g mc schedule e Hs) as H.
  destruct (phase1 g mc schedule e) as [heap e1]. cbn in *.
  rewrite app_nil_r, H. apply NoDup_filter, NoDup_seq.
Qed.

Lemma consider_distinct g mc top st :
  NoDup (node_id top :: map node_id (pq st) ++ seeds st) →
  distinct_ids (consider g mc top st).1.
Proof.
  intros Hnd. unfold distinct_ids, consider.
  destruct (set_mem _ _) eqn:Hm; [by apply NoDup_cons in Hnd as [_ ?]|].
  apply set_mem_false in Hm. destruct (_ =? _); cbn.
  - by rewrite (set_insert_perm _ _ Hm), <- Permutation_middle.
  - by destruct (seed_engine (src st)).
Qed.

Lemma select_loop_distinct g mc fuel st :
  distinct_ids st → distinct_ids (select_loop fuel g mc st).1.
Proof.
  revert st. induction fuel as [|fuel IH]; intros st Hst; cbn [select_loop];
    [done|].
  destruct (pq_pop (pq st)) as [[top rest]|] eqn:Hpop; [|done].
  pose proof (consider_distinct g mc top (with_pq rest st)) as Hc.
  unfold distinct_ids in Hst. rewrite (pq_pop_perm _ _ _ Hpop) in Hst.
  specialize (Hc Hst).
  destruct (consider g mc top (with_pq rest st)) as [st1 [|]]; cbn in *; auto.
Qed.

Lemma greedy_loop_distinct g k mc iterations st :
  distinct_ids st → distinct_ids (greedy_loop iterations g k mc st).
Proof.
  revert st. induction iterations as [|it IH]; intros st Hst;
    cbn [greedy_loop]; [done|].
  pose proof (select_loop_distinct g mc (select_fuel st) st Hst) as H.
  destruct (select_loop (select_fuel st) g mc st) as [st' [|]]; cbn in H;
    [by apply IH|exact H].
Qed.

(** When no node has two entries and no gain is NaN (as with the exact
    gains of this model), the popped entry is strictly above every other one
    and does not depend on how the heap lays its entries out.  With a NaN
    among the gains the entry handed out is left to the heap; see
    [any_pop_order] for what holds then. *)
Lemma pq_pop_strictly_greatest pq top rest x :
  NoDup (map node_id pq) → pq_pop pq = Some (top, rest) → x ∈ rest →
  NodeGain_lt x top = true.
Proof.
  intros Hnd Hpop Hx. pose proof (pq_pop_perm _ _ _ Hpop) as Hp.
  rewrite Hp in Hnd. cbn in Hnd. apply NoDup_cons in Hnd as [Hnin _].
  assert (node_id x ≠ node_id top) as Hne.
  { intros Heq. apply Hnin. rewrite <- Heq. by apply list_elem_of_fmap_2. }
  destruct pq as [|y l]; [done|]. cbn in Hpop. injection Hpop as Hex.
  pose proof (pq_extract_greatest y l x) as Hmax. rewrite Hex in Hmax. cbn in Hmax.
  assert (x ∈ y :: l) as Hin by (rewrite Hp; by right).
  apply Hmax, NodeGain_lt_false_iff in Hin. apply NodeGain_lt_iff.
  destruct Hin as [H|[H1 H2]]; [by left|right]. split; [lra|lia].
Qed.

Lemma pq_pop_layout_independent pq pq' top top' rest rest' :
  NoDup (map node_id pq) → pq ≡ₚ pq' →
  pq_pop pq = Some (top, rest) → pq_pop pq' = Some (top', rest') →
  top = top'.
Proof.
  intros Hnd Hperm Hpop Hpop'.
  pose proof (pq_pop_perm _ _ _ Hpop) as Hp.
  pose proof (pq_pop_perm _ _ _ Hpop') as Hp'.
  assert (top' ∈ top :: rest) as Hin.
  { rewrite <- Hp, Hperm, Hp'. by left. }
  apply elem_of_cons in Hin as [->|Hin]; [done|].
  pose proof (pq_pop_strictly_greatest _ _ _ _ Hnd Hpop Hin) as Hlt.
  assert (top ∈ top' :: rest') as Hin'.
  { rewrite <- Hp', <- Hperm, Hp. by left. }
  apply elem_of_cons in Hin' as [->|Hin']; [done|].
  assert (NoDup (map node_id pq')) as Hnd' by by rewrite <- Hperm.
  pose proof (pq_pop_strictly_greatest _ _ _ _ Hnd' Hpop' Hin') as Hlt'.
  apply NodeGain_lt_asym in Hlt. congruence.
Qed.

(** ** A node is eligible exactly when a value was assigned to it *)

Lemma get_internal_id_lookup g s :
  id_map (get_internal_id s g).2 !! s = Some (get_internal_id s g).1.
Proof.
  unfold get_internal_id. destruct (id_map g !! s) eqn:E; cbn; [done|].
  apply lookup_insert_eq.
Qed.

Lemma get_internal_id_keeps g s s' i :
  id_map g !! s' = Some i → id_map (get_internal_id s g).2 !! s' = Some i.
Proof.
  intros H. unfold get_internal_id. destruct (id_map g !! s) eqn:E; cbn; [done|].
  rewrite lookup_insert_ne; [done|]. intros ->. congruence.
Qed.

Lemma apply_op_wf g o : wf_graph g → wf_graph (apply_op g o).
Proof.
  destruct o; cbn; auto using add_edge_wf, set_node_value_wf.
  intros H. by apply get_internal_id_wf.
Qed.

Lemma build_snoc ops o : build (ops ++ [o]) = apply_op (build ops) o.
Proof. unfold build. by rewrite fold_left_app. Qed.

Lemma build_wf ops : wf_graph (build ops).
Proof.
  induction ops as [|o ops IH] using rev_ind; [apply wf_empty_graph|].
  rewrite build_snoc. by apply apply_op_wf.
Qed.

Lemma apply_op_keeps g o s i :
  id_map g !! s = Some i → id_map (apply_op g o) !! s = Some i.
Proof.
  intros H. destruct o as [s1|s1 x|s1 t1 p]; cbn.
  - by apply get_internal_id_keeps.
  - unfold set_node_value.
    pose proof (get_internal_id_keeps g s1 s i H) as H1.
    by destruct (get_internal_id s1 g).
  - unfold add_edge.
    pose proof (get_internal_id_keeps g s1 s i H) as H1.
    destruct (get_internal_id s1 g) as [u g1]. cbn in H1.
    pose proof (get_internal_id_keeps g1 t1 s i H1) as H2.
    by destruct (get_internal_id t1 g1).
Qed.

Lemma apply_op_eligible g o i :
  wf_graph g →
  eligible (apply_op g o) i =
  match o with
  | SetValue s _ =>
      if decide (i = (get_internal_id s g).1) then true else eligible g i
  | _ => eligible g i
  end.
Proof.
  intros Hwf. destruct o; cbn.
  - by apply get_internal_id_eligible.
  - by apply set_node_value_eligible.
  - by apply add_edge_eligible.
Qed.

Lemma set_node_value_lookup g s x :
  id_map (set_node_value s x g) !! s = Some (get_internal_id s g).1.
Proof.
  unfold set_node_value. pose proof (get_internal_id_lookup g s) as H.
  by destruct (get_internal_id s g).
Qed.

(** In a graph built by the calls [ops], the flag of node [i] is set exactly
    when some call assigned a value to the external id that [i] stands for. *)
Lemma build_eligible ops i :
  eligible (build ops) i = true ↔
  ∃ s x, SetValue s x ∈ ops ∧ id_map (build ops) !! s = Some i.
Proof.
  revert i. induction ops as [|o ops IH] using rev_ind; intros i.
  - split; [done|]. intros (s & x & H & _). by apply elem_of_nil in H.
  - rewrite build_snoc, apply_op_eligible by apply build_wf. split.
    + intros H.
      assert (eligible (build ops) i = true → ∃ s x,
        SetValue s x ∈ ops ++ [o] ∧ id_map (apply_op (build ops) o) !! s = Some i)
        as Hold.
      { intros (s & x & Hin & Hl)%IH. exists s, x.
        split; [apply elem_of_app; by left|by apply apply_op_keeps]. }
      destruct o as [s1|s1 x1|s1 t1 p]; auto.
      destruct (decide _) as [->|]; auto.
      exists s1, x1. split; [apply elem_of_app; right; by left|].
      apply set_node_value_lookup.
    + intros (s & x & Hin & Hl). apply elem_of_app in Hin as [Hin|Hin].
      * assert (is_Some (id_map (build ops) !! s)) as [j Hj].
        { clear -Hin. induction ops as [|o' ops IH'] using rev_ind;
            [by apply elem_of_nil in Hin|].
          rewrite build_snoc. apply elem_of_app in Hin as [Hin|Hin].
          - destruct (IH' Hin) as [j Hj]. exists j. by apply apply_op_keeps.
          - apply list_elem_of_singleton in Hin. subst o'. eexists.
            apply set_node_value_lookup. }
        pose proof (apply_op_keeps _ o _ _ Hj) as Hj'.
        assert (j = i) as -> by congruence.
        assert (eligible (build ops) i = true) as He by (apply IH; eauto).
        destruct o; auto. by destruct (decide _).
      * apply list_elem_of_singleton in Hin. subst o. cbn [apply_op] in Hl.
        rewrite set_node_value_lookup in Hl. injection Hl as <-.
        by rewrite decide_True.
Qed.

(** The parser only ever acts on the graph through these calls. *)
Lemma parse_content_is_build content attr_name :
  ∃ ops, (parse_content content attr_name).1 = build ops.
Proof.
  apply (parse_content_inv (λ g, ∃ ops, g = build ops) (λ _, True)); auto.
  - intros s g [ops ->]. exists (ops ++ [Intern s]). by rewrite build_snoc.
  - intros s x g [ops ->]. exists (ops ++ [SetValue s x]). by rewrite build_snoc.
  - intros s t p g _ [ops ->]. exists (ops ++ [AddEdge s t p]).
    by rewrite build_snoc.
  - by exists [].
Qed.
(** ** Runs of the whole program *)

(** A single isolated eligible node and [k = 2]: one seed, the warning, and
    exit code 0. *)
Example run_on_isolated_node :
  main ["prog"; "graph.gexf"; "2"; "value"; "1"]%string (sample_env isolated_node_doc)
  = {| status := Exit 0;
       stdout := [ParsingGEXF; Nodes 3; EligibleSeeds 1; RunningCELF 1;
                  InitializingCELF 3; SelectedNode "A" 7 (7 / 1) (0 + 7 / 1);
                  Separator; SelectedSeeds ["A"%string]; Elapsed];
       stderr := [FoundAttributeID "value" "0"; WarnExhausted 2 1] |}.
Proof. vm_compute. reflexivity. Qed.

(** An attribute that the file does not define: the warning of the parser,
    no eligible node, no seed. *)
Example run_without_attribute :
  main ["prog"; "graph.gexf"; "1"; "score"]%string (sample_env two_nodes_doc)
  = {| status := Exit 0;
       stdout := [ParsingGEXF; Nodes 2; EligibleSeeds 0;
                  RunningCELF DEFAULT_MC_ROUNDS; InitializingCELF 2;
                  Separator; SelectedSeeds []; Elapsed];
       stderr := [WarnAttributeNotFound "score"; WarnExhausted 1 0] |}.
Proof. vm_compute. reflexivity. Qed.

(** A certain edge from [A] to [B]: the spread of [A] counts both nodes. *)
Example certain_edge_spread :
  ((estimate_weighted_spread (two_node_graph 1 1 1) [0%nat] 5
      (constant_engine (1 # 2))).1 == 2)%Q.
Proof. vm_compute. reflexivity. Qed.

(** Wrong arity and an unreadable file both end with code 1. *)
Example run_with_wrong_arity :
  main ["prog"; "graph.gexf"; "2"]%string (sample_env two_nodes_doc)
  = {| status := Exit 1; stdout := []; stderr := [Usage "prog"] |}.
Proof. reflexivity. Qed.

Example run_on_unreadable_file :
  main ["prog"; "missing.gexf"; "2"; "value"]%string (sample_env two_nodes_doc)
  = {| status := Exit 1; stdout := [ParsingGEXF];
       stderr := [Error "Cannot open file"] |}.
Proof. reflexivity. Qed.

(** * Further properties of the code *)

(** ** The graph interface *)

Lemma get_internal_id_known g s i :
  id_map g !! s = Some i → get_internal_id s g = (i, g).
Proof. intros H. unfold get_internal_id. by rewrite H. Qed.

Lemma ids_consistent_empty : ids_consistent empty_graph.
Proof. intros s i. cbn. by rewrite lookup_empty, lookup_nil. Qed.

Lemma get_internal_id_consistent g s :
  ids_consistent g → ids_consistent (get_internal_id s g).2.
Proof.
  intros Hc. unfold get_internal_id. destruct (id_map g !! s) as [j|] eqn:Hs;
    cbn; [done|]. unfold ids_consistent in Hc.
  intros s' i. cbn. rewrite lookup_insert.
  destruct (decide (s = s')) as [<-|Hne].
  - split.
    + intros [= <-]. by rewrite lookup_app_r, Nat.sub_diag.
    + intros Hi. f_equal. apply lookup_app_Some in Hi as [Hi|[Hge Hi]].
      * apply Hc in Hi. congruence.
      * apply list_lookup_singleton_Some in Hi as [Hi _]. lia.
  - rewrite Hc. split.
    + intros Hi. by apply lookup_app_l_Some.
    + intros Hi. apply lookup_app_Some in Hi as [Hi|[Hge Hi]]; [done|].
      apply list_lookup_singleton_Some in Hi as [_ Hi]. congruence.
Qed.

Lemma apply_op_consistent g o : ids_consistent g → ids_consistent (apply_op g o).
Proof.
  intros Hc. destruct o as [s|s x|s t p]; cbn.
  - by apply get_internal_id_consistent.
  - unfold set_node_value.
    pose proof (get_internal_id_consistent g s Hc) as H.
    by destruct (get_internal_id s g).
  - unfold add_edge.
    pose proof (get_internal_id_consistent g s Hc) as H.
    destruct (get_internal_id s g) as [u g1]. cbn in H.
    pose proof (get_internal_id_consistent g1 t H) as H'.
    by destruct (get_internal_id t g1).
Qed.

Lemma build_consistent ops : ids_consistent (build ops).
Proof.
  induction ops as [|o ops IH] using rev_ind; [apply ids_consistent_empty|].
  rewrite build_snoc. by apply apply_op_consistent.
Qed.

(** X1. In a graph built through the interface, [get_internal_id] gives an
    external id the index under which [reverse_id_map] holds that very id; a
    known id keeps its index and leaves the graph as it is, an unknown one
    gets the next free index [num_nodes g] and the graph grows by exactly one
    node; asking again changes nothing; and two external ids never share an
    index. *)
Theorem interning_round_trips (ops : list build_op) (s s' : string) :
  let g := build ops in
  let r := get_internal_id s g in
  external_id r.2 r.1 = s ∧
  get_internal_id s r.2 = r ∧
  (is_Some (id_map g !! s) → r.2 = g) ∧
  (id_map g !! s = None → r.1 = num_nodes g ∧ num_nodes r.2 = S (num_nodes g)) ∧
  (s ≠ s' → (get_internal_id s' r.2).1 ≠ r.1).
Proof.
  intros g r.
  pose proof (build_consistent ops) as Hc. fold g in Hc.
  pose proof (get_internal_id_consistent g s Hc) as Hc'. fold r in Hc'.
  pose proof (get_internal_id_lookup g s) as Hl. fold r in Hl.
  split; [|split; [|split; [|split]]].
  - unfold external_id. apply Hc' in Hl. by rewrite Hl.
  - rewrite (get_internal_id_known _ _ _ Hl). by destruct r.
  - intros [i Hi]. subst r. by rewrite (get_internal_id_known _ _ _ Hi).
  - intros Hn. subst r. unfold get_internal_id, num_nodes. rewrite Hn. cbn.
    split; [done|]. rewrite length_app. cbn. lia.
  - intros Hne Heq.
    pose proof (get_internal_id_lookup r.2 s') as Hl'.
    pose proof (get_internal_id_keeps r.2 s' s _ Hl) as Hk.
    pose proof (get_internal_id_consistent r.2 s' Hc') as Hc''.
    rewrite Heq in Hl'. apply Hc'' in Hl', Hk. congruence.
Qed.

Lemma lookup_snoc_default {A} (l : list A) (d : A) i :
  default d ((l ++ [d]) !! i) = default d (l !! i).
Proof.
  destruct (decide (i < length l)) as [Hlt|Hge].
  - by rewrite lookup_app_l.
  - rewrite lookup_app_r by lia. rewrite (lookup_ge_None_2 l) by lia.
    by destruct (i - length l).
Qed.

Lemma get_internal_id_reads g s i :
  wf_graph g →
  value_of (get_internal_id s g).2 i = value_of g i ∧
  edges_of (get_internal_id s g).2 i = edges_of g i ∧
  eligible (get_internal_id s g).2 i = eligible g i.
Proof.
  intros Hwf. destruct (id_map g !! s) as [j|] eqn:Hs.
  - unfold get_internal_id. by rewrite Hs.
  - rewrite get_internal_id_fresh by done.
    unfold value_of, edges_of, eligible. cbn.
    by rewrite !lookup_snoc_default.
Qed.

(** X2. [set_node_value] on a graph built through the interface: the node
    of the given external id then has the given value and is eligible, every
    other node keeps its value and its flag, no adjacency list changes, and
    a second assignment to the same id replaces the value (the last one
    wins). *)
Theorem set_node_value_writes_one_node (ops : list build_op) (s : string)
    (x y : Q) (j : nat) :
  let g := build ops in
  let i := (get_internal_id s g).1 in
  let g' := set_node_value s x g in
  value_of g' i = x ∧ eligible g' i = true ∧ external_id g' i = s ∧
  (j ≠ i → value_of g' j = value_of g j ∧ eligible g' j = eligible g j) ∧
  edges_of g' j = edges_of g j ∧
  value_of (set_node_value s y g') i = y.
Proof.
  intros g i g'. pose proof (build_wf ops) as Hwf. fold g in Hwf.
  destruct (get_internal_id_reads g s j Hwf) as (Hv & He & Hel).
  pose proof (get_internal_id_wf g s Hwf) as [Hwf1 Hlt]. fold i in Hlt.
  assert (wf_graph g') as Hwf' by by apply set_node_value_wf.
  assert (id_map g' !! s = Some i) as Hid by apply set_node_value_lookup.
  assert (external_id g' i = s) as Hext.
  { pose proof (build_consistent (ops ++ [SetValue s x])) as Hc.
    rewrite build_snoc in Hc. cbn in Hc. fold g in Hc. fold g' in Hc.
    unfold external_id. apply Hc in Hid. by rewrite Hid. }
  assert (∀ z g0, wf_graph g0 → id_map g0 !! s = Some i →
          value_of (set_node_value s z g0) i = z) as Hset.
  { intros z g0 Hwf0 Hi. unfold set_node_value.
    rewrite (get_internal_id_known _ _ _ Hi). unfold value_of. cbn.
    rewrite list_lookup_insert_eq; [done|].
    rewrite (wf_val_len _ Hwf0). by eapply wf_ids. }
  split; [|split; [|split; [|split; [|split]]]]; try done.
  - subst g' i. unfold set_node_value.
    destruct (get_internal_id s g) as [u g1]. unfold value_of. cbn in *.
    rewrite list_lookup_insert_eq; [done|]. by rewrite (wf_val_len _ Hwf1).
  - subst g'. rewrite set_node_value_eligible by done. fold i.
    by rewrite decide_True.
  - intros Hne. subst g'. rewrite set_node_value_eligible by done. fold i.
    rewrite decide_False by done. split; [|done].
    subst i. unfold set_node_value.
    destruct (get_internal_id s g) as [u g1]. unfold value_of in *. cbn in *.
    by rewrite list_lookup_insert_ne.
  - subst g'. unfold set_node_value.
    by destruct (get_internal_id s g) as [u g1].
  - by apply Hset.
Qed.

(** X3. [add_edge] on a graph built through the interface: the edge is put
    at the end of the adjacency list of its source, after the edges already
    there (parallel edges are kept), with the index of its target and the
    probability given; no other adjacency list, no value and no flag
    changes; both endpoints are valid nodes carrying the external ids
    given. *)
Theorem add_edge_appends_one_edge (ops : list build_op) (s t : string) (p : Q)
    (j : nat) :
  let g := build ops in
  let u := (get_internal_id s g).1 in
  let v := (get_internal_id t (get_internal_id s g).2).1 in
  let g' := add_edge s t p g in
  edges_of g' u = edges_of g u ++ [mkEdge v p] ∧
  (j ≠ u → edges_of g' j = edges_of g j) ∧
  value_of g' j = value_of g j ∧ eligible g' j = eligible g j ∧
  u < num_nodes g' ∧ v < num_nodes g' ∧
  external_id g' u = s ∧ external_id g' v = t.
Proof.
  intros g. cbv zeta. pose proof (build_wf ops) as Hwf. fold g in Hwf.
  pose proof (build_consistent (ops ++ [AddEdge s t p])) as Hc.
  rewrite build_snoc in Hc. cbn [apply_op] in Hc. fold g in Hc.
  pose proof (get_internal_id_wf g s Hwf) as [Hwf1 Hu].
  pose proof (get_internal_id_lookup g s) as Hls.
  pose proof (λ i, get_internal_id_reads g s i Hwf) as Hr1.
  unfold add_edge in *. destruct (get_internal_id s g) as [u g1]. cbn [fst snd] in *.
  pose proof (get_internal_id_wf g1 t Hwf1) as [Hwf2 Hv].
  pose proof (get_internal_id_lookup g1 t) as Hlt.
  pose proof (get_internal_id_keeps g1 t s u Hls) as Hls2.
  pose proof (λ i, get_internal_id_reads g1 t i Hwf1) as Hr2.
  destruct (get_internal_id t g1) as [v g2]. cbn [fst snd] in *.
  assert (u < num_nodes g2) as Hu2 by (by eapply wf_ids).
  destruct (Hr1 j) as (Hv1 & He1 & Hl1), (Hr2 j) as (Hv2 & He2 & Hl2).
  destruct (Hr1 u) as (_ & Heu1 & _), (Hr2 u) as (_ & Heu2 & _).
  unfold ids_consistent in Hc. cbn in Hc.
  split; [|split; [|split; [|split; [|split; [|split; [|split]]]]]].
  - rewrite <- Heu1, <- Heu2. unfold edges_of. cbn.
    rewrite list_lookup_alter_eq.
    destruct (adj g2 !! u) as [es|] eqn:Hes; [done|].
    apply lookup_ge_None in Hes. rewrite (wf_adj_len _ Hwf2) in Hes. lia.
  - intros Hne. rewrite <- He1, <- He2. unfold edges_of. cbn.
    by rewrite list_lookup_alter_ne.
  - unfold value_of in *. cbn. congruence.
  - unfold eligible in *. cbn. congruence.
  - done.
  - done.
  - unfold external_id. cbn. apply Hc in Hls2. by rewrite Hls2.
  - unfold external_id. cbn. apply Hc in Hlt. by rewrite Hlt.
Qed.

(** ** The parser *)

Lemma ids_consistent_NoDup g : ids_consistent g → NoDup (reverse_id_map g).
Proof.
  intros Hc. apply NoDup_alt. intros i j s Hi Hj.
  apply Hc in Hi, Hj. congruence.
Qed.

(** X4. Whatever the text of the file, the graph the parser returns is well
    formed: the adjacency, value and flag vectors have one entry per node,
    every edge ends in a valid node, the two id tables mirror each other, no
    external id is listed twice, and only valid nodes are eligible. *)
Theorem parsed_graph_is_consistent (content attr_name : string) (i : nat) :
  let g := (parse_content content attr_name).1 in
  wf_graph g ∧ ids_consistent g ∧ NoDup (reverse_id_map g) ∧
  (eligible g i = true → i < num_nodes g) ∧
  (∀ e, e ∈ edges_of g i → to e < num_nodes g).
Proof.
  intros g. destruct (parse_content_is_build content attr_name) as [ops Hops].
  fold g in Hops. rewrite Hops.
  pose proof (build_wf ops) as Hwf. pose proof (build_consistent ops) as Hc.
  split; [done|]. split; [done|]. split; [by apply ids_consistent_NoDup|].
  split.
  - unfold eligible. intros He.
    destruct (has_value (build ops) !! i) as [b|] eqn:Hb; [|done].
    apply lookup_lt_Some in Hb. by rewrite (wf_has_len _ Hwf) in Hb.
  - intros e He. by eapply edges_of_in_range.
Qed.

Lemma filter_none {A} (P : A → Prop) `{∀ x, Decision (P x)} (l : list A) :
  (∀ x, x ∈ l → ¬ P x) → filter P l = [].
Proof.
  induction l as [|x l IH]; intros Hl; [done|].
  rewrite filter_cons, decide_False by (apply Hl; by left).
  apply IH. intros y Hy. apply Hl. by right.
Qed.

Lemma scan_attvalues_no_target fuel block nid p g :
  scan_attvalues fuel block nid EmptyString p g = g.
Proof.
  revert p g. induction fuel as [|fuel IH]; intros p g; cbn [scan_attvalues];
    [done|].
  destruct (find "<attvalue" p block) as [av|]; [|done].
  destruct (find ">" av block) as [av_end|]; [|done].
  cbn. apply IH.
Qed.

Lemma add_edge_reads g s t p i :
  wf_graph g →
  value_of (add_edge s t p g) i = value_of g i ∧
  eligible (add_edge s t p g) i = eligible g i.
Proof.
  intros Hwf. split; [|by apply add_edge_eligible].
  unfold add_edge.
  destruct (get_internal_id_reads g s i Hwf) as (H1 & _ & _).
  pose proof (get_internal_id_wf g s Hwf) as [Hwf1 _].
  destruct (get_internal_id s g) as [u g1]. cbn in *.
  destruct (get_internal_id_reads g1 t i Hwf1) as (H2 & _ & _).
  destruct (get_internal_id t g1) as [v g2]. cbn in *.
  unfold value_of in *. cbn. congruence.
Qed.

Lemma scan_nodes_no_target fuel content pos g :
  wf_graph g → (∀ i, eligible g i = false ∧ value_of g i = 0%Q) →
  let g' := scan_nodes fuel content EmptyString pos g in
  wf_graph g' ∧ ∀ i, eligible g' i = false ∧ value_of g' i = 0%Q.
Proof.
  revert pos g. induction fuel as [|fuel IH]; intros pos g Hwf Hg;
    cbn [scan_nodes]; [done|].
  destruct (find "<node" pos content) as [node_pos|]; [|done].
  destruct (find ">" node_pos content) as [node_tag_end|]; [|done].
  destruct (if match String.get (node_tag_end - 1) content with
               | Some c => Ascii.eqb c "/" | None => false end
            then Some node_tag_end
            else match find "</node>" (node_tag_end + 1) content with
                 | Some close_pos => Some (close_pos + 7)
                 | None => None
                 end) as [node_block_end|]; [|done].
  destruct (negb (is_empty _)); [|by apply IH].
  match goal with |- context [get_internal_id ?s g] =>
    pose proof (get_internal_id_wf g s Hwf) as [Hwf1 _];
    pose proof (λ i, get_internal_id_reads g s i Hwf) as Hr;
    destruct (get_internal_id s g) as [u g1] end.
  rewrite scan_attvalues_no_target. cbn in *. apply IH; [done|].
  intros i. destruct (Hr i) as (Hv & _ & He), (Hg i). split; congruence.
Qed.

(** X5. When no [<attribute] of the file has the requested title (or the
    one that has it carries no id), the parser warns on the error stream as
    its last line there, still reads the nodes and edges, and assigns no
    value: no node of the graph is eligible and every value is 0. *)
Theorem parse_without_attribute_assigns_nothing (content attr_name : string)
    (i : nat) :
  (find_attribute (S (String.length content)) content attr_name 0).1
    = EmptyString →
  let g := (parse_content content attr_name).1 in
  let err := (parse_content content attr_name).2 in
  last err = Some (WarnAttributeNotFound attr_name) ∧
  eligible g i = false ∧ value_of g i = 0%Q ∧ count_eligible g = 0.
Proof.
  intros Hnone. unfold parse_content.
  destruct (find_attribute _ _ _ _) as [tid found]. cbn in Hnone. subst tid.
  cbn [is_empty String.eqb fst snd]. split; [by rewrite last_snoc|].
  set (g1 := scan_nodes _ _ _ _ _).
  assert (wf_graph g1 ∧ ∀ j, eligible g1 j = false ∧ value_of g1 j = 0%Q)
    as Hg1.
  { apply scan_nodes_no_target; [apply wf_empty_graph|].
    intros j. unfold eligible, value_of. cbn. by rewrite !lookup_nil. }
  set (g := scan_edges _ _ _ _).
  assert (wf_graph g ∧ ∀ j, eligible g j = false ∧ value_of g j = 0%Q)
    as [Hwf Hg].
  { apply (scan_edges_inv
      (λ g, wf_graph g ∧ ∀ j, eligible g j = false ∧ value_of g j = 0%Q)
      (λ _, True)); auto.
    intros s t p g0 _ [Hwf0 H0]. split; [by apply add_edge_wf|].
    intros j. destruct (add_edge_reads g0 s t p j Hwf0) as [-> ->]. apply H0. }
  destruct (Hg i) as [He Hv]. split; [done|]. split; [done|].
  unfold count_eligible. rewrite filter_none; [done|].
  intros j _ Hj. destruct (Hg j) as [Hej _]. by rewrite Hej in Hj.
Qed.

Lemma parse_without_attribute_at_two_nodes :
  (find_attribute (S (String.length two_nodes_doc)) two_nodes_doc "score" 0).1
    = EmptyString ∧
  count_eligible (parse_content two_nodes_doc "score").1 = 0 ∧
  num_nodes (parse_content two_nodes_doc "score").1 = 2.
Proof.
  assert ((find_attribute (S (String.length two_nodes_doc)) two_nodes_doc
             "score" 0).1 = EmptyString) as H by (vm_compute; reflexivity).
  split; [exact H|].
  split; [|vm_compute; reflexivity].
  exact (proj2 (proj2 (proj2
    (parse_without_attribute_assigns_nothing two_nodes_doc "score" 0 H)))).
Defined.

(** ** The driver *)

Lemma consider_count g mc top st :
  node_id top ∉ seeds st →
  length (pq (consider g mc top st).1) + length (seeds (consider g mc top st).1)
  = S (length (pq st) + length (seeds st)).
Proof.
  intros Hm. unfold consider. apply set_mem_false in Hm as Hm'. rewrite Hm'.
  destruct (_ =? _); cbn.
  - rewrite set_insert_length by done. lia.
  - by destruct (seed_engine (src st)).
Qed.

Lemma select_loop_count g mc fuel st :
  distinct_ids st →
  length (pq (select_loop fuel g mc st).1) +
  length (seeds (select_loop fuel g mc st).1)
  = length (pq st) + length (seeds st).
Proof.
  revert st. induction fuel as [|fuel IH]; intros st Hst; cbn [select_loop];
    [done|].
  destruct (pq_pop (pq st)) as [[top rest]|] eqn:Hpop; [|done].
  pose proof (pq_pop_length _ _ _ Hpop) as Hlen.
  unfold distinct_ids in Hst. rewrite (pq_pop_perm _ _ _ Hpop) in Hst.
  pose proof (consider_distinct g mc top (with_pq rest st) Hst) as Hd.
  assert (node_id top ∉ seeds st) as Hm.
  { cbn in Hst. apply NoDup_cons in Hst as [Hn _]. intros H. apply Hn.
    apply elem_of_app. by right. }
  pose proof (consider_count g mc top (with_pq rest st) Hm) as Hc.
  destruct (consider g mc top (with_pq rest st)) as [st1 [|]]; cbn in *.
  - lia.
  - rewrite IH by done. lia.
Qed.

Lemma greedy_loop_count g k mc iterations st :
  distinct_ids st →
  length (pq (greedy_loop iterations g k mc st)) +
  length (seeds (greedy_loop iterations g k mc st))
  = length (pq st) + length (seeds st).
Proof.
  revert st. induction iterations as [|it IH]; intros st Hst;
    cbn [greedy_loop]; [done|].
  pose proof (select_loop_count g mc (select_fuel st) st Hst) as Hc.
  pose proof (select_loop_distinct g mc (select_fuel st) st Hst) as Hd.
  destruct (select_loop (select_fuel st) g mc st) as [st' [|]]; cbn in *.
  - rewrite IH by done. lia.
  - lia.
Qed.

Lemma celf_counts (g : Graph) (k mc_rounds : Z)
    (schedule : list (list nat)) (e : entropy) (out err : list line) :
  valid_schedule g schedule →
  let st := celf_weighted_influence g k mc_rounds schedule e out err in
  length (seeds st) = Z.to_nat k `min` count_eligible g ∧
  length (pq st) = count_eligible g - length (seeds st) ∧
  cerr st = (if decide (count_eligible g < Z.to_nat k)
             then err ++ [WarnExhausted k (count_eligible g)] else err).
Proof.
  intros Hs st.
  set (st0 := celf_init g mc_rounds schedule e out err).
  pose proof (celf_init_distinct g mc_rounds schedule e out err Hs) as Hd.
  fold st0 in Hd.
  pose proof (greedy_loop_count g k mc_rounds (Z.to_nat k) st0 Hd) as Hcount.
  pose proof (greedy_loop_facts g k mc_rounds (Z.to_nat k) st0) as (_ & _ & Hf).
  cbn zeta in Hf. subst st. unfold celf_weighted_influence. fold st0.
  set (st := greedy_loop (Z.to_nat k) g k mc_rounds st0) in *.
  assert (seeds st0 = [] ∧ cerr st0 = err ∧ length (pq st0) = count_eligible g)
    as (Hs0 & He0 & Hp0).
  { subst st0. unfold celf_init.
    pose proof (phase1_one_entry_per_eligible_node g mc_rounds schedule e Hs) as Hp.
    destruct (phase1 g mc_rounds schedule e) as [heap e1]. cbn in *.
    split; [done|]. split; [done|]. unfold count_eligible.
    by rewrite <- Hp, length_map. }
  rewrite Hs0, He0, Hp0 in *. cbn [length] in *.
  destruct Hf as [[Hlen Herr]|(Hlen & Hpq & Herr)].
  - rewrite decide_False by lia. split; [lia|]. split; [lia|done].
  - rewrite Hpq in Hcount. cbn in Hcount. rewrite decide_True by lia.
    split; [lia|]. split; [rewrite Hpq; cbn; lia|].
    rewrite Herr. by replace (length (seeds st)) with (count_eligible g) by lia.
Qed.

(** X6. Under a schedule that hands every loop index to one thread, the
    driver returns exactly [min k E] seeds, where [E] is the number of
    eligible nodes (none for [k <= 0]); the candidates not selected are
    still on the heap; and the warning is written exactly when [k] exceeds
    [E], naming [E] as the number selected. *)
Theorem driver_selects_min_k_eligible (g : Graph) (k mc_rounds : Z)
    (schedule : list (list nat)) (e : entropy) (out err : list line) :
  valid_schedule g schedule →
  let st := celf_weighted_influence g k mc_rounds schedule e out err in
  length (seeds st) = Z.to_nat k `min` count_eligible g ∧
  length (pq st) = count_eligible g - length (seeds st) ∧
  cerr st = (if decide (count_eligible g < Z.to_nat k)
             then err ++ [WarnExhausted k (count_eligible g)] else err).
Proof. apply celf_counts. Qed.

Lemma driver_count_at_two_nodes :
  valid_schedule two_nodes_graph (single_thread 2) ∧
  length (seeds (celf_weighted_influence two_nodes_graph 5 1 (single_thread 2)
                   (constant_entropy (1 # 2)) [] [])) = 2.
Proof.
  assert (valid_schedule two_nodes_graph (single_thread 2)) as H.
  { unfold valid_schedule, single_thread. cbn [concat]. rewrite app_nil_r.
    reflexivity. }
  split; [exact H|].
  exact (proj1 (driver_selects_min_k_eligible two_nodes_graph 5 1
                  (single_thread 2) (constant_entropy (1 # 2)) [] [] H)).
Defined.

Lemma running_sums_snoc acc l x :
  running_sums acc (l ++ [x]) =
  running_sums acc l ++ [(fold_left Qplus l acc + x)%Q].
Proof.
  revert acc. induction l as [|y l IH]; intros acc; cbn; [done|].
  by rewrite IH.
Qed.

Lemma consider_accounted g mc top st out0 gs :
  accounted out0 gs st →
  ∃ gs', accounted out0 gs' (consider g mc top st).1.
Proof.
  intros (Hg & Hr & Hc & Hl). unfold consider.
  destruct (set_mem _ _) eqn:Hm.
  { exists gs. by split. }
  apply set_mem_false in Hm. destruct (_ =? _).
  - exists (gs ++ [marginal_gain top]). unfold accounted, logged_gains,
      logged_reach in *. cbn [fst cout current_val seeds].
    rewrite !omap_app, Hg, Hr, running_sums_snoc, fold_left_app, <- !app_assoc.
    cbn. rewrite Hc, length_app, set_insert_length by done. cbn.
    repeat split; try done. lia.
  - destruct (seed_engine (src st)). exists gs. by split.
Qed.

Lemma select_loop_accounted g mc fuel st out0 gs :
  accounted out0 gs st →
  ∃ gs', accounted out0 gs' (select_loop fuel g mc st).1.
Proof.
  revert st gs. induction fuel as [|fuel IH]; intros st gs Hacc;
    cbn [select_loop]; [eauto|].
  destruct (pq_pop (pq st)) as [[top rest]|]; [|eauto].
  destruct (consider_accounted g mc top (with_pq rest st) out0 gs Hacc)
    as [gs' Hacc'].
  destruct (consider g mc top (with_pq rest st)) as [st1 [|]]; cbn in *; eauto.
Qed.

Lemma greedy_loop_accounted g k mc iterations st out0 gs :
  accounted out0 gs st →
  ∃ gs', accounted out0 gs' (greedy_loop iterations g k mc st).
Proof.
  revert st gs. induction iterations as [|it IH]; intros st gs Hacc;
    cbn [greedy_loop]; [eauto|].
  destruct (select_loop_accounted g mc (select_fuel st) st out0 gs Hacc)
    as [gs' Hacc'].
  destruct (select_loop (select_fuel st) g mc st) as [st' [|]]; cbn in *; eauto.
Qed.

(** X7. The totals the driver reports add up: it writes one
    [Selected Node] record per seed it returns, the [Total Weighted Reach] of
    each record is the total of the record before it (0 for the first) plus
    the marginal gain of the record, and [current_val] at the end is the sum
    of the gains of all records, whatever the graph, [k], the schedule and
    the engines. *)
Theorem reported_totals_are_running_sums (g : Graph) (k mc_rounds : Z)
    (schedule : list (list nat)) (e : entropy) (out err : list line) :
  let st := celf_weighted_influence g k mc_rounds schedule e out err in
  ∃ gs,
    logged_gains (cout st) = logged_gains out ++ gs ∧
    logged_reach (cout st) = logged_reach out ++ running_sums 0 gs ∧
    current_val st = fold_left Qplus gs 0%Q ∧
    length gs = length (seeds st).
Proof.
  intros st. subst st. unfold celf_weighted_influence.
  apply (greedy_loop_accounted g k mc_rounds (Z.to_nat k) _ out []).
  unfold celf_init, accounted, logged_gains, logged_reach.
  destruct (phase1 g mc_rounds schedule e) as [heap e1]. cbn.
  by rewrite !omap_app, !app_nil_r.
Qed.

Section first_pass.
Context (g : Graph) (mc : Z) (P : NodeGain → Prop).
Hypothesis P_entry : ∀ i rng0, eligible g i = true →
  P (mkNodeGain i (estimate_weighted_spread g [i] mc rng0).1 0).

Lemma phase1_local_all chunk (acc : priority_queue * mt19937) :
  Forall P acc.1 → Forall P (fold_left (phase1_step g mc) chunk acc).1.
Proof.
  revert acc. induction chunk as [|i chunk IH]; intros acc H; cbn; [done|].
  apply IH. unfold phase1_step. destruct (eligible g i) eqn:E; [|done].
  pose proof (P_entry i acc.2 E) as Hp.
  destruct (estimate_weighted_spread _ _ _ _) as [spread rng']. cbn in *.
  by constructor.
Qed.

Lemma phase1_threads_all schedule (acc : priority_queue * entropy) :
  Forall P acc.1 → Forall P (fold_left (phase1_thread g mc) schedule acc).1.
Proof.
  revert acc. induction schedule as [|chunk schedule IH]; intros acc H; cbn;
    [done|].
  apply IH. unfold phase1_thread. destruct (seed_engine acc.2) as [rng0 e'].
  cbn. rewrite drain_perm by done. apply Forall_app. split; [|done].
  by apply phase1_local_all.
Qed.
End first_pass.

(** X8. Under a schedule that hands every loop index to one thread, the
    first pass leaves on the heap exactly one entry per eligible node and
    none for any other node; every entry carries the stamp 0 and, as its
    gain, the estimate for that node alone as the only seed, computed with
    some engine. *)
Theorem first_pass_estimates_each_eligible_node_once (g : Graph) (mc_rounds : Z)
    (schedule : list (list nat)) (e : entropy) :
  valid_schedule g schedule →
  let heap := (phase1 g mc_rounds schedule e).1 in
  map node_id heap ≡ₚ filter (λ i, eligible g i) (seq 0 (num_nodes g)) ∧
  NoDup (map node_id heap) ∧
  ∀ x, x ∈ heap →
    iteration_computed x = 0 ∧
    ∃ rng0, marginal_gain x =
            (estimate_weighted_spread g [node_id x] mc_rounds rng0).1.
Proof.
  intros Hs heap.
  pose proof (phase1_one_entry_per_eligible_node g mc_rounds schedule e Hs) as Hp.
  fold heap in Hp. split; [done|]. split.
  - rewrite Hp. apply NoDup_filter, NoDup_seq.
  - apply Forall_forall. subst heap. unfold phase1.
    apply phase1_threads_all; [|done]. intros i rng0 _. cbn. eauto.
Qed.

Lemma first_pass_at_two_nodes :
  valid_schedule two_nodes_graph (single_thread 2) ∧
  map node_id (phase1 two_nodes_graph 1 (single_thread 2)
                 (constant_entropy (1 # 2))).1 ≡ₚ [0; 1].
Proof.
  assert (valid_schedule two_nodes_graph (single_thread 2)) as H.
  { unfold valid_schedule, single_thread. cbn [concat]. rewrite app_nil_r.
    reflexivity. }
  split; [exact H|].
  exact (proj1 (first_pass_estimates_each_eligible_node_once two_nodes_graph 1
                  (single_thread 2) (constant_entropy (1 # 2)) H)).
Defined.

Lemma consider_stamps g mc top st :
  stamps_bounded st → stamps_bounded (consider g mc top st).1.
Proof.
  intros Hb. unfold stamps_bounded, consider in *.
  destruct (set_mem _ _) eqn:Hm; [done|]. apply set_mem_false in Hm.
  destruct (_ =? _); cbn.
  - rewrite set_insert_length by done. eapply Forall_impl; [exact Hb|].
    cbn. lia.
  - destruct (seed_engine (src st)). cbn. by constructor.
Qed.

Lemma select_loop_stamps g mc fuel st :
  stamps_bounded st → stamps_bounded (select_loop fuel g mc st).1.
Proof.
  revert st. induction fuel as [|fuel IH]; intros st Hb; cbn [select_loop];
    [done|].
  destruct (pq_pop (pq st)) as [[top rest]|] eqn:Hpop; [|done].
  assert (stamps_bounded (with_pq rest st)) as Hb'.
  { unfold stamps_bounded in *. cbn. rewrite (pq_pop_perm _ _ _ Hpop) in Hb.
    by apply Forall_cons in Hb as [_ ?]. }
  pose proof (consider_stamps g mc top _ Hb') as Hc.
  destruct (consider g mc top (with_pq rest st)) as [st1 [|]]; cbn in *; auto.
Qed.

Lemma greedy_loop_stamps g k mc iterations st :
  stamps_bounded st → stamps_bounded (greedy_loop iterations g k mc st).
Proof.
  revert st. induction iterations as [|it IH]; intros st Hb;
    cbn [greedy_loop]; [done|].
  pose proof (select_loop_stamps g mc (select_fuel st) st Hb) as H.
  destruct (select_loop (select_fuel st) g mc st) as [st' [|]]; cbn in H;
    [by apply IH|exact H].
Qed.

(** X9. Under a schedule that hands every loop index to one thread, in
    every state the second phase passes through (after any number of outer
    iterations and any number of pops of the next one): no node has two
    entries on the heap, no entry of the heap is for a node that is already a
    seed (so the test that discards the entries of seeds never fires), and no
    stamp exceeds the number of seeds.  The same holds of every state reached
    by popping the entries in any order whatever, so it does not depend on
    how the heap compares the gains. *)
Theorem heap_entries_are_never_seeds (g : Graph) (k mc_rounds : Z)
    (schedule : list (list nat)) (e : entropy) (out err : list line)
    (iterations fuel : nat) :
  valid_schedule g schedule →
  let init := celf_init g mc_rounds schedule e out err in
  let sound st :=
    NoDup (map node_id (pq st)) ∧
    ∀ x, x ∈ pq st →
      (node_id x ∉ seeds st) ∧ iteration_computed x ≤ length (seeds st) in
  sound (select_loop fuel g mc_rounds
           (greedy_loop iterations g k mc_rounds init)).1 ∧
  ∀ st, any_pop_order g mc_rounds init st → sound st.
Proof.
  intros Hs init sound.
  assert (∀ st, distinct_ids st → stamps_bounded st → sound st) as Hsound.
  { intros st Hd Hb. unfold distinct_ids in Hd.
    apply NoDup_app in Hd as (Hnd & Hdis & _).
    split; [exact Hnd|]. intros x Hx. split.
    - apply Hdis. by apply list_elem_of_fmap_2.
    - unfold stamps_bounded in Hb. rewrite Forall_forall in Hb. by apply Hb. }
  assert (distinct_ids init) as Hd0 by (by apply celf_init_distinct).
  assert (stamps_bounded init) as Hb0.
  { subst init. unfold stamps_bounded, celf_init.
    pose proof (phase1_eligible g mc_rounds schedule e) as H.
    destruct (phase1 g mc_rounds schedule e) as [heap e1]. cbn in *.
    eapply Forall_impl; [exact H|]. cbn. lia. }
  split.
  - apply Hsound.
    + by apply select_loop_distinct, greedy_loop_distinct.
    + by apply select_loop_stamps, greedy_loop_stamps.
  - intros st Hreach.
    assert (distinct_ids st ∧ stamps_bounded st) as [Hd Hb]; [|by apply Hsound].
    induction Hreach as [|st top rest _ [Hd Hb] Hp]; [done|]. split.
    + apply consider_distinct. cbn [pq seeds with_pq].
      unfold distinct_ids in Hd. by rewrite Hp in Hd.
    + apply consider_stamps. unfold stamps_bounded in *. cbn [pq seeds with_pq].
      rewrite Hp in Hb. by apply Forall_cons in Hb as [_ ?].
Qed.

Lemma heap_entries_at_two_nodes :
  valid_schedule two_nodes_graph (single_thread 2) ∧
  pq (select_loop 1 two_nodes_graph 1 two_nodes_start).1 = [mkNodeGain 0 (1 / 1) 0] ∧
  seeds (select_loop 1 two_nodes_graph 1 two_nodes_start).1 = [1] ∧
  0 ∉ seeds (select_loop 1 two_nodes_graph 1 two_nodes_start).1.
Proof.
  assert (valid_schedule two_nodes_graph (single_thread 2)) as H.
  { unfold valid_schedule, single_thread. cbn [concat]. rewrite app_nil_r.
    reflexivity. }
  assert (pq (select_loop 1 two_nodes_graph 1 two_nodes_start).1
          = [mkNodeGain 0 (1 / 1) 0]) as Hpq by (vm_compute; reflexivity).
  split; [exact H|]. split; [exact Hpq|]. split; [vm_compute; reflexivity|].
  destruct (heap_entries_are_never_seeds two_nodes_graph 1 1
              (single_thread 2) (constant_entropy (1 # 2)) [] [] 0 1 H)
    as [[_ Hall] _].
  apply (Hall (mkNodeGain 0 (1 / 1) 0)).
  change (mkNodeGain 0 (1 / 1) 0
    ∈ pq (select_loop 1 two_nodes_graph 1 two_nodes_start).1).
  rewrite Hpq. apply list_elem_of_here.
Defined.

(** ** The rollout and its epoch vector *)

Lemma seen_at_insert_gen ls v w t :
  seen_at (<[v := t]> ls) w =
  if decide (w = v ∧ v < length ls) then t else seen_at ls w.
Proof.
  destruct (decide (v < length ls)) as [Hlt|Hge].
  - rewrite seen_at_insert by done.
    destruct (decide (w = v)); [by rewrite decide_True|].
    rewrite decide_False; [done|tauto].
  - rewrite list_insert_ge by lia. rewrite decide_False; [done|tauto].
Qed.

Lemma same_marks_insert ls1 t1 ls2 t2 v :
  same_marks ls1 t1 ls2 t2 →
  same_marks (<[v := t1]> ls1) t1 (<[v := t2]> ls2) t2.
Proof.
  intros [Hlen Hm]. split; [by rewrite !length_insert|].
  intros w. rewrite !seen_at_insert_gen, Hlen.
  destruct (decide _); [done|apply Hm].
Qed.

Lemma same_marks_test ls1 t1 ls2 t2 v :
  same_marks ls1 t1 ls2 t2 →
  (seen_at ls1 v =? t1)%Z = (seen_at ls2 v =? t2)%Z.
Proof.
  intros [_ Hm]. specialize (Hm v).
  destruct (Z.eqb_spec (seen_at ls1 v) t1), (Z.eqb_spec (seen_at ls2 v) t2);
    tauto.
Qed.

Lemma seed_step_same g t1 t2 st1 st2 s :
  sim_same t1 t2 st1 st2 →
  sim_same t1 t2 (seed_step g t1 st1 s) (seed_step g t2 st2 s).
Proof.
  intros (Hm & Hq & Ht & Hr). unfold seed_step.
  rewrite (same_marks_test _ _ _ _ s Hm). destruct (_ =? _)%Z; [done|].
  split; cbn; [by apply same_marks_insert|]. by rewrite Hq, Ht.
Qed.

Lemma edge_step_same g t1 t2 st1 st2 e :
  sim_same t1 t2 st1 st2 →
  sim_same t1 t2 (edge_step g t1 st1 e) (edge_step g t2 st2 e).
Proof.
  intros (Hm & Hq & Ht & Hr). unfold edge_step.
  rewrite (same_marks_test _ _ _ _ (to e) Hm), Hr.
  destruct (_ =? _)%Z; [done|]. unfold dist.
  destruct (Qle_bool _ _); split; cbn; rewrite ?Hq, ?Ht;
    auto using same_marks_insert.
Qed.

Lemma fold_left_same {A} (f1 f2 : sim_state → A → sim_state) t1 t2 l st1 st2 :
  (∀ a s1 s2, sim_same t1 t2 s1 s2 → sim_same t1 t2 (f1 s1 a) (f2 s2 a)) →
  sim_same t1 t2 st1 st2 →
  sim_same t1 t2 (fold_left f1 l st1) (fold_left f2 l st2).
Proof.
  intros Hf. revert st1 st2. induction l as [|a l IH]; intros st1 st2 H; cbn;
    [done|]. by apply IH, Hf.
Qed.

Lemma bfs_loop_same fuel g t1 t2 st1 st2 :
  sim_same t1 t2 st1 st2 →
  sim_same t1 t2 (bfs_loop fuel g t1 st1) (bfs_loop fuel g t2 st2).
Proof.
  revert st1 st2. induction fuel as [|fuel IH]; intros st1 st2 H;
    cbn [bfs_loop]; [done|].
  pose proof H as (Hm & Hq & Ht & Hr). rewrite <- Hq.
  destruct (queue st1) as [|u rest]; [done|].
  apply IH. unfold bfs_turn. apply fold_left_same.
  - intros. by apply edge_step_same.
  - by split.
Qed.

Lemma rollout_same g seed_list rng0 ls1 t1 ls2 t2 :
  same_marks ls1 t1 ls2 t2 →
  sim_same t1 t2 (rollout g seed_list rng0 ls1 t1) (rollout g seed_list rng0 ls2 t2).
Proof.
  intros H. unfold rollout, seeded. apply bfs_loop_same, fold_left_same.
  - intros. by apply seed_step_same.
  - by split.
Qed.

(** X11. A rollout reads its epoch vector only to tell which nodes are
    marked with the current token: started on two vectors of the same length
    that mark the same nodes, each with its own token, it returns the same
    total and leaves the engine in the same state, and the two vectors again
    mark the same nodes. *)
Theorem rollout_depends_on_marks_only (g : Graph) (seed_list : list nat)
    (rng0 : mt19937) (ls1 ls2 : list Z) (t1 t2 : Z) :
  same_marks ls1 t1 ls2 t2 →
  let r1 := run_weighted_simulation_token g seed_list rng0 ls1 t1 in
  let r2 := run_weighted_simulation_token g seed_list rng0 ls2 t2 in
  r1.1 = r2.1 ∧ same_marks r1.2 t1 r2.2 t2.
Proof.
  intros H. cbn zeta. unfold run_weighted_simulation_token. cbn [fst snd].
  destruct (rollout_same g seed_list rng0 ls1 t1 ls2 t2 H) as (Hm & _ & Ht & Hr).
  by rewrite Ht, Hr.
Qed.

Lemma rollout_marks_at_stale_vector :
  same_marks [5%Z; 0%Z] 7 [0%Z; 0%Z] 1 ∧
  (run_weighted_simulation_token (two_node_graph 1 1 1) [0] (constant_engine (1 # 2))
     [5%Z; 0%Z] 7).1 =
  (run_weighted_simulation_token (two_node_graph 1 1 1) [0] (constant_engine (1 # 2))
     [0%Z; 0%Z] 1).1.
Proof.
  assert (same_marks [5%Z; 0%Z] 7 [0%Z; 0%Z] 1) as H.
  { split; [reflexivity|]. intros [|[|v]]; unfold seen_at; cbn; try (replace (@nil Z !! v) with (@None Z) by (by destruct v)); cbn; split; intros; lia. }
  split; [exact H|].
  exact (proj1 (rollout_depends_on_marks_only (two_node_graph 1 1 1) [0]
                  (constant_engine (1 # 2)) _ _ _ _ H)).
Defined.

(** ** The estimator and its reuse of one epoch vector *)

Lemma seen_at_replicate n v : seen_at (replicate n 0%Z) v = 0%Z.
Proof.
  unfold seen_at. destruct (replicate n 0%Z !! v) as [x|] eqn:E; [|done].
  by apply lookup_replicate in E as [-> _].
Qed.

Section marks.
Variables (g : Graph) (ls0 : list Z) (t : Z).

Lemma marks_inv_insert ls q q' tv tv' r r' v :
  marks_inv ls0 t (mkSim ls q tv r) → marks_inv ls0 t (mkSim (<[v := t]> ls) q' tv' r').
Proof.
  intros [Hl Hm]. split; cbn in *; [by rewrite length_insert|].
  intros w. rewrite seen_at_insert_gen. destruct (decide _); [by right|apply Hm].
Qed.

Lemma seed_step_marks st s : marks_inv ls0 t st → marks_inv ls0 t (seed_step g t st s).
Proof.
  intros H. unfold seed_step. destruct (_ =? _)%Z; [done|].
  destruct st. by eapply marks_inv_insert.
Qed.

Lemma edge_step_marks st e : marks_inv ls0 t st → marks_inv ls0 t (edge_step g t st e).
Proof.
  intros H. unfold edge_step. destruct (_ =? _)%Z; [done|]. unfold dist.
  destruct (Qle_bool _ _); [destruct st; by eapply marks_inv_insert|].
  destruct H. by split.
Qed.

Lemma fold_left_marks {A} (f : sim_state → A → sim_state) l st :
  (∀ s a, marks_inv ls0 t s → marks_inv ls0 t (f s a)) →
  marks_inv ls0 t st → marks_inv ls0 t (fold_left f l st).
Proof.
  intros Hf. revert st. induction l as [|a l IH]; intros st H; cbn; [done|].
  by apply IH, Hf.
Qed.

Lemma bfs_loop_marks fuel st : marks_inv ls0 t st → marks_inv ls0 t (bfs_loop fuel g t st).
Proof.
  revert st. induction fuel as [|fuel IH]; intros st H; cbn [bfs_loop]; [done|].
  destruct (queue st) as [|u rest]; [done|].
  apply IH. unfold bfs_turn. apply fold_left_marks; [apply edge_step_marks|].
  destruct H. by split.
Qed.

Lemma rollout_marks seed_list rng0 : marks_inv ls0 t (rollout g seed_list rng0 ls0 t).
Proof.
  unfold rollout, seeded. apply bfs_loop_marks, fold_left_marks;
    [apply seed_step_marks|]. split; cbn; [done|]. by left.
Qed.
End marks.

Lemma mc_loop_fresh rounds g seed_list token ls total rng0 :
  length ls = num_nodes g → (1 <= token < 2 ^ 32)%Z →
  (∀ v, 0 <= seen_at ls v <= token)%Z →
  mc_loop rounds g seed_list token ls total rng0 =
  fresh_rounds rounds g seed_list total rng0.
Proof.
  revert token ls total rng0.
  induction rounds as [|rounds IH]; intros token ls total rng0 Hlen Htok Hls;
    cbn [mc_loop fresh_rounds]; [done|].
  unfold next_token, run_weighted_simulation_token.
  destruct (Z.eqb_spec ((token + 1) mod 2 ^ 32) 0) as [Hz|Hnz].
  - rewrite Hlen.
    destruct (rollout_marks g (replicate (num_nodes g) 0%Z) 1 seed_list rng0)
      as [Hl Hm].
    apply IH; [by rewrite Hl, length_replicate|lia|].
    intros v. destruct (Hm v) as [-> | ->]; [rewrite seen_at_replicate|]; lia.
  - assert (token + 1 < 2 ^ 32)%Z as Hlt.
    { destruct (decide (token + 1 = 2 ^ 32)%Z) as [E|E]; [|lia].
      rewrite E, Z.mod_same in Hnz; lia. }
    rewrite Z.mod_small by lia.
    assert (same_marks ls (token + 1) (replicate (num_nodes g) 0%Z) 1) as Hs.
    { split; [by rewrite length_replicate|]. intros v.
      rewrite seen_at_replicate. specialize (Hls v). lia. }
    destruct (rollout_same g seed_list rng0 _ _ _ _ Hs) as (_ & _ & -> & ->).
    destruct (rollout_marks g ls (token + 1)%Z seed_list rng0) as [Hl Hm].
    apply IH; [lia|lia|].
    intros v. specialize (Hls v). destruct (Hm v) as [-> | ->]; lia.
Qed.

(** X12. Reusing one epoch vector across the rounds, with a token that is
    incremented and wraps around, changes nothing: the estimator returns what
    it would return if every round ran on a vector of its own with no node
    marked, and leaves the engine in the same state. *)
Theorem estimator_rounds_are_independent (g : Graph) (seed_list : list nat)
    (mc_rounds : Z) (rng0 : mt19937) :
  estimate_weighted_spread g seed_list mc_rounds rng0 =
  let '(total_spread, rng1) :=
    fresh_rounds (Z.to_nat mc_rounds) g seed_list 0 rng0 in
  ((total_spread / inject_Z mc_rounds)%Q, rng1).
Proof.
  unfold estimate_weighted_spread. cbv zeta.
  rewrite mc_loop_fresh; [done|by rewrite length_replicate|lia|].
  intros v. rewrite seen_at_replicate. lia.
Qed.

(** ** The epoch vector against the set of the older variant *)

Lemma seeded_unmarked g t l st :
  NoDup l →
  (∀ s, s ∈ l → s < length (last_seen st) ∧ seen_at (last_seen st) s ≠ t) →
  let st' := fold_left (seed_step g t) l st in
  length (last_seen st') = length (last_seen st) ∧
  (∀ v, seen_at (last_seen st') v = t ↔ seen_at (last_seen st) v = t ∨ v ∈ l) ∧
  queue st' = queue st ++ l ∧
  total_value st' = add_values g (total_value st) l ∧
  rng st' = rng st.
Proof.
  revert st. induction l as [|s l IH]; intros st Hnd Hl; cbn zeta.
  - cbn. rewrite app_nil_r. repeat split; try done; [tauto|].
    intros [H|H]; [done|by apply elem_of_nil in H].
  - apply NoDup_cons in Hnd as [Hs Hnd]. cbn [fold_left].
    destruct (Hl s) as [Hlt Hun]; [by left|].
    unfold seed_step at 2 4 6 8 10.
    destruct (Z.eqb_spec (seen_at (last_seen st) s) t) as [E|_]; [done|].
    set (st1 := mkSim _ _ _ _).
    destruct (IH st1 Hnd) as (H1 & H2 & H3 & H4 & H5).
    { intros x Hx. subst st1. cbn. rewrite length_insert.
      destruct (Hl x) as [Hxl Hxu]; [by right|]. split; [done|].
      rewrite seen_at_insert by done.
      destruct (decide (x = s)) as [->|_]; done. }
    cbn zeta in *. rewrite H1, H3, H4, H5. subst st1. cbn.
    rewrite length_insert, <- app_assoc. repeat split; try done.
    + rewrite H2. cbn. rewrite seen_at_insert by done.
      destruct (decide (v = s)) as [->|Hne]; rewrite elem_of_cons; [tauto|].
      tauto.
    + rewrite H2. cbn. rewrite seen_at_insert by done. rewrite elem_of_cons.
      destruct (decide (v = s)) as [->|Hne]; [tauto|]. tauto.
Qed.

Lemma edge_step_refines g t st lst e :
  to e < num_nodes g → sim_refines g t st lst →
  sim_refines g t (edge_step g t st e) (Legacy.edge_step g lst e).
Proof.
  intros He H. pose proof H as (Hlen & Hm & Hq & Ht & Hr).
  unfold edge_step, Legacy.edge_step. cbv zeta.
  destruct (Z.eqb_spec (seen_at (last_seen st) (to e)) t) as [E|E].
  - apply Hm in E. rewrite (proj2 (set_mem_true _ _) E). exact H.
  - assert (set_mem (to e) (Legacy.active_set lst) = false) as ->.
    { apply set_mem_false. by rewrite <- Hm. }
    rewrite Hr. unfold dist. destruct (Qle_bool _ _).
    + repeat split; cbn; rewrite ?length_insert, ?Hq, ?Ht; try done.
      * rewrite seen_at_insert, elem_of_set_insert by lia.
        destruct (decide (v = to e)); [tauto|]. rewrite Hm. tauto.
      * rewrite seen_at_insert, elem_of_set_insert by lia.
        destruct (decide (v = to e)); [tauto|]. rewrite Hm. tauto.
    + split; [done|]. split; [exact Hm|]. by repeat split.
Qed.

Lemma edges_fold_refines g t es st lst :
  (∀ e, e ∈ es → to e < num_nodes g) → sim_refines g t st lst →
  sim_refines g t (fold_left (edge_step g t) es st)
    (fold_left (Legacy.edge_step g) es lst).
Proof.
  revert st lst. induction es as [|e es IH]; intros st lst Hes H; cbn; [done|].
  apply IH; [intros; apply Hes; by right|].
  apply edge_step_refines; [apply Hes; by left|done].
Qed.

Lemma bfs_loop_refines fuel g t st lst :
  wf_graph g → sim_refines g t st lst →
  sim_refines g t (bfs_loop fuel g t st) (Legacy.bfs_loop fuel g lst).
Proof.
  intros Hwf. revert st lst.
  induction fuel as [|fuel IH]; intros st lst H;
    cbn [bfs_loop Legacy.bfs_loop]; [done|].
  pose proof H as (Hlen & Hm & Hq & Ht & Hr). rewrite <- Hq.
  destruct (queue st) as [|u rest]; [done|].
  apply IH. unfold bfs_turn. apply edges_fold_refines.
  - intros e He. by eapply edges_of_in_range.
  - split; [done|]. split; [exact Hm|]. by repeat split.
Qed.

(** X13. On a seed list that is strictly increasing, as the iteration of a
    [std::set] is, with every seed a valid id, and on an epoch vector in which
    no node is marked with the token, the rollout over the epoch vector
    returns the total of the older rollout over a [std::set] and leaves the
    engine in the same state. *)
Theorem token_rollout_refines_set_rollout (g : Graph) (seed_list : list nat)
    (rng0 : mt19937) (ls : list Z) (t : Z) :
  wf_graph g → StronglySorted lt seed_list →
  (∀ s, s ∈ seed_list → s < num_nodes g) →
  length ls = num_nodes g → (∀ v, seen_at ls v ≠ t) →
  (run_weighted_simulation_token g seed_list rng0 ls t).1 =
  Legacy.run_weighted_simulation g seed_list rng0.
Proof.
  intros Hwf Hsorted Hrange Hlen Hfresh.
  assert (NoDup seed_list) as Hnd.
  { clear -Hsorted. induction Hsorted as [|x l _ IH Hx]; constructor; [|done].
    intros Hin. rewrite Forall_forall in Hx. specialize (Hx x Hin). lia. }
  unfold run_weighted_simulation_token, Legacy.run_weighted_simulation.
  cbv zeta. cbn [fst].
  destruct (seeded_unmarked g t seed_list (mkSim ls [] 0 rng0) Hnd)
    as (H1 & H2 & H3 & H4 & H5).
  { intros s Hs. cbn. rewrite Hlen. split; [by apply Hrange|apply Hfresh]. }
  cbn zeta in *. cbn in H1, H2, H3, H4, H5.
  destruct (bfs_loop_refines (num_nodes g) g t
              (seeded g seed_list rng0 ls t)
              (Legacy.mkSim seed_list seed_list (add_values g 0 seed_list) rng0)
              Hwf) as (_ & _ & _ & Ht & Hr).
  { unfold seeded. repeat split; try done; try lia.
    - rewrite H2. intros [H|H]; [by apply Hfresh in H|done].
    - rewrite H2. by right. }
  unfold rollout. by rewrite Ht, Hr.
Qed.

Lemma token_rollout_at_two_node_graph :
  (run_weighted_simulation_token (two_node_graph 1 1 1) [0]
     (constant_engine (1 # 2)) [0%Z; 0%Z] 1).1 =
  Legacy.run_weighted_simulation (two_node_graph 1 1 1) [0]
    (constant_engine (1 # 2)).
Proof.
  apply token_rollout_refines_set_rollout.
  - apply two_node_graph_wf.
  - repeat constructor.
  - intros s Hs. apply list_elem_of_singleton in Hs. subst s. vm_compute. lia.
  - reflexivity.
  - intros [|[|v]]; unfold seen_at; cbn;
      try (replace (@nil Z !! v) with (@None Z) by (by destruct v)); cbn; lia.
Defined.

(** ** The attribute scraper *)

Lemma append_cons_string c (a b : string) :
  String c a +:+ b = String c (a +:+ b).
Proof. reflexivity. Qed.

Lemma length_append_string (a b : string) :
  String.length (a +:+ b) = String.length a + String.length b.
Proof.
  induction a as [|c a IH]; [done|].
  rewrite append_cons_string. cbn [String.length]. by rewrite IH.
Qed.

Lemma append_assoc_string (a b c : string) : (a +:+ b) +:+ c = a +:+ (b +:+ c).
Proof.
  induction a as [|x a IH]; [done|].
  by rewrite !append_cons_string, IH.
Qed.

Lemma find_skip (a : string) n needle s :
  find needle (String.length a + n) (a +:+ s) =
  option_map (λ k, String.length a + k) (find needle n s).
Proof.
  unfold find. induction a as [|c a IH].
  - change (EmptyString +:+ s) with s. cbn [String.length Nat.add].
    by destruct (String.index n needle s).
  - rewrite append_cons_string. cbn [String.length Nat.add String.index].
    rewrite IH. by destruct (String.index n needle s).
Qed.

Lemma prefix_dquote c (s : string) :
  String.prefix dquote (String c s) =
  if ascii_dec "034"%char c then true else false.
Proof.
  unfold dquote. cbn [String.prefix]. destruct (ascii_dec _ _); [|done].
  by destruct s.
Qed.

Lemma find_first_quote v rest :
  find dquote 0 v = None →
  find dquote 0 (v +:+ dquote +:+ rest) = Some (String.length v).
Proof.
  unfold find. induction v as [|c v IH]; intros Hv.
  - change (EmptyString +:+ dquote +:+ rest) with (String "034"%char rest).
    cbn [String.index String.length]. rewrite prefix_dquote.
    destruct (ascii_dec _ _); [done|congruence].
  - rewrite append_cons_string. cbn [String.index String.length] in *.
    rewrite prefix_dquote in *.
    destruct (ascii_dec _ _); [done|].
    destruct (String.index 0 dquote v) as [i|]; [done|].
    by rewrite IH.
Qed.

Lemma substring_skip (a : string) n s :
  String.substring (String.length a) n (a +:+ s) = String.substring 0 n s.
Proof.
  induction a as [|c a IH]; [done|].
  rewrite append_cons_string. cbn [String.length String.substring]. exact IH.
Qed.

Lemma substring_prefix (v r : string) :
  String.substring 0 (String.length v) (v +:+ r) = v.
Proof.
  induction v as [|c v IH].
  - change (EmptyString +:+ r) with r. cbn. by destruct r.
  - rewrite append_cons_string. cbn [String.length String.substring].
    by rewrite IH.
Qed.

(** X17. [get_xml_attr] reads the first textual occurrence of the name
    followed by [=] and a quote, whatever stands before it (the end of a
    longer attribute name included), and returns the text up to the next
    quote: for a tag [pre attr="v" post] in which that occurrence is the
    first and [v] holds no quote, it returns [v]. *)
Theorem get_xml_attr_reads_first_occurrence (pre attr v post : string) :
  let needle := attr +:+ "=" +:+ dquote in
  let tag := pre +:+ needle +:+ v +:+ dquote +:+ post in
  find needle 0 tag = Some (String.length pre) →
  find dquote 0 v = None →
  get_xml_attr tag attr = v.
Proof.
  intros needle tag Hfirst Hv. unfold get_xml_attr. fold needle.
  rewrite Hfirst.
  assert (tag = (pre +:+ needle) +:+ (v +:+ dquote +:+ post)) as Htag.
  { subst tag. by rewrite append_assoc_string. }
  rewrite <- length_append_string.
  replace (find dquote (String.length (pre +:+ needle)) tag)
    with (Some (String.length (pre +:+ needle) + String.length v)).
  2:{ rewrite Htag.
      rewrite <- (Nat.add_0_r (String.length (pre +:+ needle))) at 2.
      by rewrite find_skip, find_first_quote. }
  unfold substr.
  replace (String.length (pre +:+ needle) + String.length v
           - String.length (pre +:+ needle)) with (String.length v) by lia.
  by rewrite Htag, substring_skip, substring_prefix.
Qed.

Lemma get_xml_attr_at_longer_name :
  get_xml_attr
    ("<node u" +:+ ("id" +:+ "=" +:+ dquote) +:+ "x" +:+ dquote +:+
     (" id=" +:+ dquote +:+ "y" +:+ dquote +:+ ">")) "id" = "x".
Proof.
  apply (get_xml_attr_reads_first_occurrence "<node u" "id" "x"
           (" id=" +:+ dquote +:+ "y" +:+ dquote +:+ ">")); reflexivity.
Defined.

(** ** A successful run, end to end *)

Lemma consider_records g mc top st out0 :
  records_only out0 st → records_only out0 (consider g mc top st).1.
Proof.
  intros (records & Hc & Hf & Hl). unfold records_only, consider.
  destruct (set_mem _ _) eqn:Hm; [by exists records|].
  apply set_mem_false in Hm. destruct (_ =? _); cbn [fst seeds cout].
  - eexists (records ++ [_]). split; [by rewrite Hc, app_assoc|].
    split; [apply Forall_app; split; [done|by apply Forall_singleton]|].
    rewrite length_app, set_insert_length by done. cbn [length]. lia.
  - destruct (seed_engine (src st)). by exists records.
Qed.

Lemma select_loop_records g mc fuel st out0 :
  records_only out0 st → records_only out0 (select_loop fuel g mc st).1.
Proof.
  revert st. induction fuel as [|fuel IH]; intros st Hst; cbn [select_loop];
    [done|].
  destruct (pq_pop (pq st)) as [[top rest]|] eqn:Hpop; [|done].
  pose proof (consider_records g mc top (with_pq rest st) out0 Hst) as Hc.
  destruct (consider g mc top (with_pq rest st)) as [st1 [|]]; cbn in *; auto.
Qed.

Lemma greedy_loop_records g k mc iterations st out0 :
  records_only out0 st → records_only out0 (greedy_loop iterations g k mc st).
Proof.
  revert st. induction iterations as [|it IH]; intros st Hst;
    cbn [greedy_loop]; [done|].
  pose proof (select_loop_records g mc (select_fuel st) st out0 Hst) as H.
  destruct (select_loop (select_fuel st) g mc st) as [st' [|]]; cbn in H;
    [by apply IH|exact H].
Qed.

(** X18. A run with three or four arguments, a numeric [k] and round count,
    a file that opens, and a schedule that hands every loop index to one
    thread: [main] returns 0.  With [m] the smaller of [k] and the number of
    eligible nodes of the parsed graph, standard output holds the four banner
    lines, the [Initializing CELF] line, [m] [Selected Node] records, the
    separator, the [Selected Seeds] line with [m] ids, and the time line;
    standard error holds the warnings of the parser, followed by the
    exhaustion warning exactly when [k] exceeds the number of eligible
    nodes. *)
Theorem successful_run_output (argv : list string) (env : environment)
    (k mc_rounds : Z) (content : string) :
  length argv = 4 ∨ length argv = 5 →
  stoi (arg argv 2) = Ok k →
  (if length argv =? 5 then stoi (arg argv 4) else Ok DEFAULT_MC_ROUNDS)
    = Ok mc_rounds →
  files env (arg argv 1) = Some content →
  let g := (parse_content content (arg argv 3)).1 in
  let warnings := (parse_content content (arg argv 3)).2 in
  valid_schedule g (omp_schedule env (num_nodes g)) →
  let r := main argv env in
  let m := Z.to_nat k `min` count_eligible g in
  status r = Exit 0 ∧
  (∃ records ids,
     stdout r = banner g mc_rounds ++ [InitializingCELF (num_nodes g)] ++
                records ++ [Separator; SelectedSeeds ids; Elapsed] ∧
     Forall is_selected_record records ∧ length records = m ∧ length ids = m) ∧
  stderr r = warnings ++
    (if decide (count_eligible g < Z.to_nat k)
     then [WarnExhausted k (count_eligible g)] else []).
Proof.
  intros Hargc Hk Hmc Hfile g warnings Hs r m.
  assert (r = report g k mc_rounds warnings env) as ->.
  { subst r. unfold main, parse.
    replace ((length argv <? 4) || (5 <? length argv)) with false
      by (destruct Hargc as [-> | ->]; done).
    rewrite Hk, Hmc, Hfile. subst g warnings.
    by destruct (parse_content content (arg argv 3)). }
  unfold report. cbn [status stdout stderr].
  set (st := celf_weighted_influence _ _ _ _ _ _ _).
  destruct (celf_counts g k mc_rounds (omp_schedule env (num_nodes g))
              (device env) (banner g mc_rounds) warnings Hs)
    as (Hlen & _ & Herr).
  cbn zeta in Hlen, Herr. fold st in Hlen, Herr.
  assert (records_only (banner g mc_rounds ++ [InitializingCELF (num_nodes g)]) st)
    as (records & Hc & Hf & Hl).
  { subst st. unfold celf_weighted_influence. apply greedy_loop_records.
    unfold celf_init. destruct (phase1 _ _ _ _) as [heap e1].
    exists []. cbn [cout seeds]. by rewrite app_nil_r. }
  split; [done|]. split.
  - exists records, (map (external_id g) (seeds st)).
    rewrite Hc, <- !app_assoc, length_map. split; [done|]. split; [done|].
    split; [by rewrite Hl|done].
  - rewrite Herr. destruct (decide _); [done|by rewrite app_nil_r].
Qed.

Lemma successful_run_at_two_nodes :
  let argv := ["prog"; "graph.gexf"; "3"; "value"; "1"]%string in
  let r := main argv (sample_env two_nodes_doc) in
  status r = Exit 0 ∧
  stderr r = (parse_content two_nodes_doc "value").2 ++ [WarnExhausted 3 2].
Proof.
  intros argv r.
  destruct (successful_run_output argv (sample_env two_nodes_doc) 3 1
              two_nodes_doc) as (Hstatus & _ & Herr).
  - right. reflexivity.
  - vm_compute. reflexivity.
  - vm_compute. reflexivity.
  - vm_compute. reflexivity.
  - unfold valid_schedule. cbn [omp_schedule sample_env single_thread concat].
    by rewrite app_nil_r.
  - split; [exact Hstatus|]. exact Herr.
Defined.

(** * Properties of the code with [double] as binary64 *)

Import Binary64.

(** ** Graphs built through the three methods *)

Lemma d_wf_empty_graph : wf_graph empty_graph.
Proof. split; cbn; try done; intros *; by rewrite ?lookup_nil, ?lookup_empty. Qed.

Lemma d_ids_consistent_empty : ids_consistent empty_graph.
Proof. intros s i. cbn. by rewrite lookup_empty, lookup_nil. Qed.

Lemma d_get_internal_id_fresh g s :
  id_map g !! s = None → wf_graph g →
  get_internal_id s g =
    (num_nodes g,
     {| id_map := <[s := num_nodes g]> (id_map g);
        reverse_id_map := reverse_id_map g ++ [s];
        adj := adj g ++ [[]];
        node_values := node_values g ++ [0%float];
        has_value := has_value g ++ [false] |}).
Proof.
  intros Hs [Ha Hv Hh _ _]. unfold get_internal_id. rewrite Hs.
  unfold num_nodes in *. by rewrite !resize_grow.
Qed.

Lemma d_get_internal_id_wf g s :
  wf_graph g →
  wf_graph (get_internal_id s g).2 ∧
  (get_internal_id s g).1 < num_nodes (get_internal_id s g).2.
Proof.
  intros Hwf. destruct (id_map g !! s) as [i|] eqn:Hs.
  - unfold get_internal_id. rewrite Hs. cbn. split; [done|]. by eapply wf_ids.
  - rewrite d_get_internal_id_fresh by done. cbn.
    destruct Hwf as [Ha Hv Hh He Hi].
    unfold num_nodes in *. cbn. rewrite length_app. cbn. split; [|lia].
    split; cbn; rewrite ?length_app; cbn; try lia.
    + intros u es e Hu He'. apply lookup_app_Some in Hu as [Hu|[_ Hu]].
      * specialize (He _ _ _ Hu He'). lia.
      * apply list_lookup_singleton_Some in Hu as [_ <-].
        by apply elem_of_nil in He'.
    + intros s' i Hl. apply lookup_insert_Some in Hl as [[_ <-]|[_ Hl]]; [lia|].
      apply Hi in Hl. lia.
Qed.

Lemma d_get_internal_id_consistent g s :
  ids_consistent g → ids_consistent (get_internal_id s g).2.
Proof.
  intros Hc. unfold get_internal_id. destruct (id_map g !! s) as [j|] eqn:Hs;
    cbn; [done|]. unfold ids_consistent in Hc.
  intros s' i. cbn. rewrite lookup_insert.
  destruct (decide (s = s')) as [<-|Hne].
  - split.
    + intros [= <-]. by rewrite lookup_app_r, Nat.sub_diag.
    + intros Hi. f_equal. apply lookup_app_Some in Hi as [Hi|[Hge Hi]].
      * apply Hc in Hi. congruence.
      * apply list_lookup_singleton_Some in Hi as [Hi _]. lia.
  - rewrite Hc. split.
    + intros Hi. by apply lookup_app_l_Some.
    + intros Hi. apply lookup_app_Some in Hi as [Hi|[Hge Hi]]; [done|].
      apply list_lookup_singleton_Some in Hi as [_ Hi]. congruence.
Qed.

(** The id [get_internal_id] returns carries the external id asked for. *)
Lemma d_get_internal_id_names g s :
  ids_consistent g →
  external_id (get_internal_id s g).2 (get_internal_id s g).1 = s.
Proof.
  intros Hc. pose proof (d_get_internal_id_consistent g s Hc) as Hc'.
  assert (id_map (get_internal_id s g).2 !! s = Some (get_internal_id s g).1)
    as Hid.
  { unfold get_internal_id. destruct (id_map g !! s) as [j|] eqn:Hs; cbn;
      [done|]. by rewrite lookup_insert_eq. }
  apply Hc' in Hid. unfold external_id. by rewrite Hid.
Qed.

(** Interning an id changes nothing that could be read before. *)
Lemma d_get_internal_id_reads g s i :
  wf_graph g →
  edges_of (get_internal_id s g).2 i = edges_of g i ∧
  (i < num_nodes g →
   external_id (get_internal_id s g).2 i = external_id g i).
Proof.
  intros Hwf. destruct (id_map g !! s) as [j|] eqn:Hs.
  - unfold get_internal_id. by rewrite Hs.
  - rewrite d_get_internal_id_fresh by done.
    unfold edges_of, external_id. cbn. split.
    + by rewrite lookup_snoc_default.
    + intros Hi. by rewrite lookup_app_l.
Qed.

Lemma d_num_nodes_grows g s : num_nodes g ≤ num_nodes (get_internal_id s g).2.
Proof.
  unfold get_internal_id. destruct (id_map g !! s); cbn; [done|].
  unfold num_nodes. cbn. rewrite length_app. lia.
Qed.

Lemma d_edges_of_in_range g u e :
  wf_graph g → e ∈ edges_of g u → to e < num_nodes g.
Proof.
  intros Hwf He. unfold edges_of in He.
  destruct (adj g !! u) as [es|] eqn:Hu; cbn in He.
  - by eapply wf_edges.
  - by apply elem_of_nil in He.
Qed.

Lemma d_edges_of_beyond g u : wf_graph g → num_nodes g ≤ u → edges_of g u = [].
Proof.
  intros Hwf Hu. unfold edges_of. rewrite lookup_ge_None_2; [done|].
  by rewrite (wf_adj_len g Hwf).
Qed.

Lemma d_named_edges_of_ext g g' u :
  wf_graph g →
  edges_of g' u = edges_of g u →
  (∀ i, i < num_nodes g → external_id g' i = external_id g i) →
  u < num_nodes g →
  named_edges_of g' u = named_edges_of g u.
Proof.
  intros Hwf He Hx Hu. unfold named_edges_of. rewrite He, (Hx u Hu).
  apply map_ext_in. intros e Hin. apply list_elem_of_In in Hin.
  by rewrite (Hx (to e)) by (by eapply d_edges_of_in_range).
Qed.

Lemma flat_map_ext_on {A B} (f f' : A → list B) l :
  (∀ a, a ∈ l → f a = f' a) → flat_map f l = flat_map f' l.
Proof.
  induction l as [|a l IH]; intros H; cbn; [done|].
  rewrite (H a) by (by left). rewrite IH; [done|]. intros b Hb. apply H. by right.
Qed.

Lemma d_get_internal_id_named_edges g s :
  wf_graph g → named_edges (get_internal_id s g).2 = named_edges g.
Proof.
  intros Hwf. destruct (id_map g !! s) as [j|] eqn:Hs.
  { unfold get_internal_id. by rewrite Hs. }
  assert (∀ u, u < num_nodes g →
    named_edges_of (get_internal_id s g).2 u = named_edges_of g u) as Hsame.
  { intros u Hu. apply d_named_edges_of_ext; [done| | |done].
    - by destruct (d_get_internal_id_reads g s u Hwf).
    - intros i Hi. by destruct (d_get_internal_id_reads g s i Hwf) as [_ ->]. }
  assert (named_edges_of (get_internal_id s g).2 (num_nodes g) = []) as Hnew.
  { unfold named_edges_of.
    destruct (d_get_internal_id_reads g s (num_nodes g) Hwf) as [-> _].
    by rewrite d_edges_of_beyond. }
  unfold named_edges at 1.
  replace (num_nodes (get_internal_id s g).2) with (num_nodes g + 1).
  2:{ rewrite d_get_internal_id_fresh by done. unfold num_nodes. cbn.
      by rewrite length_app. }
  rewrite seq_app, flat_map_app. cbn. rewrite Hnew, !app_nil_r.
  unfold named_edges. apply flat_map_ext_on. intros u Hu.
  apply elem_of_seq in Hu. apply Hsame. lia.
Qed.

(** Lengthening one of the lists a [flat_map] joins adds the new element
    somewhere in the result. *)
Lemma flat_map_snoc_at {A} (f f' : nat → list A) (x : A) n u :
  u < n → f' u = f u ++ [x] → (∀ w, w ≠ u → f' w = f w) →
  flat_map f' (seq 0 n) ≡ₚ flat_map f (seq 0 n) ++ [x].
Proof.
  intros Hu Hat Hoff.
  assert (seq 0 n = seq 0 u ++ u :: seq (S u) (n - S u)) as ->.
  { replace n with (u + S (n - S u)) at 1 by lia. rewrite seq_app.
    by rewrite Nat.add_0_l. }
  rewrite !flat_map_app. cbn [flat_map]. rewrite Hat.
  rewrite (flat_map_ext_on f' f (seq 0 u)).
  2:{ intros w Hw. apply elem_of_seq in Hw. apply Hoff. lia. }
  rewrite (flat_map_ext_on f' f (seq (S u) (n - S u))).
  2:{ intros w Hw. apply elem_of_seq in Hw. apply Hoff. lia. }
  rewrite <- !app_assoc. apply Permutation_app_head, Permutation_app_head.
  apply Permutation_app_comm.
Qed.

Lemma d_add_edge_wf g s t p : wf_graph g → wf_graph (add_edge s t p g).
Proof.
  intros Hwf. unfold add_edge.
  destruct (get_internal_id s g) as [u g1] eqn:E1.
  destruct (get_internal_id t g1) as [v g2] eqn:E2.
  pose proof (d_get_internal_id_wf g s Hwf) as [Hwf1 _].
  rewrite E1 in Hwf1. cbn in Hwf1.
  pose proof (d_get_internal_id_wf g1 t Hwf1) as [Hwf2 Hv].
  rewrite E2 in Hwf2, Hv. cbn in Hwf2, Hv.
  destruct Hwf2 as [Ha Hvl Hh He Hi].
  split; cbn; unfold num_nodes in *; cbn; rewrite ?length_alter; try done.
  intros w es e Hw He'.
  destruct (decide (u = w)) as [->|Hne].
  - rewrite list_lookup_alter_eq in Hw.
    destruct (adj g2 !! w) as [es0|] eqn:Hes0; simplify_eq/=.
    apply elem_of_app in He' as [He'|He'].
    + by eapply He.
    + apply list_elem_of_singleton in He' as ->. done.
  - rewrite list_lookup_alter_ne in Hw by done. by eapply He.
Qed.

Lemma d_add_edge_consistent g s t p :
  ids_consistent g → ids_consistent (add_edge s t p g).
Proof.
  intros Hc. unfold add_edge.
  pose proof (d_get_internal_id_consistent g s Hc) as H.
  destruct (get_internal_id s g) as [u g1]. cbn in H.
  pose proof (d_get_internal_id_consistent g1 t H) as H'.
  by destruct (get_internal_id t g1).
Qed.

Lemma d_set_node_value_wf g s x : wf_graph g → wf_graph (set_node_value s x g).
Proof.
  intros Hwf. unfold set_node_value.
  destruct (get_internal_id s g) as [u g1] eqn:E1.
  pose proof (d_get_internal_id_wf g s Hwf) as [Hwf1 _].
  rewrite E1 in Hwf1. cbn in Hwf1.
  destruct Hwf1 as [Ha Hvl Hh He Hi].
  split; cbn; unfold num_nodes in *; cbn; rewrite ?length_insert; done.
Qed.

Lemma d_set_node_value_consistent g s x :
  ids_consistent g → ids_consistent (set_node_value s x g).
Proof.
  intros Hc. unfold set_node_value.
  pose proof (d_get_internal_id_consistent g s Hc) as H.
  by destruct (get_internal_id s g).
Qed.

Lemma d_set_node_value_named_edges g s x :
  wf_graph g → named_edges (set_node_value s x g) = named_edges g.
Proof.
  intros Hwf. rewrite <- (d_get_internal_id_named_edges g s Hwf).
  unfold set_node_value. by destruct (get_internal_id s g).
Qed.

(** [add_edge] adds the edge it is given, under the names it is given, with
    the probability it is given, and no other. *)
Lemma d_add_edge_named_edges g s t p :
  wf_graph g → ids_consistent g →
  named_edges (add_edge s t p g) ≡ₚ named_edges g ++ [(s, t, p)].
Proof.
  intros Hwf Hc.
  pose proof (d_get_internal_id_wf g s Hwf) as [Hwf1 Hu].
  pose proof (d_get_internal_id_consistent g s Hc) as Hc1.
  pose proof (d_get_internal_id_names g s Hc) as Hs.
  pose proof (d_get_internal_id_named_edges g s Hwf) as Hn1.
  unfold add_edge. destruct (get_internal_id s g) as [u g1]. cbn in *.
  pose proof (d_get_internal_id_wf g1 t Hwf1) as [Hwf2 Hv].
  pose proof (d_get_internal_id_names g1 t Hc1) as Ht.
  pose proof (d_get_internal_id_named_edges g1 t Hwf1) as Hn2.
  pose proof (d_num_nodes_grows g1 t) as Hgrow.
  destruct (d_get_internal_id_reads g1 t u Hwf1) as [_ Hxu].
  destruct (get_internal_id t g1) as [v g2]. cbn in *.
  rewrite <- Hn1, <- Hn2. unfold named_edges.
  set (g' := mkGraph _ _ _ _ _).
  change (num_nodes g') with (num_nodes g2).
  apply (flat_map_snoc_at _ _ _ _ u); [unfold num_nodes in *; lia| |].
  - unfold named_edges_of, edges_of, external_id. cbn.
    rewrite list_lookup_alter_eq.
    destruct (adj g2 !! u) as [es|] eqn:Hes.
    + cbn. rewrite map_app. cbn. specialize (Hxu Hu).
      unfold external_id in Hxu, Hs, Ht. by rewrite Hxu, Hs, Ht.
    + apply lookup_ge_None in Hes. rewrite (wf_adj_len g2 Hwf2) in Hes. lia.
  - intros w Hw. unfold named_edges_of, edges_of, external_id. cbn.
    by rewrite list_lookup_alter_ne.
Qed.

(** ** The edges of a parsed graph *)

Section parsed_edges.
Variable stod : string → result double.

(** Scanning the nodes adds no edge. *)
Lemma d_scan_attvalues_edges fuel block nid tid p g :
  wf_graph g → ids_consistent g →
  let g' := scan_attvalues stod fuel block nid tid p g in
  wf_graph g' ∧ ids_consistent g' ∧ named_edges g' = named_edges g.
Proof.
  revert p g. induction fuel as [|fuel IH]; intros p g Hwf Hc;
    cbn [scan_attvalues]; [done|].
  destruct (find "<attvalue" p block) as [av|]; [|done].
  destruct (find ">" av block) as [av_end|]; [|done].
  cbv zeta.
  destruct (negb (is_empty tid) && String.eqb _ tid); [|by apply IH].
  destruct (negb (is_empty _)); [|by apply IH].
  destruct (stod _) as [val|]; [|by apply IH].
  destruct (IH (av_end + 1) (set_node_value nid val g)) as (H1 & H2 & H3);
    [by apply d_set_node_value_wf|by apply d_set_node_value_consistent|].
  cbn zeta in *. by rewrite H3, d_set_node_value_named_edges.
Qed.

Lemma d_scan_nodes_edges fuel content tid pos g :
  wf_graph g → ids_consistent g →
  let g' := scan_nodes stod fuel content tid pos g in
  wf_graph g' ∧ ids_consistent g' ∧ named_edges g' = named_edges g.
Proof.
  revert pos g. induction fuel as [|fuel IH]; intros pos g Hwf Hc;
    cbn [scan_nodes]; [done|].
  destruct (find "<node" pos content) as [node_pos|]; [|done].
  destruct (find ">" node_pos content) as [node_tag_end|]; [|done].
  cbv zeta.
  destruct (if match String.get (node_tag_end - 1) content with
               | Some c => Ascii.eqb c "/" | None => false end
            then Some node_tag_end
            else match find "</node>" (node_tag_end + 1) content with
                 | Some close_pos => Some (close_pos + 7)
                 | None => None
                 end) as [node_block_end|]; [|done].
  destruct (negb (is_empty _)); [|by apply IH].
  pose proof (d_get_internal_id_wf g
    (get_xml_attr
       (substr 0 (node_tag_end - node_pos + 1)
          (substr node_pos (node_block_end - node_pos) content)) "id") Hwf)
    as [Hwf1 _].
  pose proof (d_get_internal_id_consistent g
    (get_xml_attr
       (substr 0 (node_tag_end - node_pos + 1)
          (substr node_pos (node_block_end - node_pos) content)) "id") Hc)
    as Hc1.
  pose proof (d_get_internal_id_named_edges g
    (get_xml_attr
       (substr 0 (node_tag_end - node_pos + 1)
          (substr node_pos (node_block_end - node_pos) content)) "id") Hwf)
    as Hn1.
  destruct (get_internal_id _ g) as [u g1]. cbn [snd] in *.
  match goal with
  | |- context [scan_attvalues stod ?f ?b ?n ?t ?p g1] =>
      destruct (d_scan_attvalues_edges f b n t p g1 Hwf1 Hc1) as (A1 & A2 & A3);
      cbn zeta in A1, A2, A3;
      destruct (IH node_block_end (scan_attvalues stod f b n t p g1) A1 A2)
        as (H1 & H2 & H3)
  end.
  cbn zeta in *. by rewrite H3, A3, Hn1.
Qed.

(** The loop over the [<edge] tags runs its body on each tag in turn. *)
Lemma d_scan_edges_turns fuel content pos g :
  scan_edges stod fuel content pos g =
  fold_left (edge_turn stod) (edge_tags fuel content pos) g.
Proof.
  revert pos g. induction fuel as [|fuel IH]; intros pos g;
    cbn [scan_edges edge_tags]; [done|].
  destruct (find "<edge" pos content) as [edge_pos|]; [|done].
  destruct (find ">" edge_pos content) as [edge_end|]; [|done].
  cbn [fold_left]. apply IH.
Qed.

Lemma d_edge_turn_complete g tag :
  edge_turn stod g tag =
  if complete tag
  then add_edge (get_xml_attr tag "source") (get_xml_attr tag "target")
         (weight_of stod tag) g
  else g.
Proof.
  unfold edge_turn, complete, weight_of, is_empty.
  by destruct (get_xml_attr tag "weight").
Qed.

Lemma d_edge_turns_edges tags g :
  wf_graph g → ids_consistent g →
  let g' := fold_left (edge_turn stod) tags g in
  wf_graph g' ∧ ids_consistent g' ∧
  named_edges g' ≡ₚ
    named_edges g ++ map (edge_of_tag stod) (filter (λ tag, complete tag) tags).
Proof.
  revert g. induction tags as [|tag tags IH]; intros g Hwf Hc; cbn zeta.
  { cbn. by rewrite app_nil_r. }
  cbn [fold_left]. rewrite filter_cons, d_edge_turn_complete.
  destruct (complete tag) eqn:E.
  - destruct (IH (add_edge (get_xml_attr tag "source")
                    (get_xml_attr tag "target") (weight_of stod tag) g))
      as (H1 & H2 & H3);
      [by apply d_add_edge_wf|by apply d_add_edge_consistent|].
    cbn zeta in *. split; [done|]. split; [done|].
    rewrite decide_True by done. rewrite H3, d_add_edge_named_edges by done.
    cbn [map]. unfold edge_of_tag at 2. by rewrite <- app_assoc.
  - rewrite decide_False by (by intros []). by apply IH.
Qed.
End parsed_edges.

(** C9, as the code has it.  Nothing clamps.  The edges of a parsed graph
    are the [<edge] tags of the text that name a source and a target, each
    with the external ids the tag names and, as its probability, what
    [std::stod] returns for the text of the tag's own weight, whatever number
    that is, or 0.1 when the tag has no weight, an empty one, or one on which
    [std::stod] throws; and [add_edge] stores the probability it is given. *)
Theorem edge_probabilities_are_the_weights_read
    (stod : string → result double) (content attr_name : string)
    (g : Graph) (s t : string) (p : double) :
  named_edges (parse_content stod content attr_name).1 ≡ₚ
    map (edge_of_tag stod)
      (filter (λ tag, complete tag)
         (edge_tags (S (String.length content)) content 0)) ∧
  (wf_graph g → ids_consistent g →
   named_edges (add_edge s t p g) ≡ₚ named_edges g ++ [(s, t, p)]).
Proof.
  split; [|apply d_add_edge_named_edges].
  unfold parse_content.
  destruct (find_attribute _ _ _ _) as [tid found]. cbn [fst].
  destruct (d_scan_nodes_edges stod (S (String.length content)) content tid 0
              empty_graph d_wf_empty_graph d_ids_consistent_empty)
    as (Hwf & Hc & Hn).
  cbn zeta in *. rewrite d_scan_edges_turns.
  destruct (d_edge_turns_edges stod
              (edge_tags (S (String.length content)) content 0) _ Hwf Hc)
    as (_ & _ & He).
  cbn zeta in He. rewrite He, Hn. done.
Qed.

Lemma edge_weights_read_at_heavy_edge :
  named_edges (parse_content reads_five heavy_edge_doc "value").1
    ≡ₚ [("a", "b", 5%float)]%string ∧
  named_edges (add_edge "a" "b" 5 empty_graph) ≡ₚ [("a", "b", 5%float)]%string.
Proof.
  destruct (edge_probabilities_are_the_weights_read reads_five heavy_edge_doc
              "value" empty_graph "a" "b" 5) as [Hparsed Hadd].
  split.
  - etransitivity; [exact Hparsed|]. vm_compute. reflexivity.
  - apply (Hadd d_wf_empty_graph d_ids_consistent_empty).
Defined.

(** The document with the edge of weight 5, under a conversion that reads
    the text [5]: the edge is stored with probability 5. *)
Example d_parsed_heavy_edge :
  named_edges (parse_content reads_five heavy_edge_doc "value").1
    = [("a", "b", 5%float)]%string ∧
  (5 <=? 1)%float = false.
Proof. split; vm_compute; reflexivity. Qed.

(** ** A rollout adds up the values of distinct reachable nodes *)

Lemma d_add_values_snoc g t nodes v :
  add_values g t (nodes ++ [v]) = (add_values g t nodes + value_of g v)%float.
Proof. unfold add_values. by rewrite fold_left_app. Qed.

Section d_rollout_facts.
Context (g : Graph) (seed_list : list nat) (token : Z).
Hypothesis Hwf : wf_graph g.

Lemma d_activate_inv finished st v rng' :
  rollout_inv g seed_list token finished st →
  v < num_nodes g → reachable g seed_list v →
  seen_at (last_seen st) v ≠ token →
  rollout_inv g seed_list token finished
    {| last_seen := <[v := token]> (last_seen st);
       queue := queue st ++ [v];
       total_value := (total_value st + value_of g v)%float;
       rng := rng' |}.
Proof.
  intros [Hnd Hn Ht Hl] Hv Hr Hs. split; cbn.
  - rewrite app_assoc. apply NoDup_app. split; [done|]. split.
    + intros x Hx Hx'. apply list_elem_of_singleton in Hx'. subst x.
      by destruct (Hn _ Hx) as (_ & ? & _).
    + apply NoDup_singleton.
  - intros w Hw. rewrite seen_at_insert by lia.
    rewrite app_assoc in Hw. apply elem_of_app in Hw as [Hw|Hw].
    + destruct (Hn _ Hw) as (? & ? & ?). by destruct (decide (w = v)).
    + apply list_elem_of_singleton in Hw. subst w. by rewrite decide_True.
  - by rewrite app_assoc, d_add_values_snoc, Ht.
  - by rewrite length_insert.
Qed.

Lemma d_rollout_inv_rng finished st rng' :
  rollout_inv g seed_list token finished st →
  rollout_inv g seed_list token finished
    {| last_seen := last_seen st; queue := queue st;
       total_value := total_value st; rng := rng' |}.
Proof. intros [? ? ? ?]. by split. Qed.

Lemma d_seed_step_inv finished st s :
  s ∈ seed_list → s < num_nodes g →
  rollout_inv g seed_list token finished st →
  rollout_inv g seed_list token finished (seed_step g token st s).
Proof.
  intros Hs Hlt Hinv. unfold seed_step.
  destruct (seen_at (last_seen st) s =? token)%Z eqn:E; [done|].
  apply Z.eqb_neq in E. apply d_activate_inv; auto. by constructor.
Qed.

Lemma d_edge_step_inv finished st u e :
  reachable g seed_list u → e ∈ edges_of g u →
  rollout_inv g seed_list token finished st →
  rollout_inv g seed_list token finished (edge_step g token st e).
Proof.
  intros Hu He Hinv. unfold edge_step.
  destruct (seen_at (last_seen st) (to e) =? token)%Z eqn:E; [done|].
  apply Z.eqb_neq in E. unfold dist. destruct (_ <=? _)%float.
  - apply d_activate_inv; eauto using d_edges_of_in_range, reach_edge.
  - by apply d_rollout_inv_rng.
Qed.

Lemma d_edges_fold_inv finished u es st :
  reachable g seed_list u → (∀ e, e ∈ es → e ∈ edges_of g u) →
  rollout_inv g seed_list token finished st →
  rollout_inv g seed_list token finished (fold_left (edge_step g token) es st).
Proof.
  intros Hu. revert st. induction es as [|e es IH]; intros st Hes Hinv; cbn;
    [done|].
  apply IH; [intros e' He'; apply Hes; by right|].
  eapply d_edge_step_inv; eauto. apply Hes. by left.
Qed.

Lemma d_bfs_turn_inv finished st u rest :
  queue st = u :: rest →
  rollout_inv g seed_list token finished st →
  rollout_inv g seed_list token (finished ++ [u]) (bfs_turn g token u rest st).
Proof.
  intros Hq [Hnd Hn Ht Hl]. rewrite Hq in *. unfold bfs_turn.
  assert (reachable g seed_list u) as Hu.
  { apply (Hn u). apply elem_of_app. right. by left. }
  apply (d_edges_fold_inv _ u); [done|done|].
  split; cbn; rewrite <- ?app_assoc; done.
Qed.

(** [num_nodes g] turns empty the queue: the [while] loop is left because
    its guard is false. *)
Lemma d_bfs_loop_drains fuel finished st :
  rollout_inv g seed_list token finished st →
  num_nodes g ≤ fuel + length finished →
  queue (bfs_loop fuel g token st) = [] ∧
  ∃ finished', rollout_inv g seed_list token finished' (bfs_loop fuel g token st).
Proof.
  revert finished st. induction fuel as [|fuel IH]; intros finished st Hinv Hlen;
    cbn [bfs_loop].
  - split; [|eauto]. destruct Hinv as [Hnd Hn _ _].
    assert (length (finished ++ queue st) ≤ num_nodes g) as Hle.
    { apply NoDup_below_length; [done|]. intros x Hx. by destruct (Hn x Hx). }
    rewrite length_app in Hle. destruct (queue st); [done|]. cbn in Hle. lia.
  - destruct (queue st) as [|u rest] eqn:Hq; [eauto|].
    apply (IH (finished ++ [u])); [by apply d_bfs_turn_inv|].
    rewrite length_app. cbn. lia.
Qed.

Hypothesis Hseeds : ∀ s, s ∈ seed_list → s < num_nodes g.

Lemma d_seeded_inv rng0 ls :
  length ls = num_nodes g →
  rollout_inv g seed_list token [] (seeded g seed_list rng0 ls token).
Proof.
  intros Hls. unfold seeded.
  assert (∀ l st, (∀ s, s ∈ l → s ∈ seed_list) →
    rollout_inv g seed_list token [] st →
    rollout_inv g seed_list token [] (fold_left (seed_step g token) l st)) as H.
  { induction l as [|s l IH]; intros st Hl Hinv; cbn; [done|].
    apply IH; [intros s' Hs'; apply Hl; by right|].
    apply d_seed_step_inv; auto; [apply Hl; by left|apply Hseeds, Hl; by left]. }
  apply H; [done|]. split; cbn; [constructor| |done|done].
  intros v Hv. by apply elem_of_nil in Hv.
Qed.

(** The total a rollout returns, and the epoch vector it leaves. *)
Lemma d_rollout_sum rng0 ls :
  length ls = num_nodes g →
  let st := rollout g seed_list rng0 ls token in
  queue st = [] ∧ length (last_seen st) = num_nodes g ∧
  rollout_total g seed_list (total_value st).
Proof.
  intros Hls st.
  destruct (d_bfs_loop_drains (num_nodes g) [] (seeded g seed_list rng0 ls token))
    as (Hq & finished & [Hnd Hn Ht Hl]); [by apply d_seeded_inv|cbn; lia|].
  fold (rollout g seed_list rng0 ls token) in *. fold st in Hq, Hnd, Hn, Ht, Hl.
  split; [done|]. split; [done|]. rewrite Hq, app_nil_r in *.
  exists finished. split; [done|]. split; [|done].
  intros v Hv. by destruct (Hn v Hv) as (? & _ & ?).
Qed.

End d_rollout_facts.

(** The estimator adds up the totals of its rollouts. *)
Lemma d_mc_loop_sum g seed_list rounds token ls total rng0 :
  wf_graph g → (∀ s, s ∈ seed_list → s < num_nodes g) →
  length ls = num_nodes g →
  ∃ totals, length totals = rounds ∧
    Forall (rollout_total g seed_list) totals ∧
    (mc_loop rounds g seed_list token ls total rng0).1 = add_totals total totals.
Proof.
  intros Hwf Hseeds. revert token ls total rng0.
  induction rounds as [|rounds IH]; intros token ls total rng0 Hls;
    cbn [mc_loop].
  - by exists [].
  - set (tl := if (next_token token =? 0)%Z then _ else _).
    assert (length tl.2 = num_nodes g) as Hls'.
    { subst tl. destruct (_ =? _)%Z; cbn; [by rewrite length_replicate|done]. }
    destruct tl as [token' ls']. cbn in Hls'.
    unfold run_weighted_simulation_token.
    destruct (d_rollout_sum g seed_list token' Hwf Hseeds rng0 ls' Hls')
      as (_ & Hl & Htot).
    cbn zeta in Hl, Htot.
    destruct (IH token' _
      (total + total_value (rollout g seed_list rng0 ls' token'))%float
      (rng (rollout g seed_list rng0 ls' token')) Hl)
      as (totals & Hlen & Hall & Hsum).
    exists (total_value (rollout g seed_list rng0 ls' token') :: totals).
    split; [cbn; by rewrite Hlen|]. split; [by constructor|].
    by rewrite Hsum.
Qed.

(** *** Sums and means of non-negative values are non-negative *)

Lemma d_nonneg_spec x : (0 <=? x)%float = SFnonneg (Prim2SF x).
Proof.
  rewrite FloatAxioms.leb_spec.
  change (Prim2SF 0%float) with (S754_zero false).
  by destruct (Prim2SF x) as [[]|[]| |[] m e].
Qed.

Lemma shr_1_nonneg mrs : (0 ≤ shr_m mrs)%Z → (0 ≤ shr_m (shr_1 mrs))%Z.
Proof. destruct mrs as [[|[p|p|]|[p|p|]] r s]; cbn; lia. Qed.

Lemma iter_pos_shr_nonneg p mrs :
  (0 ≤ shr_m mrs)%Z → (0 ≤ shr_m (iter_pos shr_1 p mrs))%Z.
Proof.
  revert mrs. induction p as [p IH|p IH|]; intros mrs H; cbn [iter_pos];
    auto using shr_1_nonneg.
Qed.

Lemma shr_fexp_nonneg m e l :
  (0 ≤ m)%Z → (0 ≤ shr_m (shr_fexp prec emax m e l).1)%Z.
Proof.
  intros H. unfold shr_fexp, shr.
  assert (shr_m (shr_record_of_loc m l) = m) as Hm by (by destruct l as [|[]]).
  destruct (_ - _)%Z; cbn [fst]; rewrite <- Hm in H; [done| |done].
  by apply iter_pos_shr_nonneg.
Qed.

Lemma round_nearest_even_nonneg m l :
  (0 ≤ m)%Z → (0 ≤ round_nearest_even m l)%Z.
Proof.
  intros H. destruct l as [|[]]; cbn [round_nearest_even]; try lia.
  destruct (Z.even m); lia.
Qed.

Lemma binary_round_aux_nonneg m e l :
  (0 ≤ m)%Z → SFnonneg (binary_round_aux prec emax false m e l) = true.
Proof.
  intros H. unfold binary_round_aux.
  pose proof (shr_fexp_nonneg m e l H) as H1.
  destruct (shr_fexp prec emax m e l) as [mrs' e']. cbn [fst] in H1.
  pose proof (shr_fexp_nonneg _ e' loc_Exact
                (round_nearest_even_nonneg _ (loc_of_shr_record mrs') H1)) as H2.
  destruct (shr_fexp prec emax _ e' loc_Exact) as [mrs'' e'']. cbn [fst] in H2.
  destruct (shr_m mrs''); [done| |lia].
  by destruct (_ <=? _)%Z.
Qed.

Lemma binary_round_nonneg m e :
  SFnonneg (binary_round prec emax false m e) = true.
Proof.
  unfold binary_round. destruct (shl_align _ _ _) as [mz ez].
  by apply binary_round_aux_nonneg.
Qed.

Lemma SFadd_nonneg x y :
  SFnonneg x = true → SFnonneg y = true → SFnonneg (SF64add x y) = true.
Proof.
  unfold SF64add, SFadd.
  destruct x as [[]|[]| |[] mx ex], y as [[]|[]| |[] my ey]; try done.
  intros _ _. cbn [cond_Zopp].
  change (Z.pos ?a + Z.pos ?b)%Z with (Z.pos (a + b)).
  cbn [binary_normalize]. apply binary_round_nonneg.
Qed.

Lemma SFdiv_nonneg x my ey :
  SFnonneg x = true →
  SFnonneg (SF64div x (S754_finite false my ey)) = true.
Proof.
  unfold SF64div, SFdiv. destruct x as [[]|[]| |[] mx ex]; try done.
  intros _. unfold SFdiv_core_binary.
  set (m' := match _ with Z.pos _ => _ | Z0 => _ | Z.neg _ => _ end).
  assert (0 ≤ m')%Z as Hm'.
  { subst m'. destruct (_ - _ - _)%Z; [lia| |lia].
    apply Z.shiftl_nonneg. lia. }
  pose proof (Z.div_pos m' (Z.pos my) Hm' ltac:(lia)) as Hq.
  unfold Z.div in Hq.
  destruct (Z.div_eucl m' (Z.pos my)) as [q r]. cbn [fst xorb] in *.
  by apply binary_round_aux_nonneg.
Qed.

Lemma d_add_nonneg x y :
  (0 <=? x)%float = true → (0 <=? y)%float = true →
  (0 <=? x + y)%float = true.
Proof.
  rewrite !d_nonneg_spec, FloatAxioms.add_spec. apply SFadd_nonneg.
Qed.

(** [double(n)] for a positive [int] is a positive finite number. *)
Lemma digits2_pos_shift p d :
  digits2_pos (Pos.iter xO p d) = (digits2_pos p + d)%positive.
Proof.
  induction d as [|d IH] using Pos.peano_ind.
  - cbn. by rewrite Pos.add_1_r.
  - rewrite Pos.iter_succ. cbn [digits2_pos]. rewrite IH. lia.
Qed.

Lemma digits2_pos_bound p (n : nat) :
  (Z.pos p < 2 ^ Z.of_nat n)%Z → (Z.pos (digits2_pos p) ≤ Z.of_nat n)%Z.
Proof.
  revert n. induction p as [p IH|p IH|]; intros n H; cbn [digits2_pos].
  - destruct n as [|n]; [cbn in H; lia|].
    rewrite Nat2Z.inj_succ, Z.pow_succ_r in H by lia.
    specialize (IH n ltac:(lia)). lia.
  - destruct n as [|n]; [cbn in H; lia|].
    rewrite Nat2Z.inj_succ, Z.pow_succ_r in H by lia.
    specialize (IH n ltac:(lia)). lia.
  - destruct n as [|n]; [cbn in H; lia|]. lia.
Qed.

Lemma binary_round_small p :
  (Z.pos p < 2 ^ 31)%Z →
  ∃ m e, binary_round prec emax false p 0 = S754_finite false m e.
Proof.
  intros Hp. pose proof (digits2_pos_bound p 31 Hp) as Hd.
  set (dg := digits2_pos p) in *.
  assert (fexp prec emax (Z.pos dg + 0) = (Z.pos dg - 53)%Z) as Hf.
  { unfold fexp, emin, prec, emax. lia. }
  unfold binary_round. fold dg. rewrite Hf. unfold shl_align.
  destruct (Z.pos dg - 53 - 0)%Z as [|q|d] eqn:Hsub; [lia|lia|].
  set (mz := Pos.iter xO p d). set (ez := (Z.pos dg - 53)%Z).
  assert (Z.pos (digits2_pos mz) = 53%Z) as Hdz.
  { subst mz. rewrite digits2_pos_shift. fold dg. lia. }
  assert (∀ l, shr_fexp prec emax (Z.pos mz) ez l =
               (shr_record_of_loc (Z.pos mz) l, ez)) as Hshr.
  { intros l. unfold shr_fexp. cbn [Zdigits2]. rewrite Hdz.
    assert (fexp prec emax (53 + ez) - ez = 0)%Z as ->.
    { unfold fexp, emin, prec, emax. lia. }
    reflexivity. }
  exists mz, ez. unfold binary_round_aux.
  rewrite Hshr. cbn [shr_record_of_loc shr_m loc_of_shr_record round_nearest_even].
  rewrite Hshr. cbn [shr_record_of_loc shr_m].
  assert ((ez <=? emax - prec)%Z = true) as ->; [|done].
  apply Z.leb_le. unfold prec, emax. lia.
Qed.

Lemma d_double_of_int_pos (n : Z) :
  (0 < n < 2 ^ 31)%Z →
  ∃ m e, Prim2SF (double_of_int n) = S754_finite false m e.
Proof.
  intros Hn. unfold double_of_int.
  assert ((n <? 0)%Z = false) as -> by lia.
  rewrite FloatAxioms.of_uint63_spec, Uint63.of_Z_spec.
  rewrite Z.mod_small
    by (split; [lia|]; apply Z.lt_trans with (2 ^ 31)%Z; [lia|reflexivity]).
  destruct n as [|p|p]; [lia| |lia].
  cbn [binary_normalize]. apply binary_round_small. lia.
Qed.

Lemma d_div_nonneg x (n : Z) :
  (0 < n < 2 ^ 31)%Z → (0 <=? x)%float = true →
  (0 <=? x / double_of_int n)%float = true.
Proof.
  intros Hn. rewrite !d_nonneg_spec, FloatAxioms.div_spec.
  destruct (d_double_of_int_pos n Hn) as (m & e & ->). apply SFdiv_nonneg.
Qed.

Lemma d_add_values_nonneg g total nodes :
  (∀ v, (0 <=? value_of g v)%float = true) →
  (0 <=? total)%float = true →
  (0 <=? add_values g total nodes)%float = true.
Proof.
  intros Hv. revert total. induction nodes as [|v nodes IH]; intros total Ht;
    cbn; [done|].
  apply IH. by apply d_add_nonneg.
Qed.

Lemma d_add_totals_nonneg total totals :
  Forall (λ t, (0 <=? t)%float = true) totals →
  (0 <=? total)%float = true →
  (0 <=? add_totals total totals)%float = true.
Proof.
  intros Hall. revert total. induction Hall as [|t totals Ht _ IH];
    intros total H0; cbn; [done|].
  apply IH. by apply d_add_nonneg.
Qed.

(** C8, as the code has it.  On a graph built as the methods build it and
    for seeds that are node ids: whatever the values, the engine, the epoch
    vector and the token, one rollout returns the sum, formed in the order of
    activation and rounded at every addition, of the values of distinct nodes
    that are reachable from the seeds; and the estimator returns the sum of
    [mc_rounds] such totals, rounded at every addition, divided by
    [double(mc_rounds)].  When no node value is below zero, neither is the
    rollout's total, nor the estimate for a positive [int mc_rounds]. *)
Theorem spread_is_a_rounded_sum_over_reachable_nodes (g : Graph)
    (seed_list : list nat) (rng0 : mt19937) (ls : list Z) (token mc_rounds : Z) :
  wf_graph g →
  Forall (λ s, s < num_nodes g) seed_list →
  length ls = num_nodes g →
  let total := (run_weighted_simulation_token g seed_list rng0 ls token).1.1 in
  let estimate := (estimate_weighted_spread g seed_list mc_rounds rng0).1 in
  rollout_total g seed_list total ∧
  (∃ totals, length totals = Z.to_nat mc_rounds ∧
     Forall (rollout_total g seed_list) totals ∧
     estimate = (add_totals 0 totals / double_of_int mc_rounds)%float) ∧
  ((∀ v, (0 <=? value_of g v)%float = true) →
   (0 <=? total)%float = true ∧
   ((0 < mc_rounds < 2 ^ 31)%Z → (0 <=? estimate)%float = true)).
Proof.
  intros Hwf Hseeds Hls total estimate.
  assert (∀ s, s ∈ seed_list → s < num_nodes g) as Hs
    by (by apply Forall_forall).
  assert (rollout_total g seed_list total) as Htotal.
  { subst total. unfold run_weighted_simulation_token. cbn [fst].
    by destruct (d_rollout_sum g seed_list token Hwf Hs rng0 ls Hls) as (_ & _ & ?). }
  assert (∃ totals, length totals = Z.to_nat mc_rounds ∧
            Forall (rollout_total g seed_list) totals ∧
            estimate = (add_totals 0 totals / double_of_int mc_rounds)%float)
    as (totals & Hlen & Hall & Hest).
  { subst estimate. unfold estimate_weighted_spread.
    destruct (d_mc_loop_sum g seed_list (Z.to_nat mc_rounds) 1
                (replicate (num_nodes g) 0%Z) 0%float rng0 Hwf Hs
                (length_replicate _ _)) as (totals & Hlen & Hall & Hsum).
    exists totals. destruct (mc_loop _ _ _ _ _ _ _) as [t r]. cbn [fst] in *.
    by rewrite Hsum. }
  split; [done|]. split; [by exists totals|].
  intros Hv.
  assert (∀ t, rollout_total g seed_list t → (0 <=? t)%float = true) as Hpos.
  { intros t (activated & _ & _ & ->). by apply d_add_values_nonneg. }
  split; [by apply Hpos|].
  intros Hmc. rewrite Hest. apply d_div_nonneg; [done|].
  apply d_add_totals_nonneg; [|done].
  eapply Forall_impl; [exact Hall|exact Hpos].
Qed.

Lemma d_one_node_graph_wf : wf_graph one_node_graph.
Proof. apply d_set_node_value_wf, d_wf_empty_graph. Qed.

Lemma spread_at_one_node_graph :
  rollout_total one_node_graph [0]
    (run_weighted_simulation_token one_node_graph [0] (constant_engine 0.5)
       [0%Z] 1).1.1 ∧
  (run_weighted_simulation_token one_node_graph [0] (constant_engine 0.5)
     [0%Z] 1).1.1 = tenth ∧
  (0 <=? (estimate_weighted_spread one_node_graph [0%nat] 3
            (constant_engine 0.5)).1)%float = true.
Proof.
  destruct (spread_is_a_rounded_sum_over_reachable_nodes one_node_graph [0]
              (constant_engine 0.5) [0%Z] 1 3) as (Htotal & _ & Hpos).
  - apply d_one_node_graph_wf.
  - apply Forall_singleton. vm_compute. lia.
  - reflexivity.
  - split; [exact Htotal|]. split; [vm_compute; reflexivity|].
    apply Hpos; [|lia].
    intros [|v]; reflexivity.
Defined.

(** C8 as stated fails.  One node of value 0.1, no edge, that node as the
    seed, three rounds: every rollout returns 0.1, the sum over the reachable
    nodes is 0.1, and the estimator returns [(0.1 + 0.1 + 0.1) / 3], which in
    binary64 is the next number above 0.1. *)
Lemma rounded_mean_exceeds_reachable_value :
  let g := one_node_graph in
  let estimate := (estimate_weighted_spread g [0] 3 (constant_engine 0.5)).1 in
  node_values g = [tenth] ∧ (0 <=? tenth)%float = true ∧
  reachable_nodes g [0] = [0] ∧
  add_values g 0 (reachable_nodes g [0]) = tenth ∧
  estimate = 0x1.999999999999bp-4%float ∧
  ¬ ((0 <=? estimate)%float = true ∧
     (estimate <=? add_values g 0 (reachable_nodes g [0%nat]))%float = true).
Proof.
  cbv zeta. split; [vm_compute; reflexivity|]. split; [vm_compute; reflexivity|].
  split; [vm_compute; reflexivity|]. split; [vm_compute; reflexivity|].
  split; [vm_compute; reflexivity|].
  intros [_ H]. vm_compute in H. discriminate H.
Qed.

(** ** The estimator when chance plays no part *)

Lemma d_edges_of_all_edges g u e : e ∈ edges_of g u → e ∈ all_edges g.
Proof.
  unfold edges_of, all_edges. intros He.
  destruct (adj g !! u) as [es|] eqn:Hu; cbn in He;
    [|by apply elem_of_nil in He].
  apply list_elem_of_In, in_concat. exists es.
  split; apply list_elem_of_In; [by eapply list_elem_of_lookup_2|done].
Qed.

Section d_marks.
Variables (g : Graph) (ls0 : list Z) (t : Z).

Lemma d_marks_inv_insert ls q q' tv tv' r r' v :
  marks_inv ls0 t (mkSim ls q tv r) →
  marks_inv ls0 t (mkSim (<[v := t]> ls) q' tv' r').
Proof.
  intros [Hl Hm]. split; cbn in *; [by rewrite length_insert|].
  intros w. rewrite seen_at_insert_gen. destruct (decide _); [by right|apply Hm].
Qed.

Lemma d_seed_step_marks st s :
  marks_inv ls0 t st → marks_inv ls0 t (seed_step g t st s).
Proof.
  intros H. unfold seed_step. destruct (_ =? _)%Z; [done|].
  destruct st. by eapply d_marks_inv_insert.
Qed.

Lemma d_edge_step_marks st e :
  marks_inv ls0 t st → marks_inv ls0 t (edge_step g t st e).
Proof.
  intros H. unfold edge_step. destruct (_ =? _)%Z; [done|]. unfold dist.
  destruct (_ <=? _)%float; [destruct st; by eapply d_marks_inv_insert|].
  destruct H. by split.
Qed.

Lemma d_fold_left_marks {A} (f : sim_state → A → sim_state) l st :
  (∀ s a, marks_inv ls0 t s → marks_inv ls0 t (f s a)) →
  marks_inv ls0 t st → marks_inv ls0 t (fold_left f l st).
Proof.
  intros Hf. revert st. induction l as [|a l IH]; intros st H; cbn; [done|].
  by apply IH, Hf.
Qed.

Lemma d_bfs_loop_marks fuel st :
  marks_inv ls0 t st → marks_inv ls0 t (bfs_loop fuel g t st).
Proof.
  revert st. induction fuel as [|fuel IH]; intros st H; cbn [bfs_loop]; [done|].
  destruct (queue st) as [|u rest]; [done|].
  apply IH. unfold bfs_turn. apply d_fold_left_marks; [apply d_edge_step_marks|].
  destruct H. by split.
Qed.

Lemma d_rollout_marks seed_list rng0 :
  marks_inv ls0 t (rollout g seed_list rng0 ls0 t).
Proof.
  unfold rollout, seeded. apply d_bfs_loop_marks, d_fold_left_marks;
    [apply d_seed_step_marks|]. split; cbn; [done|]. by left.
Qed.
End d_marks.

(** Every round of the estimator runs on an epoch vector in which no node
    carries the token of the round: when every such rollout returns [T],
    the estimator adds up [T] once per round. *)
Lemma d_mc_loop_constant g seed_list (P : mt19937 → Prop) (T : double) :
  (∀ r ls t, P r → length ls = num_nodes g → (∀ v, seen_at ls v ≠ t) →
     let st := rollout g seed_list r ls t in total_value st = T ∧ P (rng st)) →
  ∀ rounds token ls total r,
    P r → length ls = num_nodes g → (1 <= token < 2 ^ 32)%Z →
    (∀ v, 0 <= seen_at ls v <= token)%Z →
    (mc_loop rounds g seed_list token ls total r).1 =
    add_totals total (replicate rounds T).
Proof.
  intros Hround.
  induction rounds as [|rounds IH]; intros token ls total r Hr Hlen Htok Hls;
    cbn [mc_loop replicate]; [done|].
  unfold next_token, run_weighted_simulation_token.
  destruct (Z.eqb_spec ((token + 1) mod 2 ^ 32) 0) as [Hz|Hnz].
  - destruct (Hround r (replicate (length ls) 0%Z) 1%Z Hr) as [HT HP].
    { by rewrite length_replicate. }
    { intros v. rewrite seen_at_replicate. lia. }
    destruct (d_rollout_marks g (replicate (length ls) 0%Z) 1 seed_list r)
      as [Hl Hm].
    cbn zeta in *. rewrite IH; [by rewrite HT|done| |lia|].
    + by rewrite Hl, length_replicate.
    + intros v. destruct (Hm v) as [-> | ->]; [rewrite seen_at_replicate|]; lia.
  - assert (token + 1 < 2 ^ 32)%Z as Hlt.
    { destruct (decide (token + 1 = 2 ^ 32)%Z) as [E|E]; [|lia].
      rewrite E, Z.mod_same in Hnz; lia. }
    rewrite Z.mod_small by lia.
    destruct (Hround r ls (token + 1)%Z Hr Hlen) as [HT HP].
    { intros v. specialize (Hls v). lia. }
    destruct (d_rollout_marks g ls (token + 1)%Z seed_list r) as [Hl Hm].
    cbn zeta in *. rewrite IH; [by rewrite HT|done|lia|lia|].
    intros v. specialize (Hls v). destruct (Hm v) as [-> | ->]; lia.
Qed.

Lemma d_estimate_constant g seed_list (P : mt19937 → Prop) (T : double)
    mc_rounds r :
  (∀ r ls t, P r → length ls = num_nodes g → (∀ v, seen_at ls v ≠ t) →
     let st := rollout g seed_list r ls t in total_value st = T ∧ P (rng st)) →
  P r →
  (estimate_weighted_spread g seed_list mc_rounds r).1 =
  (add_totals 0 (replicate (Z.to_nat mc_rounds) T) / double_of_int mc_rounds)%float.
Proof.
  intros Hround Hr. unfold estimate_weighted_spread. cbv zeta.
  pose proof (d_mc_loop_constant g seed_list P T Hround (Z.to_nat mc_rounds) 1
                (replicate (num_nodes g) 0%Z) 0%float r Hr
                (length_replicate _ _)) as H.
  destruct (mc_loop _ _ _ _ _ _ _) as [total r1]. cbn [fst] in *.
  rewrite H; [done|lia|]. intros v. rewrite seen_at_replicate. lia.
Qed.

(** *** No edge fires *)

Section d_cascades.
Context (g : Graph) (seed_list : list nat) (t : Z).
Hypothesis Hseeds : ∀ s, s ∈ seed_list → s < num_nodes g.





End d_cascades.



(** *** Every edge fires *)

Section d_certain.
Context (g : Graph) (seed_list : list nat) (t : Z).
Hypothesis Hwf : wf_graph g.
Hypothesis Hseeds : ∀ s, s ∈ seed_list → s < num_nodes g.

Lemma d_activate_tracked finished st v rng' :
  tracked g seed_list t finished st →
  v < num_nodes g → reachable g seed_list v →
  seen_at (last_seen st) v ≠ t →
  tracked g seed_list t finished
    {| last_seen := <[v := t]> (last_seen st);
       queue := queue st ++ [v];
       total_value := (total_value st + value_of g v)%float;
       rng := rng' |}.
Proof.
  intros [Hinv Hm] Hv Hr Hs. split; [by apply d_activate_inv|]. cbn.
  intros w. rewrite seen_at_insert_gen, app_assoc, elem_of_app.
  destruct (decide _) as [[-> _]|_].
  - intros _. right. by apply list_elem_of_singleton.
  - intros Hw. left. by apply Hm.
Qed.

Lemma d_seeds_tracked l st :
  (∀ s, s ∈ l → s ∈ seed_list) →
  tracked g seed_list t [] st →
  let st' := fold_left (seed_step g t) l st in
  tracked g seed_list t [] st' ∧ rng st' = rng st ∧
  (∀ v, v ∈ queue st → v ∈ queue st') ∧ (∀ s, s ∈ l → s ∈ queue st').
Proof.
  revert st. induction l as [|s l IH]; intros st Hl Htr; cbn zeta.
  - cbn. split_and!; try done. intros s Hs. by apply elem_of_nil in Hs.
  - cbn [fold_left].
    assert (s ∈ seed_list) as Hs by (apply Hl; by left).
    assert (tracked g seed_list t [] (seed_step g t st s) ∧
            rng (seed_step g t st s) = rng st ∧
            (∀ v, v ∈ queue st → v ∈ queue (seed_step g t st s)) ∧
            s ∈ queue (seed_step g t st s)) as (H1 & H2 & H4 & H5).
    { unfold seed_step.
      destruct (Z.eqb_spec (seen_at (last_seen st) s) t) as [E|E].
      - split_and!; try done. destruct Htr as [_ Hm]. by apply (Hm s).
      - split; [apply d_activate_tracked; auto; by constructor|]. cbn.
        split_and!; try done.
        + intros v Hv. apply elem_of_app. by left.
        + apply elem_of_app. right. by apply list_elem_of_singleton. }
    destruct (IH (seed_step g t st s)) as (I1 & I2 & I4 & I5);
      [intros; apply Hl; by right|done|].
    cbn zeta in *. split_and!; try done; [by rewrite I2|auto|].
    intros s' Hs'. apply elem_of_cons in Hs' as [->|Hs']; auto.
Qed.

Lemma d_edge_step_certain finished st u e :
  reachable g seed_list u → e ∈ edges_of g u →
  tracked g seed_list t finished st → all_fire g (rng st) →
  let st' := edge_step g t st e in
  tracked g seed_list t finished st' ∧ all_fire g (rng st') ∧
  to e ∈ finished ++ queue st' ∧
  (∀ v, v ∈ finished ++ queue st → v ∈ finished ++ queue st').
Proof.
  intros Hu He Htr Hfire. cbn zeta. unfold edge_step.
  destruct (Z.eqb_spec (seen_at (last_seen st) (to e)) t) as [E|E].
  - split_and!; try done. destruct Htr as [_ Hm]. by apply Hm.
  - unfold dist. rewrite (Hfire e 0 (d_edges_of_all_edges g u e He)).
    split; [apply d_activate_tracked;
            eauto using d_edges_of_in_range, reach_edge|].
    cbn. split; [intros e' n He'; by apply Hfire|].
    rewrite app_assoc. split.
    + apply elem_of_app. right. by apply list_elem_of_singleton.
    + intros v Hv. apply elem_of_app. by left.
Qed.

Lemma d_edges_fold_certain finished u es st :
  reachable g seed_list u → (∀ e, e ∈ es → e ∈ edges_of g u) →
  tracked g seed_list t finished st → all_fire g (rng st) →
  let st' := fold_left (edge_step g t) es st in
  tracked g seed_list t finished st' ∧ all_fire g (rng st') ∧
  (∀ e, e ∈ es → to e ∈ finished ++ queue st') ∧
  (∀ v, v ∈ finished ++ queue st → v ∈ finished ++ queue st').
Proof.
  intros Hu. revert st. induction es as [|e es IH]; intros st Hes Htr Hfire;
    cbn zeta.
  - cbn. split_and!; try done. intros e He. by apply elem_of_nil in He.
  - cbn [fold_left].
    destruct (d_edge_step_certain finished st u e Hu) as (H1 & H2 & H3 & H4);
      [apply Hes; by left|done|done|].
    destruct (IH (edge_step g t st e)) as (I1 & I2 & I3 & I4);
      [intros; apply Hes; by right|done|done|].
    cbn zeta in *. split_and!; try done; [|auto].
    intros e' He'. apply elem_of_cons in He' as [->|He']; auto.
Qed.

Lemma d_bfs_loop_certain fuel finished st :
  tracked g seed_list t finished st → all_fire g (rng st) →
  closed g finished st → (∀ s, s ∈ seed_list → s ∈ finished ++ queue st) →
  num_nodes g ≤ fuel + length finished →
  let st' := bfs_loop fuel g t st in
  all_fire g (rng st') ∧
  ∃ finished', rollout_inv g seed_list t finished' st' ∧ queue st' = [] ∧
    closed g finished' st' ∧ (∀ s, s ∈ seed_list → s ∈ finished').
Proof.
  revert finished st.
  induction fuel as [|fuel IH]; intros finished st Htr Hfire Hcl Hs Hlen;
    cbn zeta; cbn [bfs_loop].
  - split; [done|]. exists finished. destruct Htr as [Hinv Hm].
    assert (queue st = []) as Hq.
    { destruct Hinv as [Hnd Hn _ _].
      assert (length (finished ++ queue st) ≤ num_nodes g) as Hle.
      { apply NoDup_below_length; [done|]. intros x Hx. by destruct (Hn x Hx). }
      rewrite length_app in Hle. destruct (queue st); [done|]. cbn in Hle. lia. }
    split_and!; try done. intros s Hin. specialize (Hs s Hin).
    by rewrite Hq, app_nil_r in Hs.
  - destruct (queue st) as [|u rest] eqn:Hq.
    + split; [done|]. exists finished. destruct Htr as [Hinv Hm].
      split_and!; try done. intros s Hin. specialize (Hs s Hin).
      by rewrite app_nil_r in Hs.
    + destruct Htr as [Hinv Hm]. rewrite <- Hq in Hs.
      assert (reachable g seed_list u) as Hu.
      { destruct Hinv as [_ Hn _ _]. apply (Hn u). rewrite Hq.
        apply elem_of_app. right. by left. }
      set (st0 := {| last_seen := last_seen st; queue := rest;
                     total_value := total_value st; rng := rng st |}).
      assert (tracked g seed_list t (finished ++ [u]) st0) as Htr0.
      { split.
        - destruct Hinv as [Hnd Hn Ht Hl]. rewrite Hq in *.
          split; cbn; rewrite <- ?app_assoc; done.
        - cbn. rewrite <- app_assoc. cbn. rewrite <- Hq. exact Hm. }
      destruct (d_edges_fold_certain (finished ++ [u]) u (edges_of g u) st0 Hu)
        as (H1 & H2 & H3 & H4); [done|done|done|].
      cbn zeta in *. unfold bfs_turn. fold st0.
      apply (IH (finished ++ [u])); try done.
      * intros u' e Hu' He. apply elem_of_app in Hu' as [Hu'|Hu'].
        -- apply H4. subst st0. cbn. rewrite <- app_assoc. cbn. rewrite <- Hq.
           by eapply Hcl.
        -- apply list_elem_of_singleton in Hu'. subst u'. by apply H3.
      * intros s Hin. apply H4. subst st0. cbn. rewrite <- app_assoc. cbn.
        rewrite <- Hq. by apply Hs.
      * rewrite length_app. cbn. lia.
Qed.

(** When every edge fires, the nodes activated are exactly the nodes
    reachable from the seeds. *)
Lemma d_rollout_certain rng0 ls :
  length ls = num_nodes g → (∀ v, seen_at ls v ≠ t) → all_fire g rng0 →
  let st := rollout g seed_list rng0 ls t in
  all_fire g (rng st) ∧
  ∃ activated, NoDup activated ∧
    (∀ v, v ∈ activated ↔ reachable g seed_list v) ∧
    total_value st = add_values g 0%float activated.
Proof.
  intros Hlen Hfresh Hfire. cbn zeta. unfold rollout.
  destruct (d_seeds_tracked seed_list (mkSim ls [] 0%float rng0))
    as (Htr & Hr & _ & Hq); [done| |].
  { split.
    - split; cbn; [constructor| |done|done]. intros v Hv.
      by apply elem_of_nil in Hv.
    - cbn. intros v Hv. by apply Hfresh in Hv. }
  cbn zeta in *. fold (seeded g seed_list rng0 ls t) in Htr, Hr, Hq.
  destruct (d_bfs_loop_certain (num_nodes g) [] (seeded g seed_list rng0 ls t))
    as (Hf & finished & [Hnd Hn Ht _] & Hq' & Hcl & Hs); try done.
  - by rewrite Hr.
  - intros u e Hu. by apply elem_of_nil in Hu.
  - cbn. lia.
  - cbn zeta in *. split; [done|]. rewrite Hq', app_nil_r in *.
    exists finished. split; [done|]. split; [|done].
    intros v. split.
    + intros Hv. by destruct (Hn v Hv) as (_ & _ & ?).
    + induction 1 as [s Hin|u e _ IH He]; [by apply Hs|].
      specialize (Hcl u e IH He). by rewrite Hq', app_nil_r in Hcl.
Qed.
End d_certain.

(** Two rollouts under which every edge fires do the same, whatever their
    engines draw. *)
Lemma d_seed_step_same g t1 t2 st1 st2 s :
  sim_same t1 t2 st1 st2 →
  sim_same t1 t2 (seed_step g t1 st1 s) (seed_step g t2 st2 s) ∧
  rng (seed_step g t1 st1 s) = rng st1 ∧ rng (seed_step g t2 st2 s) = rng st2.
Proof.
  intros (Hm & Hq & Ht). unfold seed_step.
  rewrite (same_marks_test _ _ _ _ s Hm). destruct (_ =? _)%Z; [done|].
  split; [|done]. split; cbn; [by apply same_marks_insert|]. by rewrite Hq, Ht.
Qed.

Lemma d_edge_step_same g t1 t2 st1 st2 u e :
  e ∈ edges_of g u →
  sim_same t1 t2 st1 st2 → all_fire g (rng st1) → all_fire g (rng st2) →
  sim_same t1 t2 (edge_step g t1 st1 e) (edge_step g t2 st2 e) ∧
  all_fire g (rng (edge_step g t1 st1 e)) ∧
  all_fire g (rng (edge_step g t2 st2 e)).
Proof.
  intros He (Hm & Hq & Ht) H1 H2. unfold edge_step.
  rewrite (same_marks_test _ _ _ _ (to e) Hm). destruct (_ =? _)%Z; [done|].
  unfold dist.
  rewrite (H1 e 0 (d_edges_of_all_edges g u e He)),
    (H2 e 0 (d_edges_of_all_edges g u e He)).
  unfold sim_same. cbn.
  split; [split; [by apply same_marks_insert|by rewrite Hq, Ht]|].
  split; intros e' n He'; [by apply H1|by apply H2].
Qed.

Lemma d_edges_fold_same g t1 t2 u es st1 st2 :
  (∀ e, e ∈ es → e ∈ edges_of g u) →
  sim_same t1 t2 st1 st2 → all_fire g (rng st1) → all_fire g (rng st2) →
  sim_same t1 t2 (fold_left (edge_step g t1) es st1)
    (fold_left (edge_step g t2) es st2) ∧
  all_fire g (rng (fold_left (edge_step g t1) es st1)) ∧
  all_fire g (rng (fold_left (edge_step g t2) es st2)).
Proof.
  revert st1 st2. induction es as [|e es IH]; intros st1 st2 Hes H H1 H2; cbn;
    [done|].
  destruct (d_edge_step_same g t1 t2 st1 st2 u e) as (E & E1 & E2);
    [apply Hes; by left|done|done|done|].
  apply IH; [intros; apply Hes; by right|done|done|done].
Qed.

Lemma d_bfs_loop_same fuel g t1 t2 st1 st2 :
  sim_same t1 t2 st1 st2 → all_fire g (rng st1) → all_fire g (rng st2) →
  sim_same t1 t2 (bfs_loop fuel g t1 st1) (bfs_loop fuel g t2 st2).
Proof.
  revert st1 st2. induction fuel as [|fuel IH]; intros st1 st2 H H1 H2;
    cbn [bfs_loop]; [done|].
  pose proof H as (Hm & Hq & Ht). rewrite <- Hq.
  destruct (queue st1) as [|u rest]; [done|].
  unfold bfs_turn.
  destruct (d_edges_fold_same g t1 t2 u (edges_of g u)
              {| last_seen := last_seen st1; queue := rest;
                 total_value := total_value st1; rng := rng st1 |}
              {| last_seen := last_seen st2; queue := rest;
                 total_value := total_value st2; rng := rng st2 |})
    as (F & F1 & F2); [done|by split|done|done|].
  by apply IH.
Qed.

Lemma d_rollout_same g seed_list r1 r2 ls1 t1 ls2 t2 :
  same_marks ls1 t1 ls2 t2 → all_fire g r1 → all_fire g r2 →
  total_value (rollout g seed_list r1 ls1 t1) =
  total_value (rollout g seed_list r2 ls2 t2).
Proof.
  intros Hm H1 H2. unfold rollout, seeded.
  assert (∀ l st1 st2, sim_same t1 t2 st1 st2 →
    sim_same t1 t2 (fold_left (seed_step g t1) l st1)
      (fold_left (seed_step g t2) l st2) ∧
    rng (fold_left (seed_step g t1) l st1) = rng st1 ∧
    rng (fold_left (seed_step g t2) l st2) = rng st2) as Hseed.
  { induction l as [|s l IH]; intros st1 st2 H; cbn; [done|].
    destruct (d_seed_step_same g t1 t2 st1 st2 s H) as (S & S1 & S2).
    destruct (IH _ _ S) as (I & I1 & I2). by rewrite I1, I2, S1, S2. }
  destruct (Hseed seed_list (mkSim ls1 [] 0%float r1) (mkSim ls2 [] 0%float r2))
    as (S & S1 & S2); [by split|].
  destruct (d_bfs_loop_same (num_nodes g) g t1 t2 _ _ S) as (_ & _ & Ht);
    [by rewrite S1|by rewrite S2|done].
Qed.

(** X14. When every edge fires (for every draw of the engine and every edge
    of the graph the test [r <= edge.probability] succeeds), every round
    activates exactly the nodes reachable from the seeds, in one and the same
    order, and the estimator returns the sum of their values, rounded at
    every addition, added up once per round and divided by
    [double(mc_rounds)]. *)
Theorem estimate_adds_up_the_reachable_nodes_when_every_edge_fires (g : Graph)
    (seed_list : list nat) (mc_rounds : Z) (rng0 : mt19937) :
  wf_graph g → (∀ s, s ∈ seed_list → s < num_nodes g) → all_fire g rng0 →
  ∃ activated, NoDup activated ∧
    (∀ v, v ∈ activated ↔ reachable g seed_list v) ∧
    (estimate_weighted_spread g seed_list mc_rounds rng0).1 =
    (add_totals 0
       (replicate (Z.to_nat mc_rounds) (add_values g 0 activated))
     / double_of_int mc_rounds)%float.
Proof.
  intros Hwf Hseeds Hfire.
  assert (∀ v, seen_at (replicate (num_nodes g) 0%Z) v ≠ 1%Z) as Hfresh.
  { intros v. by rewrite seen_at_replicate. }
  destruct (d_rollout_certain g seed_list 1 Hwf Hseeds rng0
              (replicate (num_nodes g) 0%Z) (length_replicate _ _) Hfresh Hfire)
    as (_ & activated & Hnd & Hreach & Htot).
  exists activated. split; [done|]. split; [done|].
  apply (d_estimate_constant g seed_list (all_fire g)); [|done].
  intros r ls t Hr Hlen Hf. cbn zeta. split.
  - rewrite <- Htot. apply d_rollout_same; [|done|done].
    split; [by rewrite length_replicate|]. intros v.
    rewrite seen_at_replicate. split; [by intros H%Hf|done].
  - by destruct (d_rollout_certain g seed_list t Hwf Hseeds r ls Hlen Hf Hr).
Qed.

Lemma d_two_node_graph_wf a b p : wf_graph (two_node_graph a b p).
Proof.
  unfold two_node_graph.
  auto using d_add_edge_wf, d_set_node_value_wf, d_wf_empty_graph.
Qed.

Lemma estimate_at_certain_edge :
  ∃ activated, NoDup activated ∧
    (estimate_weighted_spread (two_node_graph tenth tenth 1) [0] 3
       (constant_engine 0.5)).1 =
    (add_totals 0
       (replicate 3 (add_values (two_node_graph tenth tenth 1) 0 activated))
     / double_of_int 3)%float.
Proof.
  destruct (estimate_adds_up_the_reachable_nodes_when_every_edge_fires
              (two_node_graph tenth tenth 1) [0] 3 (constant_engine 0.5))
    as (activated & Hnd & _ & Hest).
  - apply d_two_node_graph_wf.
  - intros s Hs. apply list_elem_of_singleton in Hs. subst s. vm_compute. lia.
  - intros e n He.
    assert (all_edges (two_node_graph tenth tenth 1) = [mkEdge 1 1]) as Hall
      by reflexivity.
    rewrite Hall in He. apply list_elem_of_singleton in He. subst e.
    reflexivity.
  - exists activated. by split.
Defined.

(** ** The order of the heap, on binary64 gains *)

Lemma SFcompare_chain x y z c1 c2 :
  SFcompare x y = Some c1 → SFcompare y z = Some c2 →
  c1 ≠ Gt → c2 ≠ Gt →
  SFcompare x z = Some match c1, c2 with Eq, Eq => Eq | _, _ => Lt end.
Proof.
  intros H1 H2 N1 N2.
  float_cases x; float_cases y; cbn in H1; try discriminate;
    injection H1 as <-; try (by destruct N1);
    float_cases z; cbn in H2; try discriminate;
    injection H2 as <-; try (by destruct N2);
    cbn; try reflexivity;
    compare_cases.
Qed.

Lemma SFcompare_swap x y :
  SFcompare y x = option_map CompOpp (SFcompare x y).
Proof. float_cases x; float_cases y; cbn; try reflexivity; compare_cases. Qed.

Lemma SFcompare_nan x y :
  SFcompare x y = None ↔ x = S754_nan ∨ y = S754_nan.
Proof.
  float_cases x; float_cases y; cbn; split; intros H; try discriminate;
    try (by left); try (by right); by destruct H.
Qed.

Lemma d_is_nan_spec x : is_nan x = true ↔ Prim2SF x = S754_nan.
Proof.
  unfold is_nan. rewrite FloatAxioms.eqb_spec. unfold SFeqb.
  destruct (SFcompare (Prim2SF x) (Prim2SF x)) as [c|] eqn:E.
  - assert (c = Eq) as ->.
    { pose proof (SFcompare_swap (Prim2SF x) (Prim2SF x)) as Hs.
      rewrite E in Hs. cbn in Hs. destruct c; by try discriminate. }
    cbn. split; [done|]. intros Hn. rewrite Hn in E. discriminate.
  - cbn. split; [|done]. intros _.
    apply SFcompare_nan in E. by destruct E.
Qed.

(** [operator<] in terms of the comparison of the two gains. *)
Lemma d_NodeGain_lt_compare a b :
  NodeGain_lt a b =
  match SFcompare (Prim2SF (marginal_gain a)) (Prim2SF (marginal_gain b)) with
  | Some Eq => node_id b <? node_id a
  | Some Lt => true
  | _ => false
  end.
Proof.
  unfold NodeGain_lt.
  rewrite FloatAxioms.eqb_spec, FloatAxioms.ltb_spec. unfold SFeqb, SFltb.
  by destruct (SFcompare _ _) as [[]|].
Qed.

(** X10. [NodeGain::operator<] on binary64 gains.  It is irreflexive and
    transitive.  An entry whose gain is NaN is unordered with every entry;
    two entries whose gains are not NaN are unordered exactly when the gains
    compare equal and the node ids are the same, so that entries of distinct
    nodes without NaN are ordered one way or the other.  ([main] accepts
    [mc_rounds = 0], at which every gain is [0.0 / 0.0], a NaN.) *)
Theorem operator_lt_orders_the_entries_without_nan (a b c : NodeGain) :
  NodeGain_lt a a = false ∧
  (NodeGain_lt a b = true → NodeGain_lt b c = true → NodeGain_lt a c = true) ∧
  (is_nan (marginal_gain a) = true ∨ is_nan (marginal_gain b) = true →
   NodeGain_lt a b = false ∧ NodeGain_lt b a = false) ∧
  (is_nan (marginal_gain a) = false → is_nan (marginal_gain b) = false →
   (NodeGain_lt a b = false ∧ NodeGain_lt b a = false ↔
    (marginal_gain a =? marginal_gain b)%float = true ∧ node_id a = node_id b) ∧
   (node_id a ≠ node_id b → NodeGain_lt a b = true ∨ NodeGain_lt b a = true)).
Proof.
  rewrite !d_NodeGain_lt_compare, FloatAxioms.eqb_spec. unfold SFeqb.
  set (A := Prim2SF (marginal_gain a)). set (B := Prim2SF (marginal_gain b)).
  set (C := Prim2SF (marginal_gain c)).
  pose proof (SFcompare_swap A B) as Hba.
  split; [|split; [|split]].
  - pose proof (SFcompare_swap A A) as Hs.
    destruct (SFcompare A A) as [[]|]; try done.
    apply Nat.ltb_irrefl.
  - destruct (SFcompare A B) as [c1|] eqn:E1; [|done].
    destruct (SFcompare B C) as [c2|] eqn:E2; [|by destruct c1].
    intros H1 H2.
    assert (c1 ≠ Gt) as N1 by (by destruct c1).
    assert (c2 ≠ Gt) as N2 by (by destruct c1, c2).
    rewrite (SFcompare_chain A B C c1 c2 E1 E2 N1 N2).
    destruct c1, c2; try done.
    apply Nat.ltb_lt in H1, H2. apply Nat.ltb_lt. lia.
  - intros Hnan.
    assert (SFcompare A B = None) as E.
    { apply SFcompare_nan. unfold A, B. by rewrite <- !d_is_nan_spec. }
    rewrite Hba, E. done.
  - intros Ha Hb.
    destruct (SFcompare A B) as [c1|] eqn:E.
    + rewrite Hba. destruct c1; cbn [option_map CompOpp].
      * split.
        -- split.
           ++ intros [H1 H2]. apply Nat.ltb_ge in H1, H2. split; [done|lia].
           ++ intros [_ ->]. by rewrite Nat.ltb_irrefl.
        -- intros Hne. destruct (Nat.ltb_spec (node_id b) (node_id a)); [by left|].
           right. apply Nat.ltb_lt. lia.
      * split; [|by left]. split; [by intros []|by intros []].
      * split; [|by right]. split; [by intros []|by intros []].
    + apply SFcompare_nan in E. unfold A, B in E.
      rewrite <- !d_is_nan_spec in E.
      destruct E; congruence.
Qed.

Lemma operator_lt_at_distinct_nodes :
  NodeGain_lt (mkNodeGain 0 tenth 0) (mkNodeGain 1 tenth 0) = true ∨
  NodeGain_lt (mkNodeGain 1 tenth 0) (mkNodeGain 0 tenth 0) = true.
Proof.
  apply (operator_lt_orders_the_entries_without_nan
           (mkNodeGain 0 tenth 0) (mkNodeGain 1 tenth 0) (mkNodeGain 0 tenth 0));
    [reflexivity|reflexivity|cbn; lia].
Defined.

(** With a NaN among the gains, being unordered is not transitive:
    [operator<] is then not a strict weak ordering. *)
Example d_nan_breaks_the_weak_order :
  let a := mkNodeGain 0 1 0 in
  let n := mkNodeGain 1 nan 0 in
  let b := mkNodeGain 2 2 0 in
  (NodeGain_lt a n = false ∧ NodeGain_lt n a = false) ∧
  (NodeGain_lt n b = false ∧ NodeGain_lt b n = false) ∧
  NodeGain_lt a b = true.
Proof. by vm_compute. Qed.
